(** * hemo: lattice vascular networks ([scripts/scaling_net.py])

    A shallow embedding of the network constructor, the distance ranking,
    the two radius-ordering passes and the aggregate metrics, and of the
    file lookup of [find_file.py], followed by the properties established
    about them.

    Conventions of the embedding.
    - Python [int] is [Z]; Python [float] and [numpy.float64] are the
      kernel's binary64 floats ([PrimFloat.float]), whose operations round
      to nearest-even as IEEE 754 prescribes.  The two behave alike except
      in a division by zero and in a power that overflows; the values that
      reach a division carry their kind ([scalar]), and the power is taken
      as an operation that returns or raises.
    - A [dict] is an insertion-ordered association list with unique keys.
    - Exceptions are values of [exn]; a computation that may raise has type
      [result A].
    - [G.edges()] is the list of edges at the moment of the call (NetworkX
      1.x, the API the source is written against: it reads [G.node]); a
      loop over it is not disturbed by edges added or removed in its body.
    - In-place mutation of the graph is explicit state passing. *)

From Stdlib Require Import ZArith List Floats Lia Bool.
From stdpp Require Import base tactics option list list_numbers gmap strings.

Open Scope Z_scope.

(** ** Python runtime *)

Inductive exn : Set :=
| ZeroDivisionError
| KeyError
| IndexError
| ValueError
| NetworkXError
| NetworkXNoPath
| NodeNotFound
| OverflowError.

Inductive result (A : Type) : Type :=
| Ok (a : A)
| Raise (e : exn).
Arguments Ok {A} a.
Arguments Raise {A} e.

#[global] Instance result_ret : MRet result := fun A a => Ok a.
#[global] Instance result_bind : MBind result := fun A B f m =>
  match m with
  | Ok a => f a
  | Raise e => Raise e
  end.
Arguments result_ret {A} a /.
Arguments result_bind {A B} f !m /.

(** [for a in l: body] over a state [S]; an exception leaves the loop. *)
Fixpoint for_each {A S : Type} (l : list A) (body : A → S → result S) (s : S)
  : result S :=
  match l with
  | [] => Ok s
  | a :: l' => s' ← body a s; for_each l' body s'
  end.

(** [range(n)] *)
Definition range (n : Z) : list Z := seqZ 0 n.

(** Conversion of an [int] to a [float]: the nearest binary64 value, ties to
    even.  (Python raises [OverflowError] from 2^1024 on; no quantity of
    this program comes near.) *)
Definition float_of_int (z : Z) : float :=
  SF2Prim (binary_normalize prec emax z 0 false).

Definition sf_of_int (z : Z) : spec_float :=
  match z with
  | Z0 => S754_zero false
  | Zpos p => S754_finite false p 0
  | Zneg p => S754_finite true p 0
  end.

(** [a / b] on two [int]s: the correctly rounded quotient. *)
Definition int_truediv (a b : Z) : result float :=
  if decide (b = 0) then Raise ZeroDivisionError
  else Ok (SF2Prim (SFdiv prec emax (sf_of_int a) (sf_of_int b))).

(** [numpy.pi], the binary64 value nearest to pi. *)
Definition np_pi : float := 0x1.921fb54442d18p+1%float.

(** A float attribute whose kind matters: a Python [float], or a
    [numpy.float64] scalar when [float64] is set.  Both hold a binary64
    value. *)
Record scalar : Set := Scalar {
  float64 : bool;
  scalar_value :> float
}.
Definition py_float (x : float) : scalar := Scalar false x.
Definition np_float64 (x : float) : scalar := Scalar true x.

(** [x * y]: a [numpy.float64] as soon as one factor is. *)
Definition scalar_mul (x y : scalar) : scalar :=
  Scalar (float64 x || float64 y) (x * y)%float.

(** A Python number as the metric functions meet it: the literal [0] a sum
    starts from is an [int], the attributes are Python [float]s or
    [numpy.float64] scalars. *)
Inductive pynum : Set :=
| PyInt (z : Z)
| PyFloat (f : float)
| NpFloat64 (f : float).

Definition of_scalar (x : scalar) : pynum :=
  if float64 x then NpFloat64 x else PyFloat x.

Definition to_float (x : pynum) : float :=
  match x with
  | PyInt z => float_of_int z
  | PyFloat f => f
  | NpFloat64 f => f
  end.

(** [x + y]: two [int]s give an [int]; otherwise the sum is a
    [numpy.float64] as soon as one term is, and a Python [float] if not. *)
Definition py_add (x y : pynum) : pynum :=
  match x, y with
  | PyInt a, PyInt b => PyInt (a + b)
  | NpFloat64 _, _ | _, NpFloat64 _ => NpFloat64 (to_float x + to_float y)
  | _, _ => PyFloat (to_float x + to_float y)
  end.

Definition py_is_zero (x : pynum) : bool :=
  match x with
  | PyInt z => bool_decide (z = 0)
  | PyFloat f => PrimFloat.eqb f 0%float
  | NpFloat64 f => PrimFloat.eqb f 0%float
  end.

(** [x / y] with a Python [float] numerator.  Python raises
    [ZeroDivisionError] when the divisor is an [int] or a Python [float]
    equal to zero.  A [numpy.float64] divisor makes it a [numpy] division,
    which raises nothing: by zero it gives an infinity, or a NaN for
    [0.0 / 0.0], and a [RuntimeWarning], which is not an exception. *)
Definition py_truediv (x : float) (y : pynum) : result float :=
  match y with
  | NpFloat64 f => Ok (x / f)%float
  | _ => if py_is_zero y then Raise ZeroDivisionError
         else Ok (x / to_float y)%float
  end.

(** ** Insertion-ordered dictionaries *)

Section odict.
Context {K V : Type} `{EqDecision K}.

Definition odict : Type := list (K * V).

Definition keys (d : odict) : list K := d.*1.

Fixpoint od_get (k : K) (d : odict) : option V :=
  match d with
  | [] => None
  | (k', v) :: d' => if decide (k = k') then Some v else od_get k d'
  end.

(** [d[k] = v]: an existing key keeps its place, a new one goes last. *)
Fixpoint od_set (k : K) (v : V) (d : odict) : odict :=
  match d with
  | [] => [(k, v)]
  | (k', v') :: d' =>
      if decide (k = k') then (k, v) :: d' else (k', v') :: od_set k v d'
  end.

(** [del d[k]] for a key that is present. *)
Fixpoint od_del (k : K) (d : odict) : odict :=
  match d with
  | [] => []
  | (k', v') :: d' =>
      if decide (k = k') then d' else (k', v') :: od_del k d'
  end.

(** [d[k]] *)
Definition getitem (d : odict) (k : K) : result V :=
  match od_get k d with
  | Some v => Ok v
  | None => Raise KeyError
  end.
End odict.
Arguments odict : clear implicits.

(** An attribute of an attribute dictionary: [a['name']]. *)
Definition attr {A : Type} (o : option A) : result A :=
  match o with
  | Some a => Ok a
  | None => Raise KeyError
  end.

(** ** The NetworkX directed graph *)

Inductive role : Set := Internal | Source | Sink.

#[global] Instance role_eq_dec : EqDecision role.
Proof. solve_decision. Defined.

Record node_attrs : Type := NodeAttrs {
  pos : option (list float);
  ntype : option role
}.

(** The attributes of an edge.  [volume] and [inverse_transit_time], whose
    product [total_resistance] divides by, carry their kind. *)
Record edge_attrs : Type := EdgeAttrs {
  length_ : option float;
  radius : option float;
  volume : option scalar;
  inverse_transit_time : option scalar;
  idx : option Z;
  src_dist : option Z;
  sink_dist : option Z;
  center_dist : option Z
}.

Record graph_attrs : Type := GraphAttrs {
  g_N : option Z;
  g_delta : option float;
  g_source : option Z;
  g_sink : option Z
}.

(** [node] is [G.node], [succ] is [G.adj] (the successor dictionaries; the
    predecessor dictionaries mirror them and are never read by this
    program), [graph] is [G.graph]. *)
Record DiGraph : Type := MkDiGraph {
  graph : graph_attrs;
  node : odict Z node_attrs;
  succ : odict Z (odict Z edge_attrs)
}.

Definition no_node_attrs : node_attrs := NodeAttrs None None.
Definition no_edge_attrs : edge_attrs :=
  EdgeAttrs None None None None None None None None.
Definition no_graph_attrs : graph_attrs := GraphAttrs None None None None.

(** [nx.DiGraph()] *)
Definition empty_graph : DiGraph := MkDiGraph no_graph_attrs [] [].

Definition set_graph (f : graph_attrs → graph_attrs) (G : DiGraph) : DiGraph :=
  MkDiGraph (f (graph G)) (node G) (succ G).
Definition set_g_N (n : Z) (a : graph_attrs) : graph_attrs :=
  GraphAttrs (Some n) (g_delta a) (g_source a) (g_sink a).
Definition set_g_delta (d : float) (a : graph_attrs) : graph_attrs :=
  GraphAttrs (g_N a) (Some d) (g_source a) (g_sink a).

Definition set_pos (p : list float) (a : node_attrs) : node_attrs :=
  NodeAttrs (Some p) (ntype a).
Definition set_ntype (r : role) (a : node_attrs) : node_attrs :=
  NodeAttrs (pos a) (Some r).

Definition set_radius (r : float) (a : edge_attrs) : edge_attrs :=
  EdgeAttrs (length_ a) (Some r) (volume a) (inverse_transit_time a) (idx a)
            (src_dist a) (sink_dist a) (center_dist a).
Definition set_src_dist (d : Z) (a : edge_attrs) : edge_attrs :=
  EdgeAttrs (length_ a) (radius a) (volume a) (inverse_transit_time a) (idx a)
            (Some d) (sink_dist a) (center_dist a).
Definition set_sink_dist (d : Z) (a : edge_attrs) : edge_attrs :=
  EdgeAttrs (length_ a) (radius a) (volume a) (inverse_transit_time a) (idx a)
            (src_dist a) (Some d) (center_dist a).
Definition set_center_dist (d : Z) (a : edge_attrs) : edge_attrs :=
  EdgeAttrs (length_ a) (radius a) (volume a) (inverse_transit_time a) (idx a)
            (src_dist a) (sink_dist a) (Some d).

(** [G.add_node(n, **attrs)]: a new node gets empty adjacency and the
    attributes; a known node has its attributes updated.  (NetworkX tests
    membership in the adjacency dictionary, which has the keys of the node
    dictionary.) *)
Definition add_node (n : Z) (upd : node_attrs → node_attrs) (G : DiGraph)
  : DiGraph :=
  match od_get n (node G) with
  | None =>
      MkDiGraph (graph G) (od_set n (upd no_node_attrs) (node G))
                (od_set n [] (succ G))
  | Some a => MkDiGraph (graph G) (od_set n (upd a) (node G)) (succ G)
  end.

(** [G.add_edge(u, v)] without attributes: missing endpoints are created
    bare, an existing edge keeps its attribute dictionary. *)
Definition add_edge (u v : Z) (G : DiGraph) : DiGraph :=
  let G1 := add_node u id G in
  let G2 := add_node v id G1 in
  let nbrs := default [] (od_get u (succ G2)) in
  let data := default no_edge_attrs (od_get v nbrs) in
  MkDiGraph (graph G2) (node G2) (od_set u (od_set v data nbrs) (succ G2)).

(** [G.add_edges_from(el)] *)
Definition add_edges_from (el : list (Z * Z)) (G : DiGraph) : DiGraph :=
  fold_left (fun G e => add_edge e.1 e.2 G) el G.

(** [G.remove_edge(u, v)] *)
Definition remove_edge (u v : Z) (G : DiGraph) : result DiGraph :=
  match od_get u (succ G) with
  | Some nbrs =>
      match od_get v nbrs with
      | Some _ =>
          Ok (MkDiGraph (graph G) (node G) (od_set u (od_del v nbrs) (succ G)))
      | None => Raise NetworkXError
      end
  | None => Raise NetworkXError
  end.

(** [G.nodes()] and [G.edges()] *)
Definition nodes (G : DiGraph) : list Z := keys (node G).
Definition edges (G : DiGraph) : list (Z * Z) :=
  flat_map (fun un => map (pair un.1) (keys un.2)) (succ G).

(** [G[u][v]] and the in-place update of that attribute dictionary. *)
Definition edge_data (G : DiGraph) (u v : Z) : result edge_attrs :=
  nbrs ← getitem (succ G) u; getitem nbrs v.

Definition set_edge_data (f : edge_attrs → edge_attrs) (u v : Z) (G : DiGraph)
  : result DiGraph :=
  nbrs ← getitem (succ G) u;
  a ← getitem nbrs v;
  Ok (MkDiGraph (graph G) (node G) (od_set u (od_set v (f a) nbrs) (succ G))).

(** [G.node[n]] and the in-place update of that attribute dictionary. *)
Definition set_node_data (f : node_attrs → node_attrs) (n : Z) (G : DiGraph)
  : result DiGraph :=
  a ← getitem (node G) n;
  Ok (MkDiGraph (graph G) (od_set n (f a) (node G)) (succ G)).

(** *** Shortest paths

    [nx.shortest_path_length(G, source, target)] is the number of edges of a
    shortest directed path.  NetworkX finds it by a bidirectional
    breadth-first search; the model enumerates, level by level, the nodes
    reached by walks of length 0, 1, 2, ... and returns the first level
    holding the target.  A shortest path repeats no node, so the levels
    below the number of nodes suffice.  An endpoint that is not a node of
    the graph is an error other than [NetworkXNoPath]; the program never
    asks for one. *)

Definition successors (G : DiGraph) (u : Z) : list Z :=
  match od_get u (succ G) with
  | Some nbrs => keys nbrs
  | None => []
  end.

Definition next_level (G : DiGraph) (level : list Z) : list Z :=
  remove_dups (flat_map (successors G) level).

Fixpoint first_level (G : DiGraph) (fuel : nat) (level : list Z) (target : Z)
  (d : Z) : option Z :=
  if bool_decide (target ∈ level) then Some d
  else
    match fuel with
    | O => None
    | S fuel' => first_level G fuel' (next_level G level) target (d + 1)
    end.

Definition has_node (G : DiGraph) (n : Z) : bool :=
  bool_decide (n ∈ nodes G).

Definition shortest_path_length (G : DiGraph) (s t : Z) : result Z :=
  if has_node G s && has_node G t then
    match first_level G (length (nodes G) - 1) [s] t 0 with
    | Some d => Ok d
    | None => Raise NetworkXNoPath
    end
  else Raise NodeNotFound.

(** ** Aggregate metrics *)

(** [total_flow(G)] *)
Definition total_flow (G : DiGraph) : result pynum :=
  for_each (edges G)
    (fun '(src, sink) q =>
       s ← attr (g_source (graph G));
       if decide (src = s) then
         a ← edge_data G src sink;
         t ← attr (inverse_transit_time a);
         v ← attr (volume a);
         Ok (py_add q (of_scalar (scalar_mul t v)))
       else Ok q)
    (PyInt 0).

(** [dp = 25 * 133.322387415]; the literal denotes the binary64 value
    0x1.0aa50ff698225p+7. *)
Definition dp : float := (float_of_int 25 * 0x1.0aa50ff698225p+7)%float.

(** [total_resistance(G)] *)
Definition total_resistance (G : DiGraph) : result float :=
  q ← total_flow G;
  py_truediv dp q.

(** [surface_area(G)] *)
Definition surface_area (G : DiGraph) : result float :=
  for_each (edges G)
    (fun '(src, sink) sa =>
       a ← edge_data G src sink;
       r ← attr (radius a);
       a' ← edge_data G src sink;
       l ← attr (length_ a');
       Ok (sa + r * l)%float)
    0%float.

Section total_volume.
(** [x ** 2] is left to the library: it returns the C library's
    [pow(x, 2.0)], or raises.  A Python [float] raises [OverflowError]
    when the square overflows; a [numpy.float64] gives an infinity
    instead. *)
Variable float_pow2 : float → result float.

(** [get_total_volume(G)] *)
Definition get_total_volume (G : DiGraph) : result float :=
  for_each (edges G)
    (fun '(src, sink) total_volume =>
       a ← edge_data G src sink;
       r ← attr (radius a);
       r2 ← float_pow2 r;
       a' ← edge_data G src sink;
       l ← attr (length_ a');
       Ok (total_volume + r2 * l * np_pi)%float)
    0%float.
End total_volume.

(** A two-dimensional [numpy] array of floats: [ncols] columns, and the
    rows, each of that length. *)
Record ndarray2 : Type := NdArray2 {
  ncols : Z;
  rows : list (list float)
}.

(** [soln[:, j]]: a negative [j] counts from the last column. *)
Definition column (soln : ndarray2) (j : Z) : result (list float) :=
  if decide (0 ≤ j < ncols soln) then
    Ok (map (fun r => nth (Z.to_nat j) r 0%float) (rows soln))
  else if decide (- ncols soln ≤ j < 0) then
    Ok (map (fun r => nth (Z.to_nat (j + ncols soln)) r 0%float) (rows soln))
  else Raise IndexError.

(** [Wt += c] for one-dimensional arrays: the shapes must agree, or [c] has
    one element, which is then added everywhere. *)
Definition iadd (Wt c : list float) : result (list float) :=
  if decide (length c = length Wt) then
    Ok (zip_with PrimFloat.add Wt c)
  else
    match c with
    | [x] => Ok (map (fun w => (w + x)%float) Wt)
    | _ => Raise ValueError
    end.

(** [get_Wt(G, times, soln, liposomes)] *)
Definition get_Wt (G : DiGraph) (times : list float) (soln : ndarray2)
  (liposomes : bool) : result (list float) :=
  let n_edges := Z.of_nat (length (edges G)) in
  for_each (edges G)
    (fun '(src, sink) Wt =>
       a ← edge_data G src sink;
       v ← attr (volume a);
       a' ← edge_data G src sink;
       i ← attr (idx a');
       c ← column soln (if liposomes then 2 * n_edges + i else n_edges + i);
       iadd Wt (map (fun s => (float_of_int 65 * scalar_value v * s)%float) c))
    (map (fun _ => 0%float) times).

(** ** Central difference and [make_switches] *)

(** The local helper [dist_edge_node(G, edge, node)] of
    [central_difference]. *)
Definition dist_edge_node (G : DiGraph) (edge : Z * Z) (n : Z) : result Z :=
  let '(src, sink) := edge in
  match shortest_path_length G src n with
  | Raise NetworkXNoPath => shortest_path_length G n sink
  | r => r
  end.

(** [central_difference(G, edge)] *)
Definition central_difference (G : DiGraph) (edge : Z * Z) : result Z :=
  s ← attr (g_source (graph G));
  d1 ← dist_edge_node G edge s;
  t ← attr (g_sink (graph G));
  d2 ← dist_edge_node G edge t;
  Ok (Z.abs (d1 - d2)).

(** The inner loop of [make_switches] for the edge [(src1, sink1)], whose
    central difference [cd1] and radius [r1] were read before the loop; the
    [break] ends the scan at the first swap. *)
Fixpoint scan_partners (G : DiGraph) (src1 sink1 cd1 : Z) (r1 : float)
  (partners : list (Z * Z)) : result DiGraph :=
  match partners with
  | [] => Ok G
  | (src2, sink2) :: rest =>
      if bool_decide (src1 = src2) || bool_decide (sink1 = sink2) then
        scan_partners G src1 sink1 cd1 r1 rest
      else
        cd2 ← central_difference G (src2, sink2);
        a2 ← edge_data G src2 sink2;
        r2 ← attr (radius a2);
        if (cd1 <? cd2) && (r2 <? r1)%float then
          G1 ← set_edge_data (set_radius r2) src1 sink1 G;
          set_edge_data (set_radius r1) src2 sink2 G1
        else scan_partners G src1 sink1 cd1 r1 rest
  end.

(** [make_switches(G)] *)
Definition make_switches (G : DiGraph) : result DiGraph :=
  for_each (edges G)
    (fun '(src1, sink1) G =>
       cd1 ← central_difference G (src1, sink1);
       a1 ← edge_data G src1 sink1;
       r1 ← attr (radius a1);
       scan_partners G src1 sink1 cd1 r1 (edges G))
    G.

(** ** Distance ranking *)

(** The first loop of [assign_distances_from_source_and_sink_nodes]: the
    nodes tagged source and the nodes tagged sink, in node order. *)
Definition role_nodes (G : DiGraph) : result (list Z * list Z) :=
  for_each (nodes G)
    (fun n '(source_nodes, sink_nodes) =>
       a ← getitem (node G) n;
       t ← attr (ntype a);
       if decide (t = Source) then Ok (source_nodes ++ [n], sink_nodes)
       else
         a' ← getitem (node G) n;
         t' ← attr (ntype a');
         if decide (t' = Sink) then Ok (source_nodes, sink_nodes ++ [n])
         else Ok (source_nodes, sink_nodes))
    ([], []).

(** [try: ds.append(nx.shortest_path_length(G, s, t))
     except nx.NetworkXNoPath: pass] *)
Definition append_if_path (G : DiGraph) (s t : Z) (ds : list Z)
  : result (list Z) :=
  match shortest_path_length G s t with
  | Ok d => Ok (ds ++ [d])
  | Raise NetworkXNoPath => Ok ds
  | Raise e => Raise e
  end.

(** [min(ds)] of a list known to be non-empty *)
Definition py_min (d : Z) (ds : list Z) : Z := fold_left Z.min ds d.

(** [0 if len(ds) == 0 else min(ds)] *)
Definition min_or_zero (ds : list Z) : Z :=
  match ds with
  | [] => 0
  | d :: ds' => py_min d ds'
  end.

(** The body of the edge loop of
    [assign_distances_from_source_and_sink_nodes]. *)
Definition assign_edge_distances (source_nodes sink_nodes : list Z)
  (src sink : Z) (G : DiGraph) : result DiGraph :=
  src_dists ←
    for_each source_nodes
      (fun entrance_node ds => append_if_path G entrance_node src ds) [];
  sink_dists ←
    for_each sink_nodes
      (fun exit_node ds => append_if_path G sink exit_node ds) [];
  G1 ← set_edge_data (set_src_dist (min_or_zero src_dists)) src sink G;
  G2 ← set_edge_data (set_sink_dist (min_or_zero sink_dists)) src sink G1;
  a ← edge_data G2 src sink;
  sd ← attr (src_dist a);
  a' ← edge_data G2 src sink;
  kd ← attr (sink_dist a');
  set_edge_data (set_center_dist (Z.abs (sd - kd))) src sink G2.

(** [assign_distances_from_source_and_sink_nodes(G)] *)
Definition assign_distances_from_source_and_sink_nodes (G : DiGraph)
  : result DiGraph :=
  '(source_nodes, sink_nodes) ← role_nodes G;
  for_each (edges G)
    (fun '(src, sink) G => assign_edge_distances source_nodes sink_nodes src sink G)
    G.

(** ** The network constructor *)

(** The dictionary [vd] from grid indices to node ids. *)
Abbreviation grid_index := (Z * Z * Z)%type.

(** [for x_idx in range(N): for y_idx in range(N): for z_idx in range(N)] *)
Definition for_grid {S : Type} (N : Z) (body : grid_index → S → result S)
  (s : S) : result S :=
  for_each (range N)
    (fun x_idx s =>
       for_each (range N)
         (fun y_idx s =>
            for_each (range N) (fun z_idx s => body (x_idx, y_idx, z_idx) s) s)
         s)
    s.

(** [pos=[delta * (x_idx + 1), delta * (y_idx + 1), delta * (z_idx + 1)]] *)
Definition node_pos (delta : float) (c : grid_index) : list float :=
  let '(x_idx, y_idx, z_idx) := c in
  [ (delta * float_of_int (x_idx + 1))%float;
    (delta * float_of_int (y_idx + 1))%float;
    (delta * float_of_int (z_idx + 1))%float ].

(** "First add the nodes of the graph": the state is [vd], [counter], [G]. *)
Definition add_grid_nodes (N : Z) (delta : float) (G : DiGraph)
  : result (gmap grid_index Z * Z * DiGraph) :=
  for_grid N
    (fun c '(vd, counter, G) =>
       Ok (<[c := counter]> vd,
           counter + 1,
           add_node counter
             (fun a => set_ntype Internal (set_pos (node_pos delta c) a)) G))
    (∅, 0, G).

(** [vd[c]] *)
Definition vd_get (vd : gmap grid_index Z) (c : grid_index) : result Z :=
  match vd !! c with
  | Some n => Ok n
  | None => Raise KeyError
  end.

(** The list [el] built for one grid point. *)
Definition forward_edges (N : Z) (vd : gmap grid_index Z) (c : grid_index)
  : result (list (Z * Z)) :=
  let '(x_idx, y_idx, z_idx) := c in
  el1 ←
    (if decide (x_idx < N - 1) then
       u ← vd_get vd (x_idx, y_idx, z_idx);
       v ← vd_get vd (x_idx + 1, y_idx, z_idx);
       Ok [(u, v)]
     else Ok []);
  el2 ←
    (if decide (y_idx < N - 1) then
       u ← vd_get vd (x_idx, y_idx, z_idx);
       v ← vd_get vd (x_idx, y_idx + 1, z_idx);
       Ok (el1 ++ [(u, v)])
     else Ok el1);
  if decide (z_idx < N - 1) then
    u ← vd_get vd (x_idx, y_idx, z_idx);
    v ← vd_get vd (x_idx, y_idx, z_idx + 1);
    Ok (el2 ++ [(u, v)])
  else Ok el2.

(** "Next add the edges" *)
Definition add_grid_edges (N : Z) (vd : gmap grid_index Z) (G : DiGraph)
  : result DiGraph :=
  for_grid N
    (fun c G => el ← forward_edges N vd c; Ok (add_edges_from el G))
    G.

(** "Sources and sinks are alternating nodes on opposite faces" *)
Definition mark_sources_and_sinks (N : Z) (vd : gmap grid_index Z)
  (G : DiGraph) : result DiGraph :=
  for_each (range N)
    (fun x_idx G =>
       for_each (range N)
         (fun y_idx G =>
            if decide (y_idx mod 2 ≠ x_idx mod 2) then Ok G
            else
              n ← vd_get vd (x_idx, y_idx, 0);
              G1 ← set_node_data (set_ntype Source) n G;
              n' ← vd_get vd (x_idx, y_idx, N - 1);
              set_node_data (set_ntype Sink) n' G1)
         G)
    G.

(** [G.node[n]['ntype']] *)
Definition node_ntype (G : DiGraph) (n : Z) : result role :=
  a ← getitem (node G) n; attr (ntype a).

(** [G.remove_edge(src, sink); G.add_edge(sink, src)] *)
Definition reverse_edge (src sink : Z) (G : DiGraph) : result DiGraph :=
  G1 ← remove_edge src sink G; Ok (add_edge sink src G1).

(** "Ensure edges direct out from sources, in to sinks" *)
Definition direct_edges (G : DiGraph) : result DiGraph :=
  for_each (edges G)
    (fun '(src, sink) G =>
       t ← node_ntype G sink;
       if decide (t = Source) then reverse_edge src sink G
       else
         t' ← node_ntype G src;
         if decide (t' = Sink) then reverse_edge src sink G
         else Ok G)
    G.

(** Lines 143 to 185 of the constructor: the lattice with its roles and its
    edges directed. *)
Definition build_lattice (N : Z) : result DiGraph :=
  delta ← int_truediv 1 (N + 1);
  let G := set_graph (set_g_delta delta) (set_graph (set_g_N N) empty_graph) in
  '(vd, _, G) ← add_grid_nodes N delta G;
  G ← add_grid_edges N vd G;
  G ← mark_sources_and_sinks N vd G;
  direct_edges G.

(** The same up to line 171: nodes and forward edges only. *)
Definition build_grid (N : Z) : result (gmap grid_index Z * DiGraph) :=
  delta ← int_truediv 1 (N + 1);
  let G := set_graph (set_g_delta delta) (set_graph (set_g_N N) empty_graph) in
  '(vd, _, G) ← add_grid_nodes N delta G;
  G ← add_grid_edges N vd G;
  Ok (vd, G).

(** [np.sqrt(90 * np.pi)] *)
Definition sqrt_90_pi : float := PrimFloat.sqrt (float_of_int 90 * np_pi).

(** [1/((N+1) * np.sqrt(90*np.pi))] *)
Definition symmetric_radius (N : Z) : float :=
  (float_of_int 1 / (float_of_int (N + 1) * sqrt_90_pi))%float.

(** The loop of the symmetric branch. *)
Definition assign_symmetric_radii (N : Z) (G : DiGraph) : result DiGraph :=
  for_each (edges G)
    (fun '(src, sink) G => set_edge_data (set_radius (symmetric_radius N)) src sink G)
    G.

(** The body of the innermost repair loop, for the ordered pair of edges
    [(src1, sink1)], [(src2, sink2)]. *)
Definition repair_pair (src1 sink1 src2 sink2 : Z) (G : DiGraph)
  : result DiGraph :=
  if decide (src1 = src2) then Ok G
  else
    a1 ← edge_data G src1 sink1;
    cd1 ← attr (center_dist a1);
    a2 ← edge_data G src2 sink2;
    cd2 ← attr (center_dist a2);
    if decide (cd1 > cd2) then
      a1 ← edge_data G src1 sink1;
      r1 ← attr (radius a1);
      a2 ← edge_data G src2 sink2;
      r2 ← attr (radius a2);
      if (r1 <? r2)%float then
        a1 ← edge_data G src1 sink1;
        temp_radius ← attr (radius a1);
        a2 ← edge_data G src2 sink2;
        r2' ← attr (radius a2);
        G1 ← set_edge_data (set_radius r2') src1 sink1 G;
        set_edge_data (set_radius temp_radius) src2 sink2 G1
      else Ok G
    else Ok G.

(** One sweep over all ordered pairs of edges. *)
Definition repair_pass (G : DiGraph) : result DiGraph :=
  for_each (edges G)
    (fun '(src1, sink1) G =>
       for_each (edges G)
         (fun '(src2, sink2) G => repair_pair src1 sink1 src2 sink2 G) G)
    G.

(** [for _ in range(radii_iters)] *)
Definition repair_passes (radii_iters : Z) (G : DiGraph) : result DiGraph :=
  for_each (range radii_iters) (fun _ G => repair_pass G) G.

Section constructor.
(** The collaborators of [hemo.net_prep], which set edge lengths and
    prepare the graph for simulation, and two library calls whose values
    the program only passes on: the successive results of
    [np.random.gamma(alpha, beta)], numbered from the first call, and
    [x ** -1] on a [numpy.float64]. *)
Variable calculate_lengths : DiGraph → result DiGraph.
Variable prep_net_for_sims : DiGraph → result DiGraph.
Variable random_gamma : nat → Z → float → float.
Variable np_reciprocal : float → float.

(** [scale_parm(n)] *)
Definition scale_parm (n : Z) : float :=
  np_reciprocal (float_of_int (5 * (n + 1)) * sqrt_90_pi)%float.

(** The loop drawing one radius per edge. *)
Definition assign_random_radii (N : Z) (G : DiGraph) : result DiGraph :=
  let alpha := 5 in
  let beta := scale_parm N in
  '(_, G) ←
    for_each (edges G)
      (fun '(src, sink) '(k, G) =>
         G' ← set_edge_data (set_radius (random_gamma k alpha beta)) src sink G;
         Ok (S k, G'))
      (O, G);
  Ok G.

(** The constructor up to, and without, the final call of
    [net_prep.prep_net_for_sims]. *)
Definition create_unprepared_network (N radii_iters : Z) (symmetric : bool)
  : result DiGraph :=
  G ← build_lattice N;
  G ← calculate_lengths G;
  if negb symmetric then
    G ← assign_distances_from_source_and_sink_nodes G;
    G ← assign_random_radii N G;
    repair_passes radii_iters G
  else assign_symmetric_radii N G.

(** [create_network_multiple_sources_and_sinks(N, radii_iters=2,
    symmetric=False)] *)
Definition create_network_multiple_sources_and_sinks (N radii_iters : Z)
  (symmetric : bool) : result DiGraph :=
  G ← create_unprepared_network N radii_iters symmetric;
  prep_net_for_sims G.
End constructor.

(** * File lookup ([find_file.py]) *)

(** [filename in name] on two strings: [filename] occurs in [name] as a run
    of consecutive characters. *)
Fixpoint starts_with (s p : string) {struct p} : bool :=
  match p, s with
  | EmptyString, _ => true
  | String c p', String d s' => bool_decide (c = d) && starts_with s' p'
  | String _ _, EmptyString => false
  end.

Fixpoint str_contains (filename name : string) : bool :=
  starts_with name filename
  || match name with
     | EmptyString => false
     | String _ name' => str_contains filename name'
     end.

(** A directory as [os.walk] reads it: the names of its entries that are
    not directories, and its entries that are, each in listing order.
    [Unlisted] is a directory [os.walk] gets nothing from: a symbolic
    link, which it does not follow, or a directory it cannot list, whose
    error it swallows. *)
#[local] Unset Elimination Schemes.
Inductive dir_tree : Type :=
| DirTree (nondirs : list string) (dirs : list (string * dir_tree))
| Unlisted.
#[local] Set Elimination Schemes.

(** What [find_filepath] gives back: a path, or the class
    [FileNotFoundError] itself, which it returns and does not raise. *)
Inductive found : Set :=
| Path (p : string)
| FileNotFoundError_class.

(** The one exception of [find_filepath]: [None in name] is a
    [TypeError]. *)
Inductive outcome (A : Type) : Type :=
| Return (a : A)
| RaiseTypeError.
Arguments Return {A} a.
Arguments RaiseTypeError {A}.

Section find_file.
(** [os.path.join] on a directory and an entry name depends on the
    platform; the program only passes its result on. *)
Variable path_join : string → string → string.

(** [os.walk(top, False)]: the triples [(root, dirs, files)], every
    directory after the directories below it. *)
Fixpoint os_walk (top : string) (t : dir_tree)
  : list (string * list string * list string) :=
  match t with
  | DirTree nondirs dirs =>
      flat_map (fun '(name, sub) => os_walk (path_join top name) sub) dirs
      ++ [(top, map fst dirs, nondirs)]
  | Unlisted => []
  end.

(** [for name in names: if filename in name: return os.path.join(root, name)];
    [None] when the loop ends without returning.  The argument [filename]
    is a string or, by default, [None]. *)
Fixpoint first_match (filename : option string) (root : string)
  (names : list string) : option (outcome found) :=
  match names with
  | [] => None
  | name :: names' =>
      match filename with
      | None => Some RaiseTypeError
      | Some f =>
          if str_contains f name then Some (Return (Path (path_join root name)))
          else first_match filename root names'
      end
  end.

(** The loop over the triples, and [return FileNotFoundError] after it. *)
Fixpoint scan (filename : option string)
  (triples : list (string * list string * list string)) : outcome found :=
  match triples with
  | [] => Return FileNotFoundError_class
  | (root, dirs, files) :: triples' =>
      match first_match filename root files with
      | Some r => r
      | None =>
          match first_match filename root dirs with
          | Some r => r
          | None => scan filename triples'
          end
      end
  end.

(** [find_filepath(filename)], in the working directory [cwd] whose
    content is [fs]. *)
Definition find_filepath (cwd : string) (fs : dir_tree)
  (filename : option string) : outcome found :=
  scan filename (os_walk cwd fs).
End find_file.

(** * Specification-side definitions *)

(** ** Graphs as NetworkX keeps them *)

(** [G.edges(data=True)] *)
Definition edge_items (G : DiGraph) : list (Z * Z * edge_attrs) :=
  flat_map (fun un => map (fun va => (un.1, va.1, va.2)) un.2) (succ G).

(** The representation invariant of a NetworkX graph: dictionary keys are
    unique, every node has an adjacency entry, and edges end at nodes. *)
Definition wf_graph (G : DiGraph) : Prop :=
  NoDup (keys (succ G)) ∧
  Forall (fun un => NoDup (keys un.2)) (succ G) ∧
  keys (node G) = keys (succ G) ∧
  Forall (fun e => e.2 ∈ nodes G) (edges G).

(** What attribute updates leave alone: the graph attributes, the nodes
    and the adjacency structure. *)
Definition topology (G : DiGraph) : list (Z * list Z) :=
  map (fun un => (un.1, keys un.2)) (succ G).
Definition skeleton (G : DiGraph) : graph_attrs * odict Z node_attrs * list (Z * list Z) :=
  (graph G, node G, topology G).

(** The attributes of an edge, when it exists. *)
Definition edge_lookup (G : DiGraph) (e : Z * Z) : option edge_attrs :=
  nbrs ← od_get e.1 (succ G); od_get e.2 nbrs.

Definition radius_of (G : DiGraph) (e : Z * Z) : option float :=
  a ← edge_lookup G e; radius a.
Definition center_dist_of (G : DiGraph) (e : Z * Z) : option Z :=
  a ← edge_lookup G e; center_dist a.

(** ** Metrics *)

(** The running sum of a list of float terms: left to right from the
    [int] 0. *)
Definition py_sum (l : list scalar) : pynum :=
  fold_left (fun q x => py_add q (of_scalar x)) l (PyInt 0).

Definition flow_term (a : edge_attrs) : option scalar :=
  t ← inverse_transit_time a; v ← volume a; Some (scalar_mul t v).

(** The products [inverse_transit_time * volume] of the edges leaving [s],
    in edge order. *)
Definition source_flow_terms (s : Z) (G : DiGraph) : list scalar :=
  omap (fun i => if decide (i.1.1 = s) then flow_term i.2 else None)
       (edge_items G).

(** A graph after preparation, as the metric functions need it: the
    designated source is set and every edge carries a volume, an inverse
    transit time and an index. *)
Definition simulation_ready (G : DiGraph) : Prop :=
  wf_graph G ∧
  is_Some (g_source (graph G)) ∧
  Forall (fun i => is_Some (volume i.2) ∧ is_Some (inverse_transit_time i.2)
                   ∧ is_Some (idx i.2))
         (edge_items G).

(** ** Example graphs *)

(** A prepared chain 0 -> 1 -> 2 whose designated source is 0 and whose
    designated sink is 2; its volumes and inverse transit times are Python
    floats. *)
Definition chain_edge (r vol itt : float) (i : Z) : edge_attrs :=
  EdgeAttrs (Some 1%float) (Some r) (Some (py_float vol)) (Some (py_float itt))
            (Some i) None None None.
Definition chain3 : DiGraph :=
  MkDiGraph (GraphAttrs None None (Some 0) (Some 2))
    [ (0, NodeAttrs None (Some Source));
      (1, NodeAttrs None (Some Internal));
      (2, NodeAttrs None (Some Sink)) ]
    [ (0, [(1, chain_edge 1 2 3 0)]);
      (1, [(2, chain_edge 2 2 3 1)]);
      (2, []) ].

(** ** The tracer curve *)

(** The segment of the state vector [get_Wt] reads starts at [E], or at
    [2E] for liposomes. *)
Definition Wt_offset (G : DiGraph) (liposomes : bool) : Z :=
  if liposomes then 2 * Z.of_nat (length (edges G))
  else Z.of_nat (length (edges G)).

(** Volume and index of every edge, in edge order. *)
Definition Wt_terms (G : DiGraph) : list (float * Z) :=
  omap (fun i => v ← volume i.2; k ← idx i.2; Some (scalar_value v, k))
       (edge_items G).

(** The value at one time step, whose row of [soln] is [row]: the sum over
    the edges, left to right from 0.0, of [65 * volume * row[offset + idx]]. *)
Definition Wt_at (G : DiGraph) (liposomes : bool) (row : list float) : float :=
  fold_left
    (fun acc vk =>
       (acc + float_of_int 65 * vk.1
              * nth (Z.to_nat (Wt_offset G liposomes + vk.2)) row 0)%float)
    (Wt_terms G) 0%float.

(** Two time steps and a solution with four state entries each. *)
Definition times2 : list float := [0%float; 1%float].
Definition soln2 : ndarray2 :=
  NdArray2 4 [ [1; 2; 3; 4]%float; [5; 6; 7; 8]%float ].

(** ** Chains without flow *)

(** The prepared chain with a fluid at rest: every inverse transit time is
    zero.  In [stagnant_chain] the attributes are Python floats, in
    [stagnant_chain64] they are [numpy.float64] scalars. *)
Definition stagnant_chain : DiGraph :=
  MkDiGraph (GraphAttrs None None (Some 0) (Some 2))
    [ (0, NodeAttrs None (Some Source));
      (1, NodeAttrs None (Some Internal));
      (2, NodeAttrs None (Some Sink)) ]
    [ (0, [(1, chain_edge 1 2 0 0)]);
      (1, [(2, chain_edge 2 2 0 1)]);
      (2, []) ].

Definition chain_edge64 (r vol itt : float) (i : Z) : edge_attrs :=
  EdgeAttrs (Some 1%float) (Some r) (Some (np_float64 vol))
            (Some (np_float64 itt)) (Some i) None None None.
Definition stagnant_chain64 : DiGraph :=
  MkDiGraph (GraphAttrs None None (Some 0) (Some 2))
    [ (0, NodeAttrs None (Some Source));
      (1, NodeAttrs None (Some Internal));
      (2, NodeAttrs None (Some Sink)) ]
    [ (0, [(1, chain_edge64 1 2 0 0)]);
      (1, [(2, chain_edge64 2 2 0 1)]);
      (2, []) ].

(** The prepared chain with a vessel of unbounded volume. *)
Definition unbounded_chain : DiGraph :=
  MkDiGraph (GraphAttrs None None (Some 0) (Some 2))
    [ (0, NodeAttrs None (Some Source));
      (1, NodeAttrs None (Some Internal));
      (2, NodeAttrs None (Some Sink)) ]
    [ (0, [(1, chain_edge 1 infinity 3 0)]);
      (1, [(2, chain_edge 2 2 3 1)]);
      (2, []) ].

(** Two time steps and an all-zero solution with six state entries each. *)
Definition zero_soln2 : ndarray2 :=
  NdArray2 6 [ [0; 0; 0; 0; 0; 0]%float; [0; 0; 0; 0; 0; 0]%float ].

(** ** Distance ranking *)

(** The role tag of a node. *)
Definition role_of (G : DiGraph) (n : Z) : option role :=
  a ← od_get n (node G); ntype a.

Definition nodes_with_role (r : role) (G : DiGraph) : list Z :=
  filter (fun n => role_of G n = Some r) (nodes G).

(** [d] is the least distance from a source-role node to [u], taken over
    the source nodes that reach [u]; it is 0 when none does. *)
Definition nearest_source_dist (G : DiGraph) (u d : Z) : Prop :=
  (∃ s, s ∈ nodes_with_role Source G ∧ shortest_path_length G s u = Ok d ∧
        ∀ s' d', s' ∈ nodes_with_role Source G →
                 shortest_path_length G s' u = Ok d' → d ≤ d')
  ∨ (d = 0 ∧ ∀ s' d', s' ∈ nodes_with_role Source G →
                      shortest_path_length G s' u ≠ Ok d').

(** [d] is the least distance from [v] to a sink-role node it reaches; it
    is 0 when it reaches none. *)
Definition nearest_sink_dist (G : DiGraph) (v d : Z) : Prop :=
  (∃ t, t ∈ nodes_with_role Sink G ∧ shortest_path_length G v t = Ok d ∧
        ∀ t' d', t' ∈ nodes_with_role Sink G →
                 shortest_path_length G v t' = Ok d' → d ≤ d')
  ∨ (d = 0 ∧ ∀ t' d', t' ∈ nodes_with_role Sink G →
                      shortest_path_length G v t' ≠ Ok d').

(** The distances of the queries that have a path, in query order. *)
Definition path_lengths (G : DiGraph) (queries : list (Z * Z)) : list Z :=
  omap (fun q => match shortest_path_length G q.1 q.2 with
                 | Ok d => Some d
                 | Raise _ => None
                 end) queries.

(** The three attributes the ranking writes on the edge [e]. *)
Definition ranked (G : DiGraph) (e : Z * Z) (a : edge_attrs) : edge_attrs :=
  let sd := min_or_zero
              (path_lengths G (map (fun s => (s, e.1)) (nodes_with_role Source G))) in
  let kd := min_or_zero
              (path_lengths G (map (fun t => (e.2, t)) (nodes_with_role Sink G))) in
  set_center_dist (Z.abs (sd - kd)) (set_sink_dist kd (set_src_dist sd a)).

(** ** Radius-ordering passes as functions on radius assignments *)

(** A radius assignment: the radius of each edge, when it has one. *)
Abbreviation radii := (Z * Z → option float).

Definition set_radius_at (rho : radii) (e : Z * Z) (r : option float) : radii :=
  fun e' => if decide (e' = e) then r else rho e'.

(** Exchange the radii of [e1] and [e2]. *)
Definition swap_radii (rho : radii) (e1 e2 : Z * Z) : radii :=
  set_radius_at (set_radius_at rho e1 (rho e2)) e2 (rho e1).

(** One visit of the repair pass to the ordered pair [(e1, e2)]: nothing
    happens when the two edges leave the same node; otherwise the radii are
    exchanged when [e1] has the strictly greater [center_dist] and the
    strictly smaller radius. *)
Definition repair_visit (cd : Z * Z → option Z) (rho : radii)
  (p : (Z * Z) * (Z * Z)) : radii :=
  match cd p.1, cd p.2, rho p.1, rho p.2 with
  | Some c1, Some c2, Some r1, Some r2 =>
      if bool_decide (p.1.1 ≠ p.2.1) && bool_decide (c1 > c2) && (r1 <? r2)%float
      then swap_radii rho p.1 p.2
      else rho
  | _, _, _, _ => rho
  end.

(** One sweep visits every ordered pair of edges, first component outermost. *)
Definition repair_sweep (cd : Z * Z → option Z) (es : list (Z * Z))
  (rho : radii) : radii :=
  fold_left (repair_visit cd) (list_prod es es) rho.

(** [radii_iters] sweeps; none when [radii_iters <= 0]. *)
Definition repair_sweeps (cd : Z * Z → option Z) (es : list (Z * Z))
  (radii_iters : Z) (rho : radii) : radii :=
  Nat.iter (Z.to_nat radii_iters) (repair_sweep cd es) rho.

(** The central difference of an edge, when it is defined. *)
Definition central_difference_of (G : DiGraph) (e : Z * Z) : option Z :=
  match central_difference G e with
  | Ok c => Some c
  | Raise _ => None
  end.

(** The partner [make_switches] picks for [e1], whose central difference is
    [c1] and whose radius is [r1]: the first edge, in edge order, that
    leaves another node and enters another node than [e1], has a strictly
    greater central difference and a strictly smaller radius. *)
Definition switch_candidate (cd : Z * Z → option Z) (rho : radii)
  (e1 : Z * Z) (c1 : Z) (r1 : float) (e2 : Z * Z) : bool :=
  match cd e2, rho e2 with
  | Some c2, Some r2 =>
      bool_decide (e1.1 ≠ e2.1) && bool_decide (e1.2 ≠ e2.2)
      && (c1 <? c2) && (r2 <? r1)%float
  | _, _ => false
  end.

Definition switch_visit (cd : Z * Z → option Z) (es : list (Z * Z))
  (rho : radii) (e1 : Z * Z) : radii :=
  match cd e1, rho e1 with
  | Some c1, Some r1 =>
      match List.find (switch_candidate cd rho e1 c1 r1) es with
      | Some e2 => swap_radii rho e1 e2
      | None => rho
      end
  | _, _ => rho
  end.

(** The single pass of [make_switches]. *)
Definition switch_pass (cd : Z * Z → option Z) (es : list (Z * Z))
  (rho : radii) : radii :=
  fold_left (switch_visit cd es) es rho.

(** Two edges share an endpoint. *)
Definition share_endpoint (e1 e2 : Z * Z) : Prop :=
  e1.1 = e2.1 ∨ e1.1 = e2.2 ∨ e1.2 = e2.1 ∨ e1.2 = e2.2.

(** ** The central difference as specified

    The specification measures the first distance from the source endpoint
    of the edge and the second from its sink endpoint, as the docstring of
    [central_difference] does for the second ("from e2 to sink"), and falls
    back to the path from the anchor to the other endpoint.  The helper
    below is [dist_edge_node] with the endpoint to measure from made
    explicit. *)
Definition dist_endpoint_node (G : DiGraph) (endpoint other n : Z) : result Z :=
  match shortest_path_length G endpoint n with
  | Raise NetworkXNoPath => shortest_path_length G n other
  | r => r
  end.

Definition central_difference_spec (G : DiGraph) (edge : Z * Z)
  : result Z :=
  s ← attr (g_source (graph G));
  d1 ← dist_endpoint_node G edge.1 edge.2 s;
  t ← attr (g_sink (graph G));
  d2 ← dist_endpoint_node G edge.2 edge.1 t;
  Ok (Z.abs (d1 - d2)).

(** ** A run of the random branch on the lattice of resolution 2 *)

(** Twelve draws, one per edge in edge order. *)
Definition twelve_draws : list float :=
  [2; 2; 1.75; 1; 2; 1.5; 1; 2; 2; 1; 2; 2]%float.
Definition draw_from (draws : list float) (k : nat) (alpha : Z) (beta : float)
  : float := nth k draws 1%float.

(** The lattice of resolution 2 after ranking and after the draws. *)
Definition drawn_lattice2 : result DiGraph :=
  G ← build_lattice 2;
  G ← assign_distances_from_source_and_sink_nodes G;
  assign_random_radii (draw_from twelve_draws) (fun x => (1 / x)%float) 2 G.

(** A graph [G1] met during a radius-ordering pass over [G]: it differs
    from [G] in radii only, and these are [rho]. *)
Definition radii_state (G G1 : DiGraph) (rho : radii) : Prop :=
  skeleton G1 = skeleton G ∧
  (∀ e, center_dist_of G1 e = center_dist_of G e) ∧
  (∀ e, radius_of G1 e = rho e) ∧
  (∀ e, e ∈ edges G → is_Some (rho e)).

(** ** The lattice in closed form *)

(** The grid indices in the order the three nested loops visit them. *)
Definition coords (N : Z) : list grid_index :=
  flat_map
    (fun x => flat_map (fun y => map (fun z => (x, y, z)) (range N)) (range N))
    (range N).

(** The node id the counter gives to a grid point. *)
Definition node_id (N : Z) (c : grid_index) : Z :=
  c.1.1 * N * N + c.1.2 * N + c.2.

(** The positive-direction axis neighbours of a grid point, in the order
    x, y, z. *)
Definition forward_neighbours (N : Z) (c : grid_index) : list grid_index :=
  (if decide (c.1.1 < N - 1) then [(c.1.1 + 1, c.1.2, c.2)] else [])
  ++ (if decide (c.1.2 < N - 1) then [(c.1.1, c.1.2 + 1, c.2)] else [])
  ++ (if decide (c.2 < N - 1) then [(c.1.1, c.1.2, c.2 + 1)] else []).

(** The role of a grid point once the faces are marked: the checkerboard
    of the face z = N - 1 is sink, that of the face z = 0 is source. *)
Definition grid_role (N : Z) (c : grid_index) : role :=
  if decide (c.1.2 mod 2 = c.1.1 mod 2) then
    if decide (c.2 = N - 1) then Sink
    else if decide (c.2 = 0) then Source
    else Internal
  else Internal.

(** The attributes of a lattice node. *)
Definition grid_node_attrs (N : Z) (delta : float) (r : role) (c : grid_index)
  : node_attrs :=
  NodeAttrs (Some (node_pos delta c)) (Some r).

(** The adjacency entry of a grid point with its forward edges. *)
Definition grid_adjacency (N : Z) (c : grid_index)
  : Z * odict Z edge_attrs :=
  (node_id N c,
   map (fun c' => (node_id N c', no_edge_attrs)) (forward_neighbours N c)).

(** The graph after lines 143 to 171, for grid spacing [delta]. *)
Definition grid_graph (N : Z) (delta : float) : DiGraph :=
  MkDiGraph (GraphAttrs (Some N) (Some delta) None None)
    (map (fun c => (node_id N c, grid_node_attrs N delta Internal c)) (coords N))
    (map (grid_adjacency N) (coords N)).

(** Two grid points are neighbours along one axis. *)
Definition axis_neighbours (c c' : grid_index) : Prop :=
  c' = (c.1.1 + 1, c.1.2, c.2) ∨ c' = (c.1.1, c.1.2 + 1, c.2)
  ∨ c' = (c.1.1, c.1.2, c.2 + 1).

(** The dictionary [vd] once the node loop is over. *)
Definition grid_vd (N : Z) : gmap grid_index Z :=
  fold_left (fun vd c => <[c := node_id N c]> vd) (coords N) ∅.

(** The graph after the node loop: every node is there, no edge yet. *)
Definition bare_grid_graph (N : Z) (delta : float) : DiGraph :=
  MkDiGraph (GraphAttrs (Some N) (Some delta) None None)
    (map (fun c => (node_id N c, grid_node_attrs N delta Internal c)) (coords N))
    (map (fun c => (node_id N c, [])) (coords N)).

(** The lattice after the faces are marked: the nodes carry their roles,
    the edges are still the forward edges. *)
Definition marked_nodes (N : Z) (delta : float) (marked : list (Z * Z))
  : odict Z node_attrs :=
  map (fun c =>
         (node_id N c,
          grid_node_attrs N delta
            (if decide ((c.1.1, c.1.2) ∈ marked) then grid_role N c else Internal)
            c))
      (coords N).

Definition face_indices (N : Z) : list (Z * Z) :=
  flat_map (fun x => map (pair x) (range N)) (range N).

Definition marked_grid_graph (N : Z) (delta : float) : DiGraph :=
  MkDiGraph (GraphAttrs (Some N) (Some delta) None None)
    (marked_nodes N delta (face_indices N))
    (map (grid_adjacency N) (coords N)).

(** Sum of an integer-valued function over a list. *)
Definition sumZ {A : Type} (f : A → Z) (l : list A) : Z :=
  fold_right (fun a acc => f a + acc) 0 l.

(** The edges an adjacency dictionary holds. *)
Definition adj_edges (d : odict Z (odict Z edge_attrs)) : list (Z * Z) :=
  flat_map (fun un => map (pair un.1) (keys un.2)) d.

(** The direction rule: an edge does not leave a sink-role node and does
    not enter a source-role node. *)
Definition well_directed (G : DiGraph) (e : Z * Z) : Prop :=
  role_of G e.1 ≠ Some Sink ∧ role_of G e.2 ≠ Some Source.

(** No edge joins two source-role nodes or two sink-role nodes. *)
Definition roles_alternate (G : DiGraph) : Prop :=
  ∀ e, e ∈ edges G →
       ¬ (role_of G e.1 = Some Source ∧ role_of G e.2 = Some Source) ∧
       ¬ (role_of G e.1 = Some Sink ∧ role_of G e.2 = Some Sink).

(** The graph met in the direction loop over the edge list [l] of [G0],
    once the edges [done_] have been visited. *)
Definition directing (G0 : DiGraph) (l done_ : list (Z * Z)) (G : DiGraph)
  : Prop :=
  wf_graph G ∧ node G = node G0 ∧ graph G = graph G0 ∧
  (∀ e, e ∈ l → e ∉ done_ → e ∈ edges G) ∧
  (∀ e, e ∈ edges G →
        (e ∈ l ∧ e ∉ done_)
        ∨ (well_directed G0 e ∧ (e ∈ l ∨ (e.2, e.1) ∈ l))) ∧
  (length (edges G) ≤ length l)%nat.

(** ** Directed walks *)

(** [walk G s t k]: there is a directed walk of [k] edges from [s] to [t]. *)
Inductive walk (G : DiGraph) (s : Z) : Z → nat → Prop :=
| walk_here : walk G s s 0
| walk_step w t k : walk G s w k → t ∈ successors G w → walk G s t (S k).

(** [d] is the number of edges of a shortest directed path from [s] to [t]. *)
Definition distance (G : DiGraph) (s t : Z) (d : nat) : Prop :=
  walk G s t d ∧ ∀ k, walk G s t k → (d ≤ k)%nat.

(** [d] is the least number of edges of a directed walk from a source-role
    node to [u], over the source nodes from which [u] can be reached; it
    is 0 when [u] can be reached from none. *)
Definition least_source_distance (G : DiGraph) (u d : Z) : Prop :=
  (∃ s, s ∈ nodes_with_role Source G ∧ 0 ≤ d ∧ walk G s u (Z.to_nat d) ∧
        ∀ s' k, s' ∈ nodes_with_role Source G → walk G s' u k → d ≤ Z.of_nat k)
  ∨ (d = 0 ∧ ∀ s' k, s' ∈ nodes_with_role Source G → ¬ walk G s' u k).

(** [d] is the least number of edges of a directed walk from [v] to a
    sink-role node; it is 0 when [v] reaches none. *)
Definition least_sink_distance (G : DiGraph) (v d : Z) : Prop :=
  (∃ t, t ∈ nodes_with_role Sink G ∧ 0 ≤ d ∧ walk G v t (Z.to_nat d) ∧
        ∀ t' k, t' ∈ nodes_with_role Sink G → walk G v t' k → d ≤ Z.of_nat k)
  ∨ (d = 0 ∧ ∀ t' k, t' ∈ nodes_with_role Sink G → ¬ walk G v t' k).

(** The direction rule on a whole graph: both endpoints of every edge
    carry a role, the tail's is not sink and the head's is not source. *)
Definition direction_rule (G : DiGraph) : Prop :=
  ∀ u v, (u, v) ∈ edges G →
         ∃ ru rv, role_of G u = Some ru ∧ role_of G v = Some rv ∧
                  ru ≠ Sink ∧ rv ≠ Source.

(** ** File lookup *)

(** [f] occurs in [name]. *)
Definition substring_of (f name : string) : Prop :=
  ∃ pre post, name = pre +:+ f +:+ post.

Section find_file_spec.
Variable path_join : string → string → string.

(** [listed top t root name]: walking the directory [t], whose path is
    [top], [os.walk] lists an entry called [name] in the directory of path
    [root]. *)
Inductive listed : string → dir_tree → string → string → Prop :=
| listed_file top nondirs dirs name :
    name ∈ nondirs → listed top (DirTree nondirs dirs) top name
| listed_dir top nondirs dirs name sub :
    (name, sub) ∈ dirs → listed top (DirTree nondirs dirs) top name
| listed_below top nondirs dirs d sub root name :
    (d, sub) ∈ dirs → listed (path_join top d) sub root name →
    listed top (DirTree nondirs dirs) root name.

(** The answer a directory's own entries give: the first file whose name
    holds [f], else the first directory whose name does. *)
Definition own_match (f top : string) (nondirs : list string)
  (dirs : list (string * dir_tree)) : outcome found :=
  match List.find (str_contains f) nondirs with
  | Some name => Return (Path (path_join top name))
  | None =>
      match List.find (str_contains f) (map fst dirs) with
      | Some name => Return (Path (path_join top name))
      | None => Return FileNotFoundError_class
      end
  end.

(** The first answer that is not "not found". *)
Definition or_else (r rest : outcome found) : outcome found :=
  match r with
  | Return FileNotFoundError_class => rest
  | _ => r
  end.
End find_file_spec.

Section find_file_answers.
Variable path_join : string → string → string.

(** [r] is the right answer to the search for [f] among the entries [S]
    (pairs of a directory path and an entry name): the path of an entry
    whose name holds [f], or "not found" when no name does. *)
Definition answers (f : string) (S : string → string → Prop)
  (r : outcome found) : Prop :=
  (∃ root name, S root name ∧ substring_of f name
                ∧ r = Return (Path (path_join root name)))
  ∨ (r = Return FileNotFoundError_class
     ∧ ∀ root name, S root name → ¬ substring_of f name).
End find_file_answers.

(** ** Sums over the edges *)

(** Python's running sum of floats that starts from [0.0]. *)
Definition float_sum (l : list float) : float :=
  fold_left PrimFloat.add l 0%float.

(** The term an edge adds to the surface area: [radius * length]. *)
Definition area_term (a : edge_attrs) : option float :=
  r ← radius a; l ← length_ a; Some (r * l)%float.

(** The term an edge adds to the volume, [radius ** 2 * length * pi], or
    the exception met on the way to it: [KeyError] for a missing radius,
    then what [** 2] raises, then [KeyError] for a missing length. *)
Definition volume_term (float_pow2 : float → result float) (a : edge_attrs)
  : result float :=
  r ← attr (radius a); r2 ← float_pow2 r; l ← attr (length_ a);
  Ok (r2 * l * np_pi)%float.

(** The value of a term that is one. *)
Definition returned {A : Type} (t : result A) : option A :=
  match t with
  | Ok x => Some x
  | Raise _ => None
  end.

(** [x ** 2] on a Python float, with the correctly rounded square for the
    library's [pow(x, 2.0)]: [OverflowError] when the square of a finite
    number overflows. *)
Definition python_pow2 (x : float) : result float :=
  if is_finite x && is_infinity (x * x) then Raise OverflowError
  else Ok (x * x)%float.

(** The prepared chain with a first vessel of radius 2^600, a Python
    float whose square overflows. *)
Definition wide_chain : DiGraph :=
  MkDiGraph (GraphAttrs None None (Some 0) (Some 2))
    [ (0, NodeAttrs None (Some Source));
      (1, NodeAttrs None (Some Internal));
      (2, NodeAttrs None (Some Sink)) ]
    [ (0, [(1, chain_edge 0x1p+600 2 3 0)]);
      (1, [(2, chain_edge 2 2 3 1)]);
      (2, []) ].

(** An edge carries a radius and a length. *)
Definition has_geometry (i : Z * Z * edge_attrs) : Prop :=
  is_Some (radius i.2) ∧ is_Some (length_ i.2).

(** ** Exchanges of radii as transpositions *)

(** The transposition of the edges [e1] and [e2]. *)
Definition transpose (e1 e2 e : Z * Z) : Z * Z :=
  if decide (e = e2) then e1 else if decide (e = e1) then e2 else e.

(** The prepared chain once its two radii are exchanged. *)
Definition chain3_switched : DiGraph :=
  MkDiGraph (GraphAttrs None None (Some 0) (Some 2))
    [ (0, NodeAttrs None (Some Source));
      (1, NodeAttrs None (Some Internal));
      (2, NodeAttrs None (Some Sink)) ]
    [ (0, [(1, chain_edge 2 2 3 0)]);
      (1, [(2, chain_edge 1 2 3 1)]);
      (2, []) ].

(** ** The central difference in terms of walks *)

(** The distance [dist_edge_node] gives between the edge [e] and the
    anchor node [n]: that from the source endpoint of [e] to [n] when [n]
    can be reached from it, and otherwise that from [n] to the sink
    endpoint of [e]. *)
Definition anchor_distance (G : DiGraph) (e : Z * Z) (n d : Z) : Prop :=
  0 ≤ d ∧
  (distance G e.1 n (Z.to_nat d)
   ∨ ((∀ k, ¬ walk G e.1 n k) ∧ distance G n e.2 (Z.to_nat d))).

(** Neither is there a walk from the source endpoint of [e] to [n], nor one
    from [n] to the sink endpoint of [e]. *)
Definition cut_off (G : DiGraph) (e : Z * Z) (n : Z) : Prop :=
  (∀ k, ¬ walk G e.1 n k) ∧ (∀ k, ¬ walk G n e.2 k).

(** ** Graphs without roles *)

(** Two nodes created by [G.add_edge(0, 1)]: they carry no attribute. *)
Definition bare_edge_graph : DiGraph := add_edge 0 1 empty_graph.

(** ** Column indices *)

(** [j] is a column index [numpy] accepts for [soln]: negative indices
    count from the last column. *)
Definition valid_column (soln : ndarray2) (j : Z) : Prop :=
  - ncols soln ≤ j < ncols soln.

(** ** The direction loop, edge by edge *)

(** What the direction loop does to one edge: it is turned around when it
    enters a source-role node or leaves a sink-role node, and kept
    otherwise. *)
Definition orient (G : DiGraph) (e : Z * Z) : Z * Z :=
  if decide (role_of G e.2 = Some Source ∨ role_of G e.1 = Some Sink)
  then (e.2, e.1) else e.

(** The graph met in the direction loop over the edges of [G0] once the
    edges [done_] have been visited: these are oriented, the others are as
    they were. *)
Definition orienting (G0 : DiGraph) (done_ : list (Z * Z)) (G : DiGraph)
  : Prop :=
  wf_graph G ∧ node G = node G0 ∧
  ∀ e, e ∈ edges G
       ↔ (e ∈ edges G0 ∧ e ∉ done_) ∨ ∃ e0, e0 ∈ done_ ∧ e = orient G0 e0.

(** * Properties *)

(** ** The exception monad and loops *)

Lemma for_each_app {A S : Type} (l1 l2 : list A) (body : A → S → result S) s :
  for_each (l1 ++ l2) body s = (for_each l1 body s ≫= for_each l2 body).
Proof.
  revert s. induction l1 as [|a l1 IH]; intros s; simpl; [reflexivity|].
  destruct (body a s) as [s'|e]; simpl; [apply IH | reflexivity].
Qed.

Lemma for_each_map {A B S : Type} (f : A → B) (l : list A)
  (body : B → S → result S) s :
  for_each (map f l) body s = for_each l (fun a => body (f a)) s.
Proof.
  revert s. induction l as [|a l IH]; intros s; simpl; [reflexivity|].
  destruct (body (f a) s); simpl; [apply IH | reflexivity].
Qed.

Lemma for_each_flat_map {A B S : Type} (g : A → list B) (l : list A)
  (body : B → S → result S) s :
  for_each (flat_map g l) body s
  = for_each l (fun a s => for_each (g a) body s) s.
Proof.
  revert s. induction l as [|a l IH]; intros s; simpl; [reflexivity|].
  rewrite for_each_app.
  destruct (for_each (g a) body s); simpl; [apply IH | reflexivity].
Qed.

Lemma for_each_ext {A S : Type} (l : list A) (f g : A → S → result S) s :
  (∀ a s, a ∈ l → f a s = g a s) → for_each l f s = for_each l g s.
Proof.
  revert s. induction l as [|a l IH]; intros s H; simpl; [reflexivity|].
  rewrite (H a s) by left.
  destruct (g a s); simpl; [|reflexivity].
  apply IH. intros; apply H; by right.
Qed.

(** ** Dictionaries *)

Section odict_facts.
Context {K V : Type} `{EqDecision K}.
Implicit Types (d : odict K V) (k : K) (v : V).

Lemma od_get_Some_elem d k v : od_get k d = Some v → (k, v) ∈ d.
Proof.
  induction d as [|[k' v'] d IH]; simpl; [done|].
  case_decide; [intros [= ->]; subst; left | intros; right; auto].
Qed.

Lemma od_get_None d k : od_get k d = None ↔ k ∉ keys d.
Proof.
  unfold keys. induction d as [|[k' v'] d IH]; simpl.
  - split; [intros _; apply not_elem_of_nil | done].
  - rewrite not_elem_of_cons. destruct (decide (k = k')); [naive_solver | tauto].
Qed.

Lemma od_get_is_Some d k : is_Some (od_get k d) ↔ k ∈ keys d.
Proof.
  rewrite <- not_eq_None_Some, od_get_None.
  destruct (decide (k ∈ keys d)); tauto.
Qed.

Lemma od_get_elem d k v : NoDup (keys d) → (k, v) ∈ d → od_get k d = Some v.
Proof.
  unfold keys. induction d as [|[k' v'] d IH]; simpl; intros Hnd Hin.
  - by apply elem_of_nil in Hin.
  - apply NoDup_cons in Hnd as [Hk Hnd].
    apply elem_of_cons in Hin as [[= -> ->]|Hin].
    + by rewrite decide_True.
    + case_decide; [subst|by auto].
      destruct Hk. apply list_elem_of_fmap. by exists (k', v).
Qed.

Lemma od_get_set d k k' v :
  od_get k (od_set k' v d) = if decide (k = k') then Some v else od_get k d.
Proof.
  induction d as [|[k1 v1] d IH]; simpl.
  - by repeat case_decide.
  - destruct (decide (k' = k1)) as [->|Hne]; simpl.
    + by destruct (decide (k = k1)).
    + destruct (decide (k = k1)) as [->|?]; [by rewrite decide_False|done].
Qed.

Lemma keys_od_set_in d k v : k ∈ keys d → keys (od_set k v d) = keys d.
Proof.
  unfold keys. induction d as [|[k1 v1] d IH]; simpl; intros Hin.
  - by apply elem_of_nil in Hin.
  - case_decide; subst; simpl; [done|].
    apply elem_of_cons in Hin as [|Hin]; [done|]. f_equal. by apply IH.
Qed.

Lemma keys_od_set_notin d k v : k ∉ keys d → od_set k v d = d ++ [(k, v)].
Proof.
  unfold keys. induction d as [|[k1 v1] d IH]; simpl; intros Hin; [done|].
  apply not_elem_of_cons in Hin as [? ?].
  rewrite decide_False by done. by rewrite IH.
Qed.

Lemma od_set_same d k v : od_get k d = Some v → od_set k v d = d.
Proof.
  induction d as [|[k1 v1] d IH]; simpl; [done|].
  case_decide; subst; [by intros [= ->] | intros; by rewrite IH].
Qed.

Lemma elem_of_keys_od_set d k k' v :
  k ∈ keys (od_set k' v d) ↔ k = k' ∨ k ∈ keys d.
Proof.
  rewrite <- !od_get_is_Some, od_get_set.
  case_decide; subst; [split; eauto | naive_solver].
Qed.

Lemma NoDup_keys_od_set d k v : NoDup (keys d) → NoDup (keys (od_set k v d)).
Proof.
  intros Hnd. destruct (decide (k ∈ keys d)) as [Hin|Hin].
  - by rewrite keys_od_set_in.
  - rewrite keys_od_set_notin by done. unfold keys in *.
    rewrite fmap_app. apply NoDup_app. split_and!; [done| |apply NoDup_singleton].
    intros x Hx [->|[]%elem_of_nil]%elem_of_cons. done.
Qed.

Lemma elem_of_keys_od_del d k k' :
  NoDup (keys d) → k ∈ keys (od_del k' d) ↔ k ≠ k' ∧ k ∈ keys d.
Proof.
  unfold keys. induction d as [|[k1 v1] d IH]; simpl; intros Hnd.
  - rewrite elem_of_nil. tauto.
  - apply NoDup_cons in Hnd as [Hk Hnd]. case_decide; subst; simpl.
    + rewrite elem_of_cons. split; [|naive_solver].
      intros Hin. split; [intros ->; done | by right].
    + rewrite !elem_of_cons, IH by done. naive_solver.
Qed.

Lemma NoDup_keys_od_del d k : NoDup (keys d) → NoDup (keys (od_del k d)).
Proof.
  unfold keys. induction d as [|[k1 v1] d IH]; simpl; intros Hnd; [done|].
  apply NoDup_cons in Hnd as [Hk Hnd]. case_decide; subst; simpl; [done|].
  apply NoDup_cons. split; [|by auto].
  intros Hin. apply (elem_of_keys_od_del d k1 k Hnd) in Hin. tauto.
Qed.

Lemma length_od_del d k : k ∈ keys d → S (length (od_del k d)) = length d.
Proof.
  unfold keys. induction d as [|[k1 v1] d IH]; simpl; intros Hin.
  - by apply elem_of_nil in Hin.
  - case_decide; subst; simpl; [done|].
    apply elem_of_cons in Hin as [|Hin]; [done|]. by rewrite IH.
Qed.

End odict_facts.

Lemma od_set_map_same {K V B : Type} `{EqDecision K} (g : K * V → B)
  (d : odict K V) k v v0 :
  od_get k d = Some v0 → g (k, v) = g (k, v0) → map g (od_set k v d) = map g d.
Proof.
  intros Hget Hg. induction d as [|[k1 v1] d IH]; simpl in *; [done|].
  destruct (decide (k = k1)) as [->|Hne]; simpl.
  - injection Hget as ->. by rewrite Hg.
  - f_equal. by apply IH.
Qed.

Lemma od_get_map_values {K V W : Type} `{EqDecision K} (h : V → W)
  (d : odict K V) k :
  od_get k (map (fun kv => (kv.1, h kv.2)) d) = h <$> od_get k d.
Proof.
  induction d as [|[k1 v1] d IH]; simpl; [done|].
  by destruct (decide (k = k1)).
Qed.

(** ** Graphs: what depends on the skeleton only *)

Lemma keys_topology G : keys (topology G) = keys (succ G).
Proof.
  unfold topology, keys. rewrite <- list_fmap_compose. by apply list_fmap_ext.
Qed.

Lemma edges_topology G :
  edges G = flat_map (fun un => map (pair un.1) un.2) (topology G).
Proof.
  unfold edges, topology. induction (succ G) as [|[u nbrs] d IH]; simpl; [done|].
  by rewrite IH.
Qed.

Lemma successors_topology G u :
  successors G u = default [] (od_get u (topology G)).
Proof.
  unfold successors, topology.
  rewrite (od_get_map_values keys). by destruct (od_get u (succ G)).
Qed.

Lemma Forall_topology G :
  Forall (fun un => NoDup (keys un.2)) (succ G)
  ↔ Forall (fun un => NoDup un.2) (topology G).
Proof. unfold topology. by rewrite Forall_fmap. Qed.

Section skeleton.
Context (G G' : DiGraph) (Hsk : skeleton G' = skeleton G).

Lemma skeleton_graph : graph G' = graph G.
Proof using Hsk. by injection Hsk. Qed.
Lemma skeleton_node : node G' = node G.
Proof using Hsk. by injection Hsk. Qed.
Lemma skeleton_topology : topology G' = topology G.
Proof using Hsk. by injection Hsk. Qed.
Lemma skeleton_nodes : nodes G' = nodes G.
Proof using Hsk. unfold nodes. by rewrite skeleton_node. Qed.
Lemma skeleton_edges : edges G' = edges G.
Proof using Hsk. by rewrite !edges_topology, skeleton_topology. Qed.
Lemma skeleton_successors u : successors G' u = successors G u.
Proof using Hsk. by rewrite !successors_topology, skeleton_topology. Qed.

Lemma skeleton_next_level l : next_level G' l = next_level G l.
Proof using Hsk.
  unfold next_level. f_equal. induction l as [|u l IH]; simpl; [done|].
  by rewrite IH, skeleton_successors.
Qed.

Lemma skeleton_first_level fuel l t d :
  first_level G' fuel l t d = first_level G fuel l t d.
Proof using Hsk.
  revert l d. induction fuel as [|fuel IH]; intros l d; simpl; [done|].
  by rewrite IH, skeleton_next_level.
Qed.

Lemma skeleton_shortest_path_length s t :
  shortest_path_length G' s t = shortest_path_length G s t.
Proof using Hsk.
  unfold shortest_path_length, has_node.
  by rewrite skeleton_nodes, skeleton_first_level.
Qed.

Lemma skeleton_wf : wf_graph G → wf_graph G'.
Proof using Hsk.
  unfold wf_graph. rewrite !Forall_topology, <- !keys_topology.
  unfold nodes. by rewrite skeleton_edges, skeleton_node, skeleton_topology.
Qed.
End skeleton.

(** ** Graphs: edges and their attributes *)

Lemma edges_edge_items G :
  edges G = map (fun i => (i.1.1, i.1.2)) (edge_items G).
Proof.
  unfold edges, edge_items, keys.
  induction (succ G) as [|[u nbrs] d IH]; simpl; [done|].
  rewrite map_app, IH. f_equal.
  rewrite map_map. induction nbrs as [|[v a] nbrs IHn]; simpl; [done|]. by rewrite <- IHn.
Qed.

Lemma edge_data_lookup G u v :
  edge_data G u v = attr (edge_lookup G (u, v)).
Proof.
  unfold edge_data, edge_lookup, getitem; simpl.
  destruct (od_get u (succ G)) as [nbrs|]; simpl; [|done].
  by destruct (od_get v nbrs).
Qed.

Lemma edge_lookup_elem G e : is_Some (edge_lookup G e) → e ∈ edges G.
Proof.
  destruct e as [u v]. unfold edge_lookup; simpl. intros [a Ha].
  destruct (od_get u (succ G)) as [nbrs|] eqn:Hu; simpl in Ha; [|done].
  apply od_get_Some_elem in Hu. unfold edges.
  apply list_elem_of_In, in_flat_map. exists (u, nbrs).
  split; [by apply list_elem_of_In|]. simpl.
  apply list_elem_of_In, list_elem_of_fmap. exists v. split; [done|].
  apply od_get_is_Some. eauto.
Qed.

Lemma edge_item_lookup G u v a :
  wf_graph G → (u, v, a) ∈ edge_items G → edge_lookup G (u, v) = Some a.
Proof.
  intros (Hnd & Hin & _) Hi. unfold edge_items in Hi.
  apply list_elem_of_In, in_flat_map in Hi as ([u' nbrs] & Hun & Hva).
  apply list_elem_of_In in Hun. simpl in Hva.
  apply list_elem_of_In, list_elem_of_fmap in Hva as ([v' a'] & [= -> -> ->] & Hva).
  unfold edge_lookup; simpl.
  rewrite (od_get_elem _ _ _ Hnd Hun); simpl.
  apply od_get_elem; [|done].
  rewrite Forall_forall in Hin. apply (Hin _ Hun).
Qed.

Lemma elem_edges_lookup G e :
  wf_graph G → e ∈ edges G → is_Some (edge_lookup G e).
Proof.
  intros Hwf He. rewrite edges_edge_items in He.
  apply list_elem_of_fmap in He as ([[u v] a] & -> & Hi). simpl.
  rewrite (edge_item_lookup _ _ _ _ Hwf Hi). eauto.
Qed.

Lemma neighbour_is_edge G u nbrs b :
  od_get u (succ G) = Some nbrs → b ∈ keys nbrs → (u, b) ∈ edges G.
Proof.
  intros Hu Hb. apply edge_lookup_elem. unfold edge_lookup. simpl.
  rewrite Hu. simpl. by apply od_get_is_Some.
Qed.

(** The effect of [G[u][v][...] = ...]. *)
Lemma set_edge_data_spec f u v G a :
  edge_lookup G (u, v) = Some a →
  ∃ G', set_edge_data f u v G = Ok G' ∧ skeleton G' = skeleton G ∧
        ∀ e, edge_lookup G' e
             = if decide (e = (u, v)) then Some (f a) else edge_lookup G e.
Proof.
  unfold edge_lookup, set_edge_data, getitem; simpl. intros Ha.
  destruct (od_get u (succ G)) as [nbrs|] eqn:Hu; simpl in *; [|done].
  rewrite Ha. simpl. eexists. split; [done|]. split.
  - unfold skeleton, topology; simpl. f_equal.
    apply (od_set_map_same _ _ _ _ nbrs); [done|]. simpl. f_equal.
    apply keys_od_set_in, od_get_is_Some. eauto.
  - intros [u' v']; simpl. rewrite od_get_set.
    destruct (decide (u' = u)) as [->|Hne]; simpl.
    + rewrite od_get_set, Hu; simpl.
      destruct (decide (v' = v)) as [->|Hne].
      * by rewrite decide_True.
      * by rewrite decide_False by congruence.
    + by rewrite decide_False by congruence.
Qed.

(** ** Total flow and total resistance *)

Lemma total_flow_loop G s (l : list (Z * Z * edge_attrs)) q :
  g_source (graph G) = Some s →
  Forall (fun i => edge_lookup G (i.1.1, i.1.2) = Some i.2
                   ∧ is_Some (flow_term i.2)) l →
  for_each (map (fun i => (i.1.1, i.1.2)) l)
    (fun '(src, sink) q =>
       s ← attr (g_source (graph G));
       if decide (src = s) then
         a ← edge_data G src sink;
         t ← attr (inverse_transit_time a);
         v ← attr (volume a);
         Ok (py_add q (of_scalar (scalar_mul t v)))
       else Ok q) q
  = Ok (fold_left (fun q x => py_add q (of_scalar x))
          (omap (fun i => if decide (i.1.1 = s) then flow_term i.2 else None) l)
          q).
Proof.
  intros Hs Hl. rewrite Hs. revert q.
  induction Hl as [|[[u v] a] l [Ha [x Hx]] _ IH]; intros q; simpl in *; [done|].
  destruct (decide (u = s)) as [->|Hne].
  - rewrite edge_data_lookup, Ha; simpl. unfold flow_term in *.
    destruct (inverse_transit_time a) as [t|]; simpl in *; [|done].
    destruct (volume a) as [w|]; simpl in *; [|done].
    apply IH.
  - apply IH.
Qed.

Lemma simulation_ready_items G :
  simulation_ready G →
  Forall (fun i => edge_lookup G (i.1.1, i.1.2) = Some i.2
                   ∧ is_Some (flow_term i.2)) (edge_items G).
Proof.
  intros (Hwf & _ & Hall). rewrite Forall_forall in Hall |- *.
  intros [[u v] a] Hi. split; [by apply edge_item_lookup|].
  destruct (Hall _ Hi) as ([w Hw] & [t Ht] & _). simpl in *.
  unfold flow_term. rewrite Ht, Hw. simpl. eauto.
Qed.

(** The kind of a running sum: it is a [numpy.float64] exactly when it
    started as one or met a [numpy.float64] term. *)
Lemma py_add_float64 q x :
  (∃ f, py_add q (of_scalar x) = NpFloat64 f)
  ↔ (∃ f, q = NpFloat64 f) ∨ float64 x = true.
Proof.
  destruct x as [[|] x]; unfold of_scalar; simpl.
  - split; [by right|]. intros _. destruct q; by eexists.
  - destruct q as [z|g|g]; simpl.
    + split; [by intros [f [=]] | by intros [[f [=]]|[=]]].
    + split; [by intros [f [=]] | by intros [[f [=]]|[=]]].
    + split; [intros _; left; by eexists | intros _; by eexists].
Qed.

Lemma fold_float64 (l : list scalar) q :
  (∃ f, fold_left (fun q x => py_add q (of_scalar x)) l q = NpFloat64 f)
  ↔ (∃ f, q = NpFloat64 f) ∨ Exists (fun x => float64 x = true) l.
Proof.
  revert q. induction l as [|x l IH]; intros q; simpl.
  - split; [by left|]. by intros [?|?%Exists_nil].
  - rewrite IH, py_add_float64, Exists_cons. tauto.
Qed.

Lemma py_sum_float64 (l : list scalar) :
  (∃ f, py_sum l = NpFloat64 f) ↔ Exists (fun x => float64 x = true) l.
Proof.
  unfold py_sum. rewrite fold_float64. split; [|by right].
  by intros [[f [=]]|?].
Qed.

(** C8 (as amended).  On a simulation-ready graph whose designated source
    is [s], [total_flow] returns the running sum, from the integer 0, of
    [inverse_transit_time * volume] over exactly the edges leaving [s], and
    [total_resistance] returns [25 * 133.322387415] divided by that flow.
    What a zero flow does depends on the kind of number it is.  When the
    attributes of the edges leaving [s] are Python floats the flow is an
    [int] or a Python float, and [total_resistance] raises
    [ZeroDivisionError] when it is zero.  When one of them is a
    [numpy.float64] the flow is a [numpy.float64], the division is
    [numpy]'s and never raises: a zero flow gives an infinity (with a
    [RuntimeWarning]). *)
Theorem total_flow_total_resistance_spec (G : DiGraph) (s : Z) :
  simulation_ready G →
  g_source (graph G) = Some s →
  total_flow G = Ok (py_sum (source_flow_terms s G)) ∧
  (Forall (fun x => float64 x = false) (source_flow_terms s G) →
   total_resistance G
   = (if py_is_zero (py_sum (source_flow_terms s G))
      then Raise ZeroDivisionError
      else Ok (dp / to_float (py_sum (source_flow_terms s G)))%float)) ∧
  (Exists (fun x => float64 x = true) (source_flow_terms s G) →
   total_resistance G
   = Ok (dp / to_float (py_sum (source_flow_terms s G)))%float).
Proof.
  intros Hready Hs.
  assert (Hflow : total_flow G = Ok (py_sum (source_flow_terms s G))).
  { unfold total_flow. rewrite edges_edge_items.
    apply total_flow_loop; [done|]. by apply simulation_ready_items. }
  split; [done|]. unfold total_resistance. rewrite Hflow.
  cbn [mbind result_bind]. unfold py_truediv. split.
  - intros Hpy.
    destruct (py_sum (source_flow_terms s G)) as [z|f|f] eqn:Hq; [done..|].
    assert (Hex : Exists (fun x => float64 x = true) (source_flow_terms s G))
      by (apply py_sum_float64; eauto).
    apply Exists_exists in Hex as (x & Hx & Hx64).
    rewrite Forall_forall in Hpy. specialize (Hpy x Hx). congruence.
  - intros [f ->]%py_sum_float64. done.
Qed.

Lemma chain3_wf : wf_graph chain3.
Proof.
  unfold wf_graph. split_and!; by apply (bool_decide_unpack _).
Defined.

Lemma chain3_simulation_ready : simulation_ready chain3.
Proof.
  split; [apply chain3_wf|]. split; [by eexists|].
  repeat constructor; by eexists.
Defined.

Lemma stagnant_chain_ready : simulation_ready stagnant_chain.
Proof.
  split; [|split; [by eexists|repeat constructor; by eexists]].
  unfold wf_graph. split_and!; by apply (bool_decide_unpack _).
Qed.

Lemma stagnant_chain64_ready : simulation_ready stagnant_chain64.
Proof.
  split; [|split; [by eexists|repeat constructor; by eexists]].
  unfold wf_graph. split_and!; by apply (bool_decide_unpack _).
Qed.

Lemma total_flow_total_resistance_witness :
  simulation_ready stagnant_chain ∧ g_source (graph stagnant_chain) = Some 0 ∧
  Forall (fun x => float64 x = false) (source_flow_terms 0 stagnant_chain) ∧
  total_flow stagnant_chain = Ok (PyFloat 0) ∧
  total_resistance stagnant_chain = Raise ZeroDivisionError.
Proof.
  assert (Hpy : Forall (fun x => float64 x = false)
                       (source_flow_terms 0 stagnant_chain))
    by (by repeat constructor).
  destruct (total_flow_total_resistance_spec stagnant_chain 0
              stagnant_chain_ready eq_refl) as (Hflow & Hraise & _).
  split; [apply stagnant_chain_ready|]. split; [reflexivity|].
  split; [exact Hpy|]. split; [exact Hflow|]. exact (Hraise Hpy).
Defined.

(** C8 (as stated) fails.  In the prepared chain whose attributes are
    [numpy.float64] scalars and whose fluid is at rest, the flow is the
    [numpy.float64] zero, and [total_resistance] raises nothing: it
    returns an infinity. *)
Lemma zero_float64_flow_gives_infinity :
  simulation_ready stagnant_chain64 ∧
  g_source (graph stagnant_chain64) = Some 0 ∧
  total_flow stagnant_chain64 = Ok (NpFloat64 0) ∧
  total_resistance stagnant_chain64 = Ok infinity.
Proof.
  split; [apply stagnant_chain64_ready|]. split; [reflexivity|].
  split; vm_compute; reflexivity.
Qed.

(** ** The tracer curve [get_Wt] *)

Lemma zip_with_fst_id {A B : Type} (l : list A) (k : list B) :
  length l = length k → zip_with (fun a _ => a) l k = l.
Proof.
  revert k. induction l as [|a l IH]; intros [|b k]; simpl; try done.
  intros [= Hlen]. by rewrite IH.
Qed.

Lemma zip_with_zip_with_map {A B C D : Type} (f : A → B → D) (h : A → C → A)
  (g : B → C) (acc : list A) (rs : list B) :
  zip_with f (zip_with h acc (map g rs)) rs
  = zip_with (fun a r => f (h a (g r)) r) acc rs.
Proof.
  revert rs. induction acc as [|a acc IH]; intros [|r rs]; simpl; try done.
  by rewrite IH.
Qed.

Lemma zip_with_const_l {A B C D : Type} (f : A → B → C) (a : A) (l : list D)
  (k : list B) :
  length l = length k →
  zip_with f (map (fun _ => a) l) k = map (f a) k.
Proof.
  revert k. induction l as [|b l IH]; intros [|c k]; simpl; try done.
  intros [= Hlen]. by rewrite IH.
Qed.

Lemma column_in_range soln j :
  0 ≤ j < ncols soln →
  column soln j = Ok (map (fun r => nth (Z.to_nat j) r 0%float) (rows soln)).
Proof. intros Hj. unfold column. by rewrite decide_True. Qed.

Lemma iadd_same_length (Wt c : list float) :
  length c = length Wt → iadd Wt c = Ok (zip_with PrimFloat.add Wt c).
Proof. intros Hlen. unfold iadd. by rewrite decide_True. Qed.

Lemma get_Wt_loop G soln off (l : list (Z * Z * edge_attrs)) (acc : list float) :
  length acc = length (rows soln) →
  Forall (fun i => edge_lookup G (i.1.1, i.1.2) = Some i.2
                   ∧ ∃ v k, volume i.2 = Some v ∧ idx i.2 = Some k
                            ∧ 0 ≤ off + k < ncols soln) l →
  for_each (map (fun i => (i.1.1, i.1.2)) l)
    (fun '(src, sink) Wt =>
       a ← edge_data G src sink;
       v ← attr (volume a);
       a' ← edge_data G src sink;
       i ← attr (idx a');
       c ← column soln (off + i);
       iadd Wt (map (fun s => (float_of_int 65 * scalar_value v * s)%float) c)) acc
  = Ok (zip_with
          (fun a row =>
             fold_left
               (fun acc vk =>
                  (acc + float_of_int 65 * vk.1
                         * nth (Z.to_nat (off + vk.2)) row 0)%float)
               (omap (fun i => v ← volume i.2; k ← idx i.2; Some (scalar_value v, k)) l) a)
          acc (rows soln)).
Proof.
  intros Hlen Hl. revert acc Hlen.
  induction Hl as [|[[u w] a] l (Ha & v & k & Hv & Hk & Hrange) _ IH];
    intros acc Hlen; simpl in *.
  - by rewrite zip_with_fst_id.
  - rewrite edge_data_lookup, Ha; simpl. rewrite Hv, Hk; simpl.
    rewrite column_in_range by done. simpl.
    rewrite iadd_same_length by (by rewrite !length_map). simpl.
    rewrite IH by (rewrite length_zip_with, !length_map; lia).
    f_equal. rewrite map_map. by rewrite zip_with_zip_with_map.
Qed.

(** Multiplying a finite number by zero and adding it to zero gives zero. *)
Lemma float_zero_plus_finite_times_zero (x : float) :
  is_finite x = true → (0 + x * 0 = 0)%float.
Proof.
  intros Hfin. apply Prim2SF_inj.
  rewrite FloatAxioms.add_spec, FloatAxioms.mul_spec.
  unfold is_finite, is_nan, is_infinity in Hfin.
  rewrite !FloatAxioms.eqb_spec, FloatAxioms.abs_spec in Hfin.
  change (Prim2SF 0) with (S754_zero false).
  destruct (Prim2SF x) as [s|s| |s m e]; try done; by destruct s.
Qed.

Lemma Wt_all_zero G liposomes row :
  Forall (eq 0%float) row →
  Forall (fun vk => is_finite (float_of_int 65 * vk.1) = true) (Wt_terms G) →
  Wt_at G liposomes row = 0%float.
Proof.
  intros Hrow Hfin. unfold Wt_at.
  induction Hfin as [|[v k] l Hv _ IH]; simpl; [done|].
  replace (nth (Z.to_nat (Wt_offset G liposomes + k)) row 0%float)
    with 0%float.
  - by rewrite float_zero_plus_finite_times_zero.
  - destruct (nth_in_or_default (Z.to_nat (Wt_offset G liposomes + k)) row 0%float)
      as [Hin| ->]; [|done].
    rewrite Forall_forall in Hrow. apply Hrow. by apply list_elem_of_In.
Qed.

(** C9 (as amended).  On a simulation-ready graph, for a solution array
    with one row per time step and with the indexed columns in range,
    [get_Wt] returns an array as long as [times] whose entry for each time
    step is the sum over the edges of [65 * volume * soln[t, offset + idx]],
    with offset [E], or [2E] for liposomes.  On an all-zero solution the
    result is all zeros for both values of the flag, provided [65 * volume]
    is finite for every edge: an infinite or NaN volume times zero is
    NaN. *)
Theorem get_Wt_spec (G : DiGraph) (times : list float) (soln : ndarray2)
  (liposomes : bool) :
  simulation_ready G →
  length (rows soln) = length times →
  Forall (fun vk => 0 ≤ Wt_offset G liposomes + vk.2 < ncols soln) (Wt_terms G) →
  get_Wt G times soln liposomes = Ok (map (Wt_at G liposomes) (rows soln)) ∧
  length (map (Wt_at G liposomes) (rows soln)) = length times ∧
  (Forall (Forall (eq 0%float)) (rows soln) →
   Forall (fun vk => is_finite (float_of_int 65 * vk.1) = true) (Wt_terms G) →
   get_Wt G times soln liposomes = Ok (map (fun _ => 0%float) times)).
Proof.
  intros Hready Hlen Hrange.
  assert (Hrun : get_Wt G times soln liposomes
                 = Ok (map (Wt_at G liposomes) (rows soln))).
  { unfold get_Wt.
    transitivity
      (for_each (edges G)
         (fun '(src, sink) Wt =>
            a ← edge_data G src sink;
            v ← attr (volume a);
            a' ← edge_data G src sink;
            i ← attr (idx a');
            c ← column soln (Wt_offset G liposomes + i);
            iadd Wt (map (fun s => (float_of_int 65 * scalar_value v * s)%float) c))
         (map (fun _ => 0%float) times)).
    { apply for_each_ext. intros [src snk] Wt _. unfold Wt_offset.
      by destruct liposomes. }
    rewrite edges_edge_items.
    rewrite (get_Wt_loop G soln (Wt_offset G liposomes)).
    - f_equal. by rewrite zip_with_const_l.
    - by rewrite length_map.
    - destruct Hready as (Hwf & _ & Hall).
      unfold Wt_terms in Hrange. rewrite Forall_forall in Hall.
      rewrite Forall_forall in Hrange. rewrite Forall_forall.
      intros [[u w] a] Hi. split; [by apply edge_item_lookup|].
      destruct (Hall _ Hi) as ([v Hv] & _ & [k Hk]). simpl in *.
      exists v, k. split; [done|]. split; [done|].
      apply (Hrange (scalar_value v, k)). apply list_elem_of_omap.
      exists (u, w, a). split; [done|]. simpl. by rewrite Hv, Hk. }
  split; [done|]. split; [by rewrite length_map|].
  intros Hzero Hfin. rewrite Hrun. f_equal.
  clear Hrun Hrange. revert times Hlen.
  induction Hzero as [|row rs Hrow _ IH]; intros [|t ts]; simpl; try done.
  intros [= Hlen]. rewrite (IH ts Hlen). f_equal. by apply Wt_all_zero.
Qed.

Lemma get_Wt_witness :
  simulation_ready chain3 ∧
  length (rows zero_soln2) = length times2 ∧
  Forall (fun vk => 0 ≤ Wt_offset chain3 true + vk.2 < ncols zero_soln2)
         (Wt_terms chain3) ∧
  Forall (Forall (eq 0%float)) (rows zero_soln2) ∧
  Forall (fun vk => is_finite (float_of_int 65 * vk.1) = true) (Wt_terms chain3) ∧
  get_Wt chain3 times2 zero_soln2 true
  = Ok (map (Wt_at chain3 true) (rows zero_soln2)) ∧
  get_Wt chain3 times2 zero_soln2 true = Ok [0%float; 0%float].
Proof.
  assert (Hr : Forall (fun vk => 0 ≤ Wt_offset chain3 true + vk.2 < ncols zero_soln2)
                      (Wt_terms chain3)).
  { repeat constructor; vm_compute; intros [=]. }
  assert (Hz : Forall (Forall (eq 0%float)) (rows zero_soln2))
    by (by repeat constructor).
  assert (Hf : Forall (fun vk => is_finite (float_of_int 65 * vk.1) = true)
                      (Wt_terms chain3)).
  { repeat constructor; vm_compute; reflexivity. }
  destruct (get_Wt_spec chain3 times2 zero_soln2 true chain3_simulation_ready
              eq_refl Hr) as (Hrun & _ & Hzero).
  split; [apply chain3_simulation_ready|]. split; [reflexivity|].
  split; [exact Hr|]. split; [exact Hz|]. split; [exact Hf|].
  split; [exact Hrun|]. exact (Hzero Hz Hf).
Defined.

(** C9 (as stated) fails.  In the prepared chain with a vessel of
    unbounded volume the all-zero solution does not give an all-zero
    curve: every entry is NaN. *)
Lemma zero_solution_with_unbounded_volume :
  simulation_ready unbounded_chain ∧
  length (rows zero_soln2) = length times2 ∧
  Forall (fun vk => 0 ≤ Wt_offset unbounded_chain false + vk.2 < ncols zero_soln2)
         (Wt_terms unbounded_chain) ∧
  Forall (Forall (eq 0%float)) (rows zero_soln2) ∧
  get_Wt unbounded_chain times2 zero_soln2 false = Ok [nan; nan] ∧
  get_Wt unbounded_chain times2 zero_soln2 false
  ≠ Ok (map (fun _ => 0%float) times2).
Proof.
  assert (Hrun : get_Wt unbounded_chain times2 zero_soln2 false = Ok [nan; nan])
    by (vm_compute; reflexivity).
  assert (Hready : simulation_ready unbounded_chain).
  { split; [|split; [by eexists|repeat constructor; by eexists]].
    unfold wf_graph. split_and!; by apply (bool_decide_unpack _). }
  assert (Hr : Forall (fun vk => 0 ≤ Wt_offset unbounded_chain false + vk.2
                                 < ncols zero_soln2)
                      (Wt_terms unbounded_chain)).
  { repeat constructor; vm_compute; intros [=]. }
  assert (Hz : Forall (Forall (eq 0%float)) (rows zero_soln2))
    by (by repeat constructor).
  split; [exact Hready|]. split; [reflexivity|]. split; [exact Hr|].
  split; [exact Hz|]. split; [exact Hrun|].
  rewrite Hrun. intros Heq.
  pose proof (f_equal (fun r : result (list float) =>
                         match r with
                         | Ok (w :: _) => is_nan w
                         | _ => false
                         end) Heq) as Hnan.
  vm_compute in Hnan. discriminate Hnan.
Qed.

(** ** Loops that update one attribute dictionary per edge *)

Lemma wf_NoDup_edges G : wf_graph G → NoDup (edges G).
Proof.
  intros (Hnd & Hin & _). unfold edges, keys in *.
  induction (succ G) as [|[u nbrs] d IH]; simpl in *; [constructor|].
  apply NoDup_cons in Hnd as [Hu Hnd]. apply Forall_cons in Hin as [Hn Hin].
  apply NoDup_app. split_and!.
  - apply (NoDup_fmap_2 _). exact Hn.
  - intros e He Hrest.
    apply list_elem_of_fmap in He as (v & -> & _).
    apply list_elem_of_In, in_flat_map in Hrest as ([u' nbrs'] & Hun & Hv).
    apply list_elem_of_In, list_elem_of_fmap in Hv as (v' & [= -> ->] & _).
    apply Hu, list_elem_of_fmap. exists (u', nbrs').
    split; [done|]. by apply list_elem_of_In.
  - by apply IH.
Qed.

Lemma wf_edge_endpoints G u v :
  wf_graph G → (u, v) ∈ edges G → u ∈ nodes G ∧ v ∈ nodes G.
Proof.
  intros (_ & _ & Hkeys & Hclosed) He. split.
  - unfold nodes. rewrite Hkeys. unfold edges in He.
    apply list_elem_of_In, in_flat_map in He as ([u' nbrs] & Hun & Hv).
    apply list_elem_of_In, list_elem_of_fmap in Hv as (v' & [= -> ->] & _).
    apply list_elem_of_fmap. exists (u', nbrs). split; [done|].
    by apply list_elem_of_In.
  - rewrite Forall_forall in Hclosed. apply (Hclosed _ He).
Qed.

Lemma for_each_edge_update (G0 : DiGraph)
  (F : Z * Z → edge_attrs → edge_attrs)
  (body : Z * Z → DiGraph → result DiGraph) (l : list (Z * Z)) :
  (∀ e G a, e ∈ l → skeleton G = skeleton G0 → edge_lookup G e = Some a →
     ∃ G1, body e G = Ok G1 ∧ skeleton G1 = skeleton G ∧
           ∀ e', edge_lookup G1 e'
                 = if decide (e' = e) then Some (F e a) else edge_lookup G e') →
  (∀ e, e ∈ l → e ∈ edges G0) →
  wf_graph G0 → NoDup l →
  ∀ G, skeleton G = skeleton G0 →
  ∃ G', for_each l body G = Ok G' ∧ skeleton G' = skeleton G0 ∧
        ∀ e, edge_lookup G' e
             = if decide (e ∈ l) then F e <$> edge_lookup G e
               else edge_lookup G e.
Proof.
  intros Hbody Hsub Hwf Hnd. induction l as [|e l IH]; intros G Hsk;
    cbn [for_each].
  - exists G. split; [done|]. split; [done|]. intros e.
    rewrite decide_False; [done | apply not_elem_of_nil].
  - apply NoDup_cons in Hnd as [He Hnd].
    assert (Hsome : is_Some (edge_lookup G e)).
    { apply elem_edges_lookup; [by apply (skeleton_wf G0) |].
      rewrite (skeleton_edges G0) by done. apply Hsub. left. }
    destruct Hsome as [a Ha].
    destruct (Hbody e G a) as (G1 & -> & Hsk1 & Hlk1); [left | done..|].
    cbn [mbind result_bind].
    destruct IH with (G := G1) as (G' & Hrun & Hsk' & Hlk').
    + intros e' G2 a' He'. apply Hbody. by right.
    + intros e' He'. apply Hsub. by right.
    + done.
    + congruence.
    + exists G'. split; [done|]. split; [done|]. intros e'.
      rewrite Hlk', Hlk1. destruct (decide (e' = e)) as [->|Hne].
      * rewrite decide_False by done. rewrite decide_True by left.
        by rewrite Ha.
      * destruct (decide (e' ∈ l)) as [Hin|Hnin].
        -- rewrite decide_True by (by right). done.
        -- rewrite decide_False; [done|].
           intros [?|?]%elem_of_cons; done.
Qed.

(** ** Symmetric radii *)

Lemma assign_symmetric_radii_spec N G :
  wf_graph G →
  ∃ G', assign_symmetric_radii N G = Ok G' ∧ skeleton G' = skeleton G ∧
        ∀ e, e ∈ edges G' → radius_of G' e = Some (symmetric_radius N).
Proof.
  intros Hwf. unfold assign_symmetric_radii.
  destruct (for_each_edge_update G (fun _ => set_radius (symmetric_radius N))
              (fun '(src, sink) G =>
                 set_edge_data (set_radius (symmetric_radius N)) src sink G)
              (edges G)) with (G := G)
    as (G' & Hrun & Hsk & Hlk); try done.
  - intros [u v] G1 a _ _ Ha.
    destruct (set_edge_data_spec (set_radius (symmetric_radius N)) u v G1 a Ha)
      as (G2 & ? & ? & ?). eauto.
  - by apply wf_NoDup_edges.
  - exists G'. split; [done|]. split; [done|]. intros e He.
    rewrite (skeleton_edges G) in He by done.
    unfold radius_of. rewrite Hlk, decide_True by done.
    destruct (elem_edges_lookup G e Hwf He) as [a ->]. done.
Qed.

(** ** Distance ranking *)

Lemma role_nodes_loop G (l : list Z) (acc1 acc2 : list Z) :
  Forall (fun n => is_Some (role_of G n)) l →
  for_each l
    (fun n '(source_nodes, sink_nodes) =>
       a ← getitem (node G) n;
       t ← attr (ntype a);
       if decide (t = Source) then Ok (source_nodes ++ [n], sink_nodes)
       else
         a' ← getitem (node G) n;
         t' ← attr (ntype a');
         if decide (t' = Sink) then Ok (source_nodes, sink_nodes ++ [n])
         else Ok (source_nodes, sink_nodes))
    (acc1, acc2)
  = Ok (acc1 ++ filter (fun n => role_of G n = Some Source) l,
        acc2 ++ filter (fun n => role_of G n = Some Sink) l).
Proof.
  intros Hl. revert acc1 acc2.
  induction Hl as [|n l [r Hr] _ IH]; intros acc1 acc2; cbn [for_each].
  - by rewrite !filter_nil, !app_nil_r.
  - rewrite !filter_cons. unfold role_of, getitem in *.
    destruct (od_get n (node G)) as [a|]; simpl in Hr; [|done].
    simpl. rewrite Hr. simpl.
    destruct r; simpl; rewrite IH; by rewrite <- ?app_assoc.
Qed.

Lemma role_nodes_spec G :
  Forall (fun n => is_Some (role_of G n)) (nodes G) →
  role_nodes G = Ok (nodes_with_role Source G, nodes_with_role Sink G).
Proof. intros H. unfold role_nodes. by rewrite role_nodes_loop. Qed.

Lemma shortest_path_length_cases G s t :
  s ∈ nodes G → t ∈ nodes G →
  (∃ d, shortest_path_length G s t = Ok d)
  ∨ shortest_path_length G s t = Raise NetworkXNoPath.
Proof.
  intros Hs Ht. unfold shortest_path_length, has_node.
  rewrite !bool_decide_eq_true_2 by done. simpl.
  destruct (first_level _ _ _ _ _); eauto.
Qed.

Lemma append_if_path_loop G (queries : list (Z * Z)) (acc : list Z) :
  Forall (fun q => q.1 ∈ nodes G ∧ q.2 ∈ nodes G) queries →
  for_each queries (fun q ds => append_if_path G q.1 q.2 ds) acc
  = Ok (acc ++ path_lengths G queries).
Proof.
  intros Hq. revert acc.
  induction Hq as [|[s t] l [Hs Ht] _ IH]; intros acc; simpl in *.
  - by rewrite app_nil_r.
  - unfold append_if_path.
    destruct (shortest_path_length_cases G s t Hs Ht) as [[d ->]| ->]; simpl.
    + rewrite IH. by rewrite <- app_assoc.
    + apply IH.
Qed.

Lemma path_lengths_skeleton G G' qs :
  skeleton G' = skeleton G → path_lengths G' qs = path_lengths G qs.
Proof.
  intros Hsk. unfold path_lengths. apply list_omap_ext.
  induction qs; constructor; [|done].
  by rewrite (skeleton_shortest_path_length G G').
Qed.

Lemma nodes_with_role_elem r G n :
  n ∈ nodes_with_role r G ↔ role_of G n = Some r ∧ n ∈ nodes G.
Proof. unfold nodes_with_role. by rewrite list_elem_of_filter. Qed.

Lemma assign_edge_distances_spec G0 G u v a :
  wf_graph G0 → skeleton G = skeleton G0 → (u, v) ∈ edges G0 →
  edge_lookup G (u, v) = Some a →
  ∃ G1,
    assign_edge_distances (nodes_with_role Source G0) (nodes_with_role Sink G0)
      u v G = Ok G1 ∧
    skeleton G1 = skeleton G ∧
    ∀ e', edge_lookup G1 e'
          = if decide (e' = (u, v)) then Some (ranked G0 (u, v) a)
            else edge_lookup G e'.
Proof.
  intros Hwf Hsk He Ha.
  destruct (wf_edge_endpoints G0 u v Hwf He) as [Hu Hv].
  unfold assign_edge_distances.
  assert (Hsrc : for_each (nodes_with_role Source G0)
                   (fun entrance_node ds => append_if_path G entrance_node u ds) []
                 = Ok (path_lengths G0
                         (map (fun s => (s, u)) (nodes_with_role Source G0)))).
  { rewrite <- (for_each_map (fun s => (s, u)) _
                  (fun q ds => append_if_path G q.1 q.2 ds)).
    rewrite append_if_path_loop.
    - by rewrite (path_lengths_skeleton G0 G).
    - apply Forall_fmap, Forall_forall. intros s Hs; simpl.
      rewrite (skeleton_nodes G0 G) by done.
      by apply nodes_with_role_elem in Hs as [_ ?]. }
  assert (Hsnk : for_each (nodes_with_role Sink G0)
                   (fun exit_node ds => append_if_path G v exit_node ds) []
                 = Ok (path_lengths G0
                         (map (fun t => (v, t)) (nodes_with_role Sink G0)))).
  { rewrite <- (for_each_map (fun t => (v, t)) _
                  (fun q ds => append_if_path G q.1 q.2 ds)).
    rewrite append_if_path_loop.
    - by rewrite (path_lengths_skeleton G0 G).
    - apply Forall_fmap, Forall_forall. intros s Hs; simpl.
      rewrite (skeleton_nodes G0 G) by done.
      by apply nodes_with_role_elem in Hs as [_ ?]. }
  rewrite Hsrc, Hsnk. cbn [mbind result_bind].
  set (sd := min_or_zero (path_lengths G0 (map (fun s => (s, u)) _))).
  set (kd := min_or_zero (path_lengths G0 (map (fun t => (v, t)) _))).
  destruct (set_edge_data_spec (set_src_dist sd) u v G a Ha)
    as (G1 & -> & Hsk1 & Hlk1). cbn [mbind result_bind].
  assert (Ha1 : edge_lookup G1 (u, v) = Some (set_src_dist sd a))
    by (by rewrite Hlk1, decide_True).
  destruct (set_edge_data_spec (set_sink_dist kd) u v G1 _ Ha1)
    as (G2 & -> & Hsk2 & Hlk2). cbn [mbind result_bind].
  assert (Ha2 : edge_lookup G2 (u, v)
                = Some (set_sink_dist kd (set_src_dist sd a)))
    by (by rewrite Hlk2, decide_True).
  rewrite edge_data_lookup, Ha2. simpl.
  destruct (set_edge_data_spec (set_center_dist (Z.abs (sd - kd))) u v G2 _ Ha2)
    as (G3 & -> & Hsk3 & Hlk3).
  exists G3. split; [done|]. split; [congruence|].
  intros e'. rewrite Hlk3. destruct (decide (e' = (u, v))); [done|].
  rewrite Hlk2, decide_False by done. by rewrite Hlk1, decide_False.
Qed.

Lemma py_min_spec d ds :
  (py_min d ds = d ∨ py_min d ds ∈ ds) ∧
  py_min d ds ≤ d ∧ ∀ x, x ∈ ds → py_min d ds ≤ x.
Proof.
  unfold py_min. revert d. induction ds as [|y ds IH]; intros d; simpl.
  - split; [by left|]. split; [lia|]. by intros x ?%elem_of_nil.
  - destruct (IH (Z.min d y)) as ([Hm|Hm] & Hle & Hall).
    + split; [|split].
      * rewrite Hm.
        destruct (Z.min_spec d y) as [[_ Heq]|[_ Heq]]; rewrite Heq;
          [by left | right; left].
      * lia.
      * intros x [->|Hx]%elem_of_cons; [lia | by apply Hall].
    + split; [right; by right|]. split; [lia|].
      intros x [->|Hx]%elem_of_cons; [lia | by apply Hall].
Qed.

Lemma min_or_zero_spec ds :
  (ds = [] ∧ min_or_zero ds = 0)
  ∨ (min_or_zero ds ∈ ds ∧ ∀ x, x ∈ ds → min_or_zero ds ≤ x).
Proof.
  destruct ds as [|d ds]; [by left|right]. simpl.
  destruct (py_min_spec d ds) as ([Hm|Hm] & Hle & Hall).
  - split; [rewrite Hm; left|].
    intros x [->|Hx]%elem_of_cons; [done | by apply Hall].
  - split; [by right|].
    intros x [->|Hx]%elem_of_cons; [done | by apply Hall].
Qed.

Lemma path_lengths_elem G qs d :
  d ∈ path_lengths G qs ↔ ∃ q, q ∈ qs ∧ shortest_path_length G q.1 q.2 = Ok d.
Proof.
  unfold path_lengths. rewrite list_elem_of_omap. split.
  - intros (q & Hq & Hd). exists q. split; [done|].
    destruct (shortest_path_length G q.1 q.2); naive_solver.
  - intros (q & Hq & Hd). exists q. split; [done|]. by rewrite Hd.
Qed.

Lemma nearest_source_dist_min G u :
  nearest_source_dist G u
    (min_or_zero (path_lengths G (map (fun s => (s, u)) (nodes_with_role Source G)))).
Proof.
  destruct (min_or_zero_spec
              (path_lengths G (map (fun s => (s, u)) (nodes_with_role Source G))))
    as [[Hnil Hz]|[Hin Hall]].
  - right. split; [done|]. intros s' d' Hs' Hd'.
    assert (Hd : d' ∈ path_lengths G (map (fun s => (s, u)) (nodes_with_role Source G))).
    { apply path_lengths_elem. exists (s', u). split; [|done].
      apply list_elem_of_fmap. eauto. }
    rewrite Hnil in Hd. by apply elem_of_nil in Hd.
  - left. apply path_lengths_elem in Hin as ([s u'] & Hq & Hd).
    apply list_elem_of_fmap in Hq as (s0 & [= -> ->] & Hs0). simpl in Hd.
    exists s0. split; [done|]. split; [done|].
    intros s' d' Hs' Hd'. apply Hall, path_lengths_elem.
    exists (s', u). split; [|done]. apply list_elem_of_fmap. eauto.
Qed.

Lemma nearest_sink_dist_min G v :
  nearest_sink_dist G v
    (min_or_zero (path_lengths G (map (fun t => (v, t)) (nodes_with_role Sink G)))).
Proof.
  destruct (min_or_zero_spec
              (path_lengths G (map (fun t => (v, t)) (nodes_with_role Sink G))))
    as [[Hnil Hz]|[Hin Hall]].
  - right. split; [done|]. intros t' d' Ht' Hd'.
    assert (Hd : d' ∈ path_lengths G (map (fun t => (v, t)) (nodes_with_role Sink G))).
    { apply path_lengths_elem. exists (v, t'). split; [|done].
      apply list_elem_of_fmap. eauto. }
    rewrite Hnil in Hd. by apply elem_of_nil in Hd.
  - left. apply path_lengths_elem in Hin as ([v' t] & Hq & Hd).
    apply list_elem_of_fmap in Hq as (t0 & [= -> ->] & Ht0). simpl in Hd.
    exists t0. split; [done|]. split; [done|].
    intros t' d' Ht' Hd'. apply Hall, path_lengths_elem.
    exists (v, t'). split; [|done]. apply list_elem_of_fmap. eauto.
Qed.

Lemma assign_distances_run G :
  wf_graph G →
  Forall (fun n => is_Some (role_of G n)) (nodes G) →
  ∃ G', assign_distances_from_source_and_sink_nodes G = Ok G' ∧
        skeleton G' = skeleton G ∧
        ∀ e, edge_lookup G' e
             = if decide (e ∈ edges G) then ranked G e <$> edge_lookup G e
               else edge_lookup G e.
Proof.
  intros Hwf Hroles. unfold assign_distances_from_source_and_sink_nodes.
  rewrite role_nodes_spec by done. cbn [mbind result_bind].
  apply (for_each_edge_update G (ranked G)); try done.
  - intros [u v] G1 a He Hsk Ha. by apply assign_edge_distances_spec.
  - by apply wf_NoDup_edges.
Qed.

(** ** The shortest-path model computes graph distance *)

Lemma elem_of_next_level G level t :
  t ∈ next_level G level ↔ ∃ w, w ∈ level ∧ t ∈ successors G w.
Proof.
  unfold next_level. rewrite elem_of_remove_dups, list_elem_of_In, in_flat_map.
  split; intros (w & Hw & Ht); exists w; by rewrite ?list_elem_of_In in *.
Qed.

Lemma level_walk G s t k :
  t ∈ Nat.iter k (next_level G) [s] ↔ walk G s t k.
Proof.
  revert t. induction k as [|k IH]; intros t; simpl.
  - rewrite list_elem_of_singleton. split.
    + intros ->. constructor.
    + by inversion 1.
  - rewrite elem_of_next_level. split.
    + intros (w & Hw & Ht). apply IH in Hw. by econstructor.
    + inversion 1 as [|w t' k' Hw Ht]; subst. exists w. by rewrite IH.
Qed.

Lemma first_level_Some G fuel level t d d' :
  first_level G fuel level t d = Some d' →
  ∃ j, (j ≤ fuel)%nat ∧ d' = d + Z.of_nat j ∧
       t ∈ Nat.iter j (next_level G) level ∧
       ∀ i, (i < j)%nat → t ∉ Nat.iter i (next_level G) level.
Proof.
  revert level d. induction fuel as [|fuel IH]; intros level d; simpl.
  - case_bool_decide as Ht; [|done]. intros [= <-].
    exists O. split; [lia|]. split; [lia|]. split; [done|]. lia.
  - case_bool_decide as Ht.
    + intros [= <-]. exists O. split; [lia|]. split; [lia|]. split; [done|]. lia.
    + intros Hrec. destruct (IH _ _ Hrec) as (j & Hj & -> & Hin & Hmin).
      exists (S j). split; [lia|]. split; [lia|].
      rewrite Nat.iter_succ_r. split; [done|].
      intros [|i] Hi; [done|]. rewrite Nat.iter_succ_r. apply Hmin. lia.
Qed.

Lemma first_level_None G fuel level t d :
  first_level G fuel level t d = None →
  ∀ j, (j ≤ fuel)%nat → t ∉ Nat.iter j (next_level G) level.
Proof.
  revert level d. induction fuel as [|fuel IH]; intros level d; simpl.
  - case_bool_decide as Ht; [done|]. intros _ j Hj.
    by replace j with O by lia.
  - case_bool_decide as Ht; [done|]. intros Hrec [|j] Hj; [done|].
    rewrite Nat.iter_succ_r. apply (IH _ _ Hrec). lia.
Qed.

Lemma first_level_finds G fuel level t d j :
  (j ≤ fuel)%nat → t ∈ Nat.iter j (next_level G) level →
  is_Some (first_level G fuel level t d).
Proof.
  intros Hj Hin. destruct (first_level G fuel level t d) eqn:Hf; [eauto|].
  by destruct (first_level_None _ _ _ _ _ Hf j Hj).
Qed.

Section distances.
Context (G : DiGraph) (Hwf : wf_graph G) (s : Z) (Hs : s ∈ nodes G).

Lemma walk_in_nodes t k : walk G s t k → t ∈ nodes G.
Proof using Hwf Hs.
  induction 1 as [|w t k _ IH Ht]; [done|].
  unfold successors in Ht.
  destruct (od_get w (succ G)) as [nbrs|] eqn:Hw; [|by apply elem_of_nil in Ht].
  apply (wf_edge_endpoints G w t Hwf). by eapply neighbour_is_edge.
Qed.

Lemma distance_unique t d d' : distance G s t d → distance G s t d' → d = d'.
Proof.
  intros [Hw Hmin] [Hw' Hmin'].
  pose proof (Hmin _ Hw'). pose proof (Hmin' _ Hw). lia.
Qed.

(** Along a shortest walk the distances are 0, 1, ..., d. *)
Lemma distance_chain t d :
  distance G s t d →
  ∃ ws : list Z, length ws = S d ∧ ∀ i w, ws !! i = Some w → distance G s w i.
Proof.
  revert t. induction d as [|d IH]; intros t [Hw Hmin].
  - inversion Hw as [Heq|]. subst t. exists [s]. split; [done|].
    intros [|i] w; simpl; [|done]. intros [= <-].
    split; [constructor | lia].
  - inversion Hw as [|w t' k Hsw Ht]; subst.
    assert (Hdw : distance G s w d).
    { split; [done|]. intros k Hk.
      assert (walk G s t (S k)) as Hk' by (by econstructor).
      apply Hmin in Hk'. lia. }
    destruct (IH w Hdw) as (ws & Hlen & Hws).
    exists (ws ++ [t]). split; [rewrite length_app; simpl; lia|].
    intros i x Hix. apply lookup_app_Some in Hix as [Hix|[Hge Hix]].
    + by apply Hws.
    + rewrite Hlen in Hge, Hix.
      destruct (i - S d)%nat as [|?] eqn:Hi; simpl in Hix; [|done].
      injection Hix as <-. replace i with (S d) by lia. by split.
Qed.

(** A shortest walk visits fewer edges than the graph has nodes. *)
Lemma distance_bound t d : distance G s t d → (S d ≤ length (nodes G))%nat.
Proof using Hwf Hs.
  intros Hd. destruct (distance_chain t d Hd) as (ws & <- & Hws).
  apply NoDup_incl_length.
  - apply NoDup_ListNoDup, NoDup_alt. intros i j w Hi Hj.
    eapply distance_unique; eauto.
  - intros w Hw. apply list_elem_of_In, list_elem_of_lookup in Hw as [i Hi].
    apply list_elem_of_In. destruct (Hws i w Hi) as [Hwalk _].
    by eapply walk_in_nodes.
Qed.

(** A node that is reached at all has a distance. *)
Lemma walk_distance t k : walk G s t k → ∃ d, distance G s t d.
Proof.
  intros Hk.
  destruct (first_level_finds G k [s] t 0 k) as [d' Hd']; [lia | by apply level_walk|].
  destruct (first_level_Some _ _ _ _ _ _ Hd') as (j & _ & _ & Hin & Hmin).
  exists j. split; [by apply level_walk|].
  intros i Hi. destruct (decide (j ≤ i)%nat); [done|].
  destruct (Hmin i); [lia | by apply level_walk].
Qed.

(** The model of [nx.shortest_path_length] returns the graph distance, and
    raises [NetworkXNoPath] exactly when there is no walk. *)
Lemma shortest_path_length_distance t :
  t ∈ nodes G →
  (∀ d, shortest_path_length G s t = Ok d
        ↔ 0 ≤ d ∧ distance G s t (Z.to_nat d)) ∧
  (shortest_path_length G s t = Raise NetworkXNoPath ↔ ∀ k, ¬ walk G s t k).
Proof using Hwf Hs.
  intros Ht. unfold shortest_path_length, has_node.
  rewrite !bool_decide_eq_true_2 by done. cbn [andb].
  destruct (first_level G (length (nodes G) - 1) [s] t 0) as [d'|] eqn:Hf.
  - destruct (first_level_Some _ _ _ _ _ _ Hf) as (j & _ & -> & Hin & Hmin).
    assert (Hdist : distance G s t j).
    { split; [by apply level_walk|]. intros i Hi.
      destruct (decide (j ≤ i)%nat); [done|].
      destruct (Hmin i); [lia | by apply level_walk]. }
    split.
    + intros d. split.
      * intros [= <-]. split; [lia|]. by rewrite Z.add_0_l, Nat2Z.id.
      * intros [Hd0 Hd]. f_equal.
        pose proof (distance_unique _ _ _ Hdist Hd). lia.
    + split; [done|]. intros Hno. destruct Hdist as [Hw _]. by destruct (Hno j).
  - pose proof (first_level_None _ _ _ _ _ Hf) as Hnone.
    assert (Hno : ∀ k, ¬ walk G s t k).
    { intros k Hk. destruct (walk_distance t k Hk) as [d Hd].
      pose proof (distance_bound t d Hd) as Hb.
      apply (Hnone d); [lia|]. apply level_walk. by destruct Hd. }
    split.
    + intros d. split; [done|]. intros [_ [Hw _]]. by destruct (Hno _ Hw).
    + done.
Qed.
End distances.

(** ** Distance ranking in terms of walks *)

Lemma shortest_path_length_Ok_walk G s t d :
  wf_graph G → s ∈ nodes G → t ∈ nodes G →
  shortest_path_length G s t = Ok d → 0 ≤ d ∧ distance G s t (Z.to_nat d).
Proof.
  intros Hwf Hs Ht Hd.
  by apply (proj1 (shortest_path_length_distance G Hwf s Hs t Ht)).
Qed.

Lemma walk_shortest_path_length G s t k :
  wf_graph G → s ∈ nodes G → t ∈ nodes G → walk G s t k →
  ∃ d, shortest_path_length G s t = Ok d ∧ 0 ≤ d ≤ Z.of_nat k.
Proof.
  intros Hwf Hs Ht Hk.
  destruct (walk_distance G s t k Hk) as [d Hd].
  exists (Z.of_nat d). split.
  - apply (proj1 (shortest_path_length_distance G Hwf s Hs t Ht)).
    split; [lia|]. by rewrite Nat2Z.id.
  - destruct Hd as [_ Hmin]. pose proof (Hmin k Hk). lia.
Qed.

Lemma least_source_distance_min G u :
  wf_graph G → u ∈ nodes G →
  least_source_distance G u
    (min_or_zero (path_lengths G (map (fun s => (s, u)) (nodes_with_role Source G)))).
Proof.
  intros Hwf Hu.
  destruct (nearest_source_dist_min G u) as [(s & Hs & Hd & Hmin)|[Hz Hnone]].
  - left. exists s. pose proof Hs as [_ Hsn]%nodes_with_role_elem.
    destruct (shortest_path_length_Ok_walk G s u _ Hwf Hsn Hu Hd) as [H0 [Hw _]].
    split; [done|]. split; [done|]. split; [done|].
    intros s' k Hs' Hk. pose proof Hs' as [_ Hsn']%nodes_with_role_elem.
    destruct (walk_shortest_path_length G s' u k Hwf Hsn' Hu Hk) as (d' & Hd' & Hle).
    pose proof (Hmin s' d' Hs' Hd'). lia.
  - right. split; [done|]. intros s' k Hs' Hk.
    pose proof Hs' as [_ Hsn']%nodes_with_role_elem.
    destruct (walk_shortest_path_length G s' u k Hwf Hsn' Hu Hk) as (d' & Hd' & _).
    by apply (Hnone s' d' Hs').
Qed.

Lemma least_sink_distance_min G v :
  wf_graph G → v ∈ nodes G →
  least_sink_distance G v
    (min_or_zero (path_lengths G (map (fun t => (v, t)) (nodes_with_role Sink G)))).
Proof.
  intros Hwf Hv.
  destruct (nearest_sink_dist_min G v) as [(t & Ht & Hd & Hmin)|[Hz Hnone]].
  - left. exists t. pose proof Ht as [_ Htn]%nodes_with_role_elem.
    destruct (shortest_path_length_Ok_walk G v t _ Hwf Hv Htn Hd) as [H0 [Hw _]].
    split; [done|]. split; [done|]. split; [done|].
    intros t' k Ht' Hk. pose proof Ht' as [_ Htn']%nodes_with_role_elem.
    destruct (walk_shortest_path_length G v t' k Hwf Hv Htn' Hk) as (d' & Hd' & Hle).
    pose proof (Hmin t' d' Ht' Hd'). lia.
  - right. split; [done|]. intros t' k Ht' Hk.
    pose proof Ht' as [_ Htn']%nodes_with_role_elem.
    destruct (walk_shortest_path_length G v t' k Hwf Hv Htn' Hk) as (d' & Hd' & _).
    by apply (Hnone t' d' Ht').
Qed.

(** C5. After [assign_distances_from_source_and_sink_nodes] has run on a
    graph whose nodes all carry a role, every edge [(u, v)] carries
    [src_dist], the least directed distance from a source-role node to [u]
    over the source nodes from which [u] can be reached (0 if there is
    none), [sink_dist], the least directed distance from [v] to a sink-role
    node it reaches (0 if there is none), and
    [center_dist = |src_dist - sink_dist|], which is not negative.  Nodes,
    edges and graph attributes are as before. *)
Theorem assign_distances_spec (G : DiGraph) :
  wf_graph G →
  Forall (fun n => is_Some (role_of G n)) (nodes G) →
  ∃ G', assign_distances_from_source_and_sink_nodes G = Ok G' ∧
        skeleton G' = skeleton G ∧
        ∀ u v, (u, v) ∈ edges G →
          ∃ a sd kd,
            edge_lookup G' (u, v) = Some a ∧
            src_dist a = Some sd ∧ sink_dist a = Some kd ∧
            center_dist a = Some (Z.abs (sd - kd)) ∧ 0 ≤ Z.abs (sd - kd) ∧
            least_source_distance G u sd ∧ least_sink_distance G v kd.
Proof.
  intros Hwf Hroles.
  destruct (assign_distances_run G Hwf Hroles) as (G' & Hrun & Hsk & Hlk).
  exists G'. split; [done|]. split; [done|]. intros u v He.
  destruct (elem_edges_lookup G (u, v) Hwf He) as [a Ha].
  destruct (wf_edge_endpoints G u v Hwf He) as [Hu Hv].
  eexists _, _, _. split.
  { rewrite Hlk, decide_True, Ha by done. reflexivity. }
  simpl. split; [reflexivity|]. split; [reflexivity|]. split; [reflexivity|].
  split; [lia|]. split.
  - by apply least_source_distance_min.
  - by apply least_sink_distance_min.
Qed.

Lemma chain3_roles : Forall (fun n => is_Some (role_of chain3 n)) (nodes chain3).
Proof. repeat constructor; by eexists. Defined.

Lemma assign_distances_witness :
  wf_graph chain3 ∧
  Forall (fun n => is_Some (role_of chain3 n)) (nodes chain3) ∧
  ∃ G', assign_distances_from_source_and_sink_nodes chain3 = Ok G' ∧
        skeleton G' = skeleton chain3 ∧
        ∀ u v, (u, v) ∈ edges chain3 →
          ∃ a sd kd,
            edge_lookup G' (u, v) = Some a ∧
            src_dist a = Some sd ∧ sink_dist a = Some kd ∧
            center_dist a = Some (Z.abs (sd - kd)) ∧ 0 ≤ Z.abs (sd - kd) ∧
            least_source_distance chain3 u sd ∧ least_sink_distance chain3 v kd.
Proof.
  split; [apply chain3_wf|]. split; [apply chain3_roles|].
  apply (assign_distances_spec chain3 chain3_wf chain3_roles).
Defined.

(** ** Loops that follow a pure model *)

Lemma for_each_simulation {A S T : Type} (R : S → T → Prop) (l : list A)
  (body : A → S → result S) (step : T → A → T) s t :
  R s t →
  (∀ a s t, a ∈ l → R s t → ∃ s', body a s = Ok s' ∧ R s' (step t a)) →
  ∃ s', for_each l body s = Ok s' ∧ R s' (fold_left step l t).
Proof.
  revert s t. induction l as [|a l IH]; intros s t HR Hstep; simpl; [eauto|].
  destruct (Hstep a s t) as (s' & -> & HR'); [left | done |]. simpl.
  apply IH; [done|]. intros; apply Hstep; [by right | done].
Qed.

Lemma fold_left_list_prod {A B T : Type} (f : T → A * B → T) (l : list A)
  (l' : list B) t :
  fold_left f (list_prod l l') t
  = fold_left (fun t a => fold_left (fun t b => f t (a, b)) l' t) l t.
Proof.
  revert t. induction l as [|a l IH]; intros t; simpl; [done|].
  rewrite fold_left_app, IH. f_equal. clear IH.
  generalize t. induction l' as [|b l' IH']; intros t'; simpl; [done|].
  apply IH'.
Qed.

Lemma fold_left_const_iter {A T : Type} (f : T → T) (l : list A) t :
  fold_left (fun t _ => f t) l t = Nat.iter (length l) f t.
Proof.
  revert t. induction l as [|a l IH]; intros t; simpl; [done|].
  rewrite IH. symmetry. apply (Nat.iter_succ_r (length l) f t).
Qed.

(** ** Radii under [G[u][v]['radius'] = r] *)

Lemma set_radius_spec r u v G a :
  edge_lookup G (u, v) = Some a →
  ∃ G', set_edge_data (set_radius r) u v G = Ok G' ∧
        skeleton G' = skeleton G ∧
        (∀ e, center_dist_of G' e = center_dist_of G e) ∧
        (∀ e, radius_of G' e
              = if decide (e = (u, v)) then Some r else radius_of G e) ∧
        (∀ e, is_Some (edge_lookup G' e) ↔ is_Some (edge_lookup G e)).
Proof.
  intros Ha.
  destruct (set_edge_data_spec (set_radius r) u v G a Ha) as (G' & Hrun & Hsk & Hlk).
  exists G'. split; [done|]. split; [done|].
  unfold center_dist_of, radius_of. split_and!; intros e; rewrite Hlk.
  - destruct (decide (e = (u, v))) as [->|]; [by rewrite Ha | done].
  - by destruct (decide (e = (u, v))).
  - destruct (decide (e = (u, v))) as [->|]; [|done]. rewrite Ha.
    split; eauto.
Qed.

Lemma radius_of_Some G e r :
  radius_of G e = Some r → ∃ a, edge_lookup G e = Some a ∧ radius a = Some r.
Proof.
  unfold radius_of. destruct (edge_lookup G e) as [a|]; simpl; [eauto|done].
Qed.

Lemma center_dist_of_Some G e c :
  center_dist_of G e = Some c →
  ∃ a, edge_lookup G e = Some a ∧ center_dist a = Some c.
Proof.
  unfold center_dist_of. destruct (edge_lookup G e) as [a|]; simpl; [eauto|done].
Qed.

(** Exchanging the radii of two distinct edges that have radii [r1], [r2]. *)
Lemma swap_radius_spec G e1 e2 r1 r2 :
  e1 ≠ e2 → radius_of G e1 = Some r1 → radius_of G e2 = Some r2 →
  ∃ G', (G1 ← set_edge_data (set_radius r2) e1.1 e1.2 G;
         set_edge_data (set_radius r1) e2.1 e2.2 G1) = Ok G' ∧
        skeleton G' = skeleton G ∧
        (∀ e, center_dist_of G' e = center_dist_of G e) ∧
        (∀ e, radius_of G' e = swap_radii (radius_of G) e1 e2 e).
Proof.
  destruct e1 as [u1 v1], e2 as [u2 v2]. intros Hne H1 H2.
  destruct (radius_of_Some _ _ _ H1) as (a1 & Ha1 & _).
  destruct (radius_of_Some _ _ _ H2) as (a2 & Ha2 & _).
  destruct (set_radius_spec r2 u1 v1 G a1 Ha1)
    as (G1 & Hrun1 & Hsk1 & Hcd1 & Hr1 & Hdom1).
  simpl. rewrite Hrun1. simpl.
  assert (is_Some (edge_lookup G1 (u2, v2))) as [a2' Ha2']
    by (apply Hdom1; eauto).
  destruct (set_radius_spec r1 u2 v2 G1 a2' Ha2')
    as (G2 & Hrun2 & Hsk2 & Hcd2 & Hr2 & Hdom2).
  exists G2. split; [done|]. split; [congruence|]. split.
  - intros e. by rewrite Hcd2, Hcd1.
  - intros e. rewrite Hr2, Hr1. unfold swap_radii, set_radius_at.
    rewrite H1, H2. done.
Qed.

(** ** The repair passes *)

Lemma swap_radii_is_Some (rho : radii) e1 e2 e :
  is_Some (rho e1) → is_Some (rho e2) → is_Some (rho e) →
  is_Some (swap_radii rho e1 e2 e).
Proof.
  intros H1 H2 He. unfold swap_radii, set_radius_at.
  by repeat case_decide.
Qed.

Section repair.
Context (G : DiGraph).
Context (Hcd : ∀ e, e ∈ edges G → is_Some (center_dist_of G e)).

Lemma repair_pair_sim e1 e2 G1 rho :
  e1 ∈ edges G → e2 ∈ edges G → radii_state G G1 rho →
  ∃ G2, repair_pair e1.1 e1.2 e2.1 e2.2 G1 = Ok G2 ∧
        radii_state G G2 (repair_visit (center_dist_of G) rho (e1, e2)).
Proof using Hcd.
  intros He1 He2 (Hsk & Hc & Hr & Hdom).
  destruct (Hcd e1 He1) as [c1 Hc1]. destruct (Hcd e2 He2) as [c2 Hc2].
  destruct (Hdom e1 He1) as [r1 Hr1]. destruct (Hdom e2 He2) as [r2 Hr2].
  unfold repair_visit, repair_pair. simpl. rewrite Hc1, Hc2, Hr1, Hr2.
  destruct (decide (e1.1 = e2.1)) as [Hsame|Hdiff].
  { exists G1. split; [done|].
    rewrite (bool_decide_eq_false_2 (e1.1 ≠ e2.1)) by tauto. simpl.
    by split_and!. }
  rewrite (bool_decide_eq_true_2 (e1.1 ≠ e2.1)) by done.
  assert (Hg1 : center_dist_of G1 e1 = Some c1) by (by rewrite Hc).
  assert (Hg2 : center_dist_of G1 e2 = Some c2) by (by rewrite Hc).
  assert (Hq1 : radius_of G1 e1 = Some r1) by (by rewrite Hr).
  assert (Hq2 : radius_of G1 e2 = Some r2) by (by rewrite Hr).
  destruct (center_dist_of_Some _ _ _ Hg1) as (a1 & Ha1 & Hca1).
  destruct (center_dist_of_Some _ _ _ Hg2) as (a2 & Ha2 & Hca2).
  assert (Hra1 : radius a1 = Some r1).
  { unfold radius_of in Hq1. by rewrite Ha1 in Hq1. }
  assert (Hra2 : radius a2 = Some r2).
  { unfold radius_of in Hq2. by rewrite Ha2 in Hq2. }
  destruct e1 as [u1 v1], e2 as [u2 v2]; simpl in *.
  rewrite !edge_data_lookup, Ha1, Ha2. simpl.
  rewrite Hca1, Hca2. simpl.
  destruct (decide (c1 > c2)) as [Hgt|Hle].
  - rewrite (bool_decide_eq_true_2 _ Hgt). simpl.
    rewrite Hra1, Hra2. simpl.
    destruct (r1 <? r2)%float.
    + destruct (swap_radius_spec G1 (u1, v1) (u2, v2) r1 r2)
        as (G2 & Hrun & Hsk2 & Hc2' & Hr2'); [congruence | done..|].
      simpl in Hrun. exists G2. split; [done|]. split_and!.
      * congruence.
      * intros e. by rewrite Hc2'.
      * intros e. rewrite Hr2'. unfold swap_radii, set_radius_at.
        by rewrite !Hr.
      * intros e He. apply swap_radii_is_Some; eauto.
    + exists G1. split; [done|]. by split_and!.
  - rewrite (bool_decide_eq_false_2 _ Hle). simpl.
    exists G1. split; [done|]. by split_and!.
Qed.

Lemma repair_pass_sim G1 rho :
  radii_state G G1 rho →
  ∃ G2, repair_pass G1 = Ok G2 ∧
        radii_state G G2 (repair_sweep (center_dist_of G) (edges G) rho).
Proof using Hcd.
  intros Hst. unfold repair_pass, repair_sweep.
  rewrite fold_left_list_prod.
  assert (Hedges : edges G1 = edges G).
  { destruct Hst as (Hsk & _). by apply skeleton_edges. }
  rewrite Hedges.
  apply (for_each_simulation (radii_state G)); [done|].
  intros [u1 v1] G2 rho2 He1 Hst2.
  assert (Hedges2 : edges G2 = edges G).
  { destruct Hst2 as (Hsk & _). by apply skeleton_edges. }
  rewrite Hedges2.
  apply (for_each_simulation (radii_state G)); [done|].
  intros [u2 v2] G3 rho3 He2 Hst3.
  by apply (repair_pair_sim (u1, v1) (u2, v2)).
Qed.

Lemma repair_passes_sim radii_iters G1 rho :
  radii_state G G1 rho →
  ∃ G2, repair_passes radii_iters G1 = Ok G2 ∧
        radii_state G G2
          (repair_sweeps (center_dist_of G) (edges G) radii_iters rho).
Proof using Hcd.
  intros Hst. unfold repair_passes, repair_sweeps.
  replace (Z.to_nat radii_iters) with (length (range radii_iters))
    by (unfold range; apply length_seqZ).
  rewrite <- (fold_left_const_iter (repair_sweep (center_dist_of G) (edges G))
                (range radii_iters)).
  apply (for_each_simulation (radii_state G)); [done|].
  intros _ G2 rho2 _ Hst2. by apply repair_pass_sim.
Qed.
End repair.

(** The repair phase on any graph whose edges carry [center_dist] and
    [radius]: it raises nothing, changes radii only, and the radii it
    leaves are those of [radii_iters] sweeps. *)
Lemma repair_passes_spec (G : DiGraph) (radii_iters : Z) :
  (∀ e, e ∈ edges G → is_Some (center_dist_of G e) ∧ is_Some (radius_of G e)) →
  ∃ G', repair_passes radii_iters G = Ok G' ∧
        skeleton G' = skeleton G ∧
        (∀ e, center_dist_of G' e = center_dist_of G e) ∧
        (∀ e, radius_of G' e
              = repair_sweeps (center_dist_of G) (edges G) radii_iters
                  (radius_of G) e) ∧
        (∀ rho e1 e2, e1.1 = e2.1 →
                      repair_visit (center_dist_of G) rho (e1, e2) = rho).
Proof.
  intros Hattrs.
  destruct (repair_passes_sim G (fun e He => proj1 (Hattrs e He))
              radii_iters G (radius_of G))
    as (G' & Hrun & Hsk & Hcd & Hr & _).
  { split_and!; try done. intros e He. by apply Hattrs. }
  exists G'. split_and!; try done.
  intros rho e1 e2 Hsame. unfold repair_visit. simpl.
  rewrite (bool_decide_eq_false_2 (e1.1 ≠ e2.1)) by tauto.
  by repeat case_match.
Qed.

(** C1 (as stated) fails.  On the lattice of resolution 2, with the draws
    [twelve_draws], the edges [(3, 1)] and [(0, 1)] enter the same node;
    the first has the greater [center_dist] and the smaller radius; the
    repair visit of that pair exchanges their radii, and so does the whole
    repair phase. *)
Lemma repair_swaps_edges_sharing_an_endpoint :
  ∃ G1 G2 G',
    drawn_lattice2 = Ok G1 ∧
    share_endpoint (3, 1) (0, 1) ∧
    center_dist_of G1 (3, 1) = Some 2 ∧ center_dist_of G1 (0, 1) = Some 0 ∧
    radius_of G1 (3, 1) = Some 1.5%float ∧
    radius_of G1 (0, 1) = Some 1.75%float ∧
    repair_pair 3 1 0 1 G1 = Ok G2 ∧
    radius_of G2 (3, 1) = Some 1.75%float ∧
    radius_of G2 (0, 1) = Some 1.5%float ∧
    repair_passes 2 G1 = Ok G' ∧
    radius_of G' (3, 1) = Some 1.75%float ∧
    radius_of G' (0, 1) = Some 1.5%float.
Proof.
  eexists _, _, _.
  split; [vm_compute; reflexivity|].
  split; [right; right; right; reflexivity|].
  do 4 (split; [vm_compute; reflexivity|]).
  split; [vm_compute; reflexivity|].
  do 2 (split; [vm_compute; reflexivity|]).
  split; [vm_compute; reflexivity|].
  split; vm_compute; reflexivity.
Qed.

(** ** [central_difference] and [make_switches] *)

Lemma central_difference_skeleton G G' e :
  skeleton G' = skeleton G → central_difference G' e = central_difference G e.
Proof.
  intros Hsk. unfold central_difference, dist_edge_node. destruct e as [u v].
  rewrite (skeleton_graph G G') by done.
  destruct (g_source (graph G)) as [s|]; simpl; [|done].
  rewrite !(skeleton_shortest_path_length G G') by done.
  destruct (g_sink (graph G)) as [t|]; simpl.
  - by rewrite !(skeleton_shortest_path_length G G') by done.
  - done.
Qed.

Section switches.
Context (G : DiGraph).
Context (Hcd : ∀ e, e ∈ edges G → is_Some (central_difference_of G e)).

Lemma central_difference_state G1 e c :
  skeleton G1 = skeleton G → central_difference_of G e = Some c →
  central_difference G1 e = Ok c.
Proof.
  intros Hsk Hc. rewrite (central_difference_skeleton G G1) by done.
  unfold central_difference_of in Hc.
  destruct (central_difference G e); naive_solver.
Qed.

Lemma scan_partners_sim e1 c1 r1 G1 rho partners :
  (∀ e, e ∈ partners → e ∈ edges G) →
  radii_state G G1 rho → rho e1 = Some r1 →
  ∃ G2, scan_partners G1 e1.1 e1.2 c1 r1 partners = Ok G2 ∧
        radii_state G G2
          (match List.find (switch_candidate (central_difference_of G) rho e1 c1 r1)
                   partners with
           | Some e2 => swap_radii rho e1 e2
           | None => rho
           end).
Proof using Hcd.
  intros Hsub Hst Hr1. destruct e1 as [u1 v1].
  induction partners as [|[u2 v2] partners IH]; simpl; [eauto|].
  destruct (Hcd (u2, v2)) as [c2 Hc2]; [apply Hsub; left|].
  destruct Hst as (Hsk & Hc & Hr & Hdom).
  destruct (Hdom (u2, v2)) as [r2 Hr2]; [apply Hsub; left|].
  unfold switch_candidate at 1. rewrite Hc2, Hr2. simpl.
  destruct (decide (u1 = u2)) as [->|Hu].
  { rewrite (bool_decide_eq_true_2 (u2 = u2)) by done.
    rewrite (bool_decide_eq_false_2 (u2 ≠ u2)) by tauto. simpl.
    apply IH. intros; apply Hsub; by right. }
  rewrite (bool_decide_eq_false_2 (u1 = u2)) by done.
  rewrite (bool_decide_eq_true_2 (u1 ≠ u2)) by done. simpl.
  destruct (decide (v1 = v2)) as [->|Hv].
  { rewrite (bool_decide_eq_true_2 (v2 = v2)) by done.
    rewrite (bool_decide_eq_false_2 (v2 ≠ v2)) by tauto. simpl.
    apply IH. intros; apply Hsub; by right. }
  rewrite (bool_decide_eq_false_2 (v1 = v2)) by done.
  rewrite (bool_decide_eq_true_2 (v1 ≠ v2)) by done. simpl.
  rewrite (central_difference_state G1 (u2, v2) c2) by done. simpl.
  assert (Hq2 : radius_of G1 (u2, v2) = Some r2) by (by rewrite Hr).
  destruct (radius_of_Some _ _ _ Hq2) as (a2 & Ha2 & Hra2).
  rewrite edge_data_lookup, Ha2. simpl. rewrite Hra2. simpl.
  destruct ((c1 <? c2) && (r2 <? r1)%float).
  - destruct (swap_radius_spec G1 (u1, v1) (u2, v2) r1 r2)
      as (G2 & Hrun & Hsk2 & Hc2' & Hr2'); [congruence | by rewrite Hr | done |].
    simpl in Hrun. exists G2. split; [done|]. split_and!.
    + congruence.
    + intros e. by rewrite Hc2'.
    + intros e. rewrite Hr2'. unfold swap_radii, set_radius_at. by rewrite !Hr.
    + intros e He. apply swap_radii_is_Some; eauto.
  - apply IH. intros; apply Hsub; by right.
Qed.

Lemma make_switches_sim :
  (∀ e, e ∈ edges G → is_Some (radius_of G e)) →
  ∃ G', make_switches G = Ok G' ∧
        radii_state G G'
          (switch_pass (central_difference_of G) (edges G) (radius_of G)).
Proof using Hcd.
  intros Hrad. unfold make_switches, switch_pass.
  apply (for_each_simulation (radii_state G)); [by split_and!|].
  intros [u1 v1] G1 rho He1 Hst.
  destruct (Hcd (u1, v1) He1) as [c1 Hc1].
  pose proof Hst as (Hsk & Hc & Hr & Hdom).
  destruct (Hdom (u1, v1) He1) as [r1 Hr1].
  rewrite (central_difference_state G1 (u1, v1) c1) by done. simpl.
  assert (Hq1 : radius_of G1 (u1, v1) = Some r1) by (by rewrite Hr).
  destruct (radius_of_Some _ _ _ Hq1) as (a1 & Ha1 & Hra1).
  rewrite edge_data_lookup, Ha1. simpl. rewrite Hra1. simpl.
  unfold switch_visit. rewrite Hc1, Hr1.
  rewrite (skeleton_edges G G1) by done.
  by apply (scan_partners_sim (u1, v1)).
Qed.
End switches.

(** C3 (as amended).  [make_switches] makes one pass over the edges and
    raises nothing when every edge has a radius and a central difference.
    For each edge in turn it looks, in edge order, for the first edge that
    leaves another node and enters another node, has a strictly greater
    central difference and a strictly smaller radius, exchanges the two
    radii and goes on to the next edge; without such a partner the edge
    keeps its radius.  An edge that leaves the same node or enters the same
    node is never a partner; edges that meet head to tail are candidates
    like all others. *)
Theorem make_switches_spec (G : DiGraph) :
  (∀ e, e ∈ edges G →
        is_Some (central_difference_of G e) ∧ is_Some (radius_of G e)) →
  ∃ G', make_switches G = Ok G' ∧
        skeleton G' = skeleton G ∧
        (∀ e, radius_of G' e
              = switch_pass (central_difference_of G) (edges G) (radius_of G) e) ∧
        (∀ rho e1 c1 r1 e2,
           e1.1 = e2.1 ∨ e1.2 = e2.2 →
           switch_candidate (central_difference_of G) rho e1 c1 r1 e2 = false).
Proof.
  intros Hattrs.
  destruct (make_switches_sim G (fun e He => proj1 (Hattrs e He)))
    as (G' & Hrun & Hsk & _ & Hr & _).
  { intros e He. by apply Hattrs. }
  exists G'. split_and!; try done.
  intros rho e1 c1 r1 e2 Hshare. unfold switch_candidate.
  destruct (central_difference_of G e2); [|done]. destruct (rho e2); [|done].
  destruct Hshare as [H|H].
  - by rewrite (bool_decide_eq_false_2 (e1.1 ≠ e2.1)) by tauto.
  - rewrite (bool_decide_eq_false_2 (e1.2 ≠ e2.2)) by tauto.
    by rewrite andb_false_r.
Qed.

Lemma chain3_attrs e :
  e ∈ edges chain3 →
  is_Some (central_difference_of chain3 e) ∧ is_Some (radius_of chain3 e).
Proof.
  intros He. change (edges chain3) with [(0, 1); (1, 2)] in He.
  apply elem_of_cons in He as [->|He]; [split; by eexists|].
  apply elem_of_cons in He as [->|He]; [split; by eexists|].
  by apply elem_of_nil in He.
Defined.

Lemma make_switches_witness :
  (∀ e, e ∈ edges chain3 →
        is_Some (central_difference_of chain3 e) ∧ is_Some (radius_of chain3 e)) ∧
  ∃ G', make_switches chain3 = Ok G' ∧
        skeleton G' = skeleton chain3 ∧
        (∀ e, radius_of G' e
              = switch_pass (central_difference_of chain3) (edges chain3)
                  (radius_of chain3) e) ∧
        (∀ rho e1 c1 r1 e2,
           e1.1 = e2.1 ∨ e1.2 = e2.2 →
           switch_candidate (central_difference_of chain3) rho e1 c1 r1 e2 = false).
Proof.
  split; [exact chain3_attrs|].
  apply (make_switches_spec chain3 chain3_attrs).
Defined.

(** C3 (as stated) fails.  In the prepared chain 0 -> 1 -> 2 the edges
    [(0, 1)] and [(1, 2)] share the node 1, and [make_switches] exchanges
    their radii. *)
Lemma make_switches_swaps_edges_sharing_an_endpoint :
  ∃ G', make_switches chain3 = Ok G' ∧
        share_endpoint (0, 1) (1, 2) ∧
        radius_of chain3 (0, 1) = Some 1%float ∧
        radius_of chain3 (1, 2) = Some 2%float ∧
        radius_of G' (0, 1) = Some 2%float ∧
        radius_of G' (1, 2) = Some 1%float.
Proof.
  eexists. split; [vm_compute; reflexivity|].
  split; [right; right; left; reflexivity|].
  repeat split; vm_compute; reflexivity.
Qed.

(** C2: the code departs from the claim and from its own docstring.  On
    the prepared chain 0 -> 1 -> 2 (designated source 0, designated sink
    2) and the edge [(0, 1)], the second distance is measured from the
    source endpoint 0 (two steps to the sink) and the result is
    [|0 - 2| = 2]; measured from the sink endpoint 1, as documented, it
    is one step and the result would be [|0 - 1| = 1]. *)
Theorem central_difference_measures_from_source_endpoint :
  dist_edge_node chain3 (0, 1) 2 = Ok 2 ∧
  shortest_path_length chain3 1 2 = Ok 1 ∧
  central_difference chain3 (0, 1) = Ok 2 ∧
  central_difference_spec chain3 (0, 1) = Ok 1.
Proof. repeat split; vm_compute; reflexivity. Qed.

(** ** The grid: indices and node ids *)

Lemma map_flat_map {A B C : Type} (f : B → C) (g : A → list B) (l : list A) :
  map f (flat_map g l) = flat_map (fun a => map f (g a)) l.
Proof.
  induction l as [|a l IH]; simpl; [done|]. by rewrite map_app, IH.
Qed.

Lemma seqZ_snoc (n : Z) : 0 ≤ n → seqZ 0 (Z.succ n) = seqZ 0 n ++ [n].
Proof.
  intros Hn. replace (Z.succ n) with (n + 1) by lia.
  rewrite seqZ_app by lia. f_equal.
Qed.

Lemma flat_map_seqZ_blocks (a n m : Z) :
  0 ≤ n → 0 ≤ m →
  flat_map (fun i => seqZ (a + i * n) n) (seqZ 0 m) = seqZ a (m * n).
Proof.
  intros Hn Hm. revert m Hm. apply natlike_ind.
  - by rewrite !seqZ_nil by lia.
  - intros m Hm IH. rewrite seqZ_snoc by done.
    rewrite flat_map_app, IH. simpl. rewrite app_nil_r.
    replace (Z.succ m * n) with (m * n + n) by lia.
    rewrite (seqZ_app a (m * n) n) by lia. done.
Qed.

Lemma elem_of_coords N x y z :
  (x, y, z) ∈ coords N ↔ (0 ≤ x < N) ∧ (0 ≤ y < N) ∧ (0 ≤ z < N).
Proof.
  unfold coords, range. rewrite list_elem_of_In, in_flat_map. split.
  - intros (x' & Hx & Hin). apply in_flat_map in Hin as (y' & Hy & Hin).
    apply in_map_iff in Hin as (z' & [= -> -> ->] & Hz).
    apply list_elem_of_In, elem_of_seqZ in Hx, Hy, Hz. lia.
  - intros (Hx & Hy & Hz). exists x. split.
    { apply list_elem_of_In, elem_of_seqZ. lia. }
    apply in_flat_map. exists y. split.
    { apply list_elem_of_In, elem_of_seqZ. lia. }
    apply in_map_iff. exists z. split; [done|].
    apply list_elem_of_In, elem_of_seqZ. lia.
Qed.

Lemma node_ids_seq N :
  0 ≤ N → map (node_id N) (coords N) = seqZ 0 (N * N * N).
Proof.
  intros HN. unfold coords, range. rewrite map_flat_map.
  rewrite (flat_map_ext _ (fun x => seqZ (0 + x * (N * N)) (N * N))).
  - rewrite flat_map_seqZ_blocks by lia. f_equal. lia.
  - intros x. rewrite map_flat_map.
    rewrite (flat_map_ext _ (fun y => seqZ (x * N * N + y * N) N)).
    + rewrite flat_map_seqZ_blocks by lia. f_equal. lia.
    + intros y. rewrite map_map. unfold node_id. simpl.
      pose proof (fmap_add_seqZ (x * N * N + y * N) 0 N) as H.
      rewrite Z.add_0_r in H. exact H.
Qed.

Lemma NoDup_node_ids N : NoDup (map (node_id N) (coords N)).
Proof.
  destruct (decide (0 ≤ N)) as [HN|HN].
  - rewrite node_ids_seq by done. apply NoDup_seqZ.
  - unfold coords, range. rewrite seqZ_nil by lia. constructor.
Qed.

Lemma node_id_inj N c c' :
  c ∈ coords N → c' ∈ coords N → node_id N c = node_id N c' → c = c'.
Proof.
  intros Hc Hc' Heq.
  pose proof (NoDup_node_ids N) as Hnd.
  apply list_elem_of_lookup in Hc as [i Hi], Hc' as [j Hj].
  assert (i = j) as ->.
  { apply (NoDup_lookup _ i j (node_id N c) Hnd).
    - change (map (node_id N) (coords N)) with (node_id N <$> coords N).
      by rewrite list_lookup_fmap, Hi.
    - change (map (node_id N) (coords N)) with (node_id N <$> coords N).
      by rewrite list_lookup_fmap, Hj, Heq. }
  congruence.
Qed.

Lemma length_coords N : Z.of_nat (length (coords N)) = Z.max 0 (N * N * N).
Proof.
  destruct (decide (0 ≤ N)) as [HN|HN].
  - rewrite <- (length_map (node_id N)), node_ids_seq, length_seqZ by done. nia.
  - unfold coords, range. rewrite seqZ_nil by lia. simpl. nia.
Qed.

Lemma forward_neighbours_coords N c c' :
  c ∈ coords N → c' ∈ forward_neighbours N c → c' ∈ coords N.
Proof.
  destruct c as [[x y] z]. rewrite elem_of_coords. intros (Hx & Hy & Hz).
  unfold forward_neighbours; simpl. rewrite !elem_of_app.
  intros [H|[H|H]]; case_decide; try (by apply elem_of_nil in H);
    apply list_elem_of_singleton in H as ->; apply elem_of_coords; lia.
Qed.

Lemma forward_neighbours_axis N c c' :
  c' ∈ forward_neighbours N c → axis_neighbours c c'.
Proof.
  unfold forward_neighbours, axis_neighbours. rewrite !elem_of_app.
  intros [H|[H|H]]; case_decide; try (by apply elem_of_nil in H);
    apply list_elem_of_singleton in H as ->; tauto.
Qed.

(** ** The grid: the node loop *)

Lemma for_grid_coords {S : Type} N (body : grid_index → S → result S) s :
  for_grid N body s = for_each (coords N) body s.
Proof.
  unfold for_grid, coords. rewrite for_each_flat_map.
  apply for_each_ext. intros x s1 _. rewrite for_each_flat_map.
  apply for_each_ext. intros y s2 _. by rewrite for_each_map.
Qed.

Lemma for_each_pure {A S : Type} (f : S → A → S) (body : A → S → result S)
  (l : list A) s :
  (∀ a s, a ∈ l → body a s = Ok (f s a)) →
  for_each l body s = Ok (fold_left f l s).
Proof.
  revert s. induction l as [|a l IH]; intros s H; simpl; [done|].
  rewrite H by left. simpl. apply IH. intros; apply H; by right.
Qed.

Lemma add_grid_nodes_loop (N : Z) (delta : float) (cs : list grid_index)
  (vd : gmap grid_index Z) (k : Z) (G : DiGraph) :
  map (node_id N) cs = seqZ k (Z.of_nat (length cs)) →
  for_each cs
    (fun c '((vd, counter, G) : gmap grid_index Z * Z * DiGraph) =>
       Ok (<[c := counter]> vd,
           counter + 1,
           add_node counter
             (fun a => set_ntype Internal (set_pos (node_pos delta c) a)) G))
    (vd, k, G)
  = Ok (fold_left (fun vd c => <[c := node_id N c]> vd) cs vd,
        k + Z.of_nat (length cs),
        fold_left
          (fun G c =>
             add_node (node_id N c)
               (fun a => set_ntype Internal (set_pos (node_pos delta c) a)) G)
          cs G).
Proof.
  revert vd k G. induction cs as [|c cs IH]; intros vd k G Hids.
  - simpl. by rewrite Z.add_0_r.
  - cbn [length map] in Hids. rewrite seqZ_cons in Hids by lia.
    injection Hids as Hc Hrest.
    replace (Z.pred (Z.of_nat (S (length cs)))) with (Z.of_nat (length cs))
      in Hrest by lia.
    cbn [for_each fold_left]. cbn [mbind result_bind].
    rewrite IH by (by replace (k + 1) with (Z.succ k) by lia).
    rewrite Hc. replace (k + 1 + Z.of_nat (length cs))
      with (k + Z.of_nat (length (c :: cs))) by (cbn [length]; lia).
    done.
Qed.

Lemma grid_vd_lookup_fold (num : grid_index → Z) (cs : list grid_index)
  (vd : gmap grid_index Z) c :
  fold_left (fun vd c => <[c := num c]> vd) cs vd !! c
  = if decide (c ∈ cs) then Some (num c) else vd !! c.
Proof.
  revert vd. induction cs as [|c0 cs IH]; intros vd; cbn [fold_left].
  - rewrite decide_False; [done | apply not_elem_of_nil].
  - rewrite IH. destruct (decide (c ∈ cs)) as [Hin|Hnin].
    + rewrite decide_True; [done | by right].
    + destruct (decide (c = c0)) as [->|Hne].
      * rewrite decide_True by left. apply lookup_insert_eq.
      * rewrite decide_False by (intros [?|?]%elem_of_cons; done).
        by apply lookup_insert_ne.
Qed.

Lemma grid_vd_lookup N c :
  grid_vd N !! c = if decide (c ∈ coords N) then Some (node_id N c) else None.
Proof.
  unfold grid_vd. rewrite grid_vd_lookup_fold. by case_decide.
Qed.

Lemma vd_get_grid N c : c ∈ coords N → vd_get (grid_vd N) c = Ok (node_id N c).
Proof.
  intros Hc. unfold vd_get. by rewrite grid_vd_lookup, decide_True.
Qed.

Lemma add_nodes_fresh (num : grid_index → Z)
  (upd : grid_index → node_attrs → node_attrs) (cs : list grid_index) g nd sc :
  NoDup (map num cs) →
  (∀ c, c ∈ cs → num c ∉ keys nd ∧ num c ∉ keys sc) →
  fold_left (fun G c => add_node (num c) (upd c) G) cs (MkDiGraph g nd sc)
  = MkDiGraph g (nd ++ map (fun c => (num c, upd c no_node_attrs)) cs)
      (sc ++ map (fun c => (num c, [])) cs).
Proof.
  revert nd sc. induction cs as [|c cs IH]; intros nd sc Hnd Hfresh; simpl.
  - by rewrite !app_nil_r.
  - apply NoDup_cons in Hnd as [Hc Hnd].
    destruct (Hfresh c) as [Hn Hs]; [left|].
    unfold add_node at 2. simpl.
    rewrite (proj2 (od_get_None nd (num c)) Hn).
    rewrite !keys_od_set_notin by done.
    rewrite IH; [by rewrite <- !app_assoc | done |].
    intros c' Hc'. destruct (Hfresh c') as [Hn' Hs']; [by right|].
    unfold keys in *. rewrite !fmap_app, !not_elem_of_app. simpl.
    assert (num c' ≠ num c).
    { intros Heq. apply Hc. rewrite <- Heq.
      apply list_elem_of_fmap. eauto. }
    split; (split; [done|]); by rewrite list_elem_of_singleton.
Qed.

Lemma add_grid_nodes_spec N delta :
  0 ≤ N →
  add_grid_nodes N delta
    (set_graph (set_g_delta delta) (set_graph (set_g_N N) empty_graph))
  = Ok (grid_vd N, N * N * N, bare_grid_graph N delta).
Proof.
  intros HN. unfold add_grid_nodes. rewrite for_grid_coords.
  rewrite (add_grid_nodes_loop N delta).
  - f_equal. f_equal; [f_equal|].
    + pose proof (length_coords N). lia.
    + unfold set_graph, empty_graph; simpl.
      rewrite (add_nodes_fresh (node_id N)
                 (fun c a => set_ntype Internal (set_pos (node_pos delta c) a))).
      * done.
      * apply NoDup_node_ids.
      * intros c _. split; apply not_elem_of_nil.
  - rewrite node_ids_seq by done. f_equal.
    pose proof (length_coords N). lia.
Qed.

(** ** The grid: the edge loop *)

Lemma forward_edges_grid N c :
  c ∈ coords N →
  forward_edges N (grid_vd N) c
  = Ok (map (pair (node_id N c)) (map (node_id N) (forward_neighbours N c))).
Proof.
  intros Hc. destruct c as [[x y] z].
  pose proof Hc as (Hx & Hy & Hz)%elem_of_coords.
  unfold forward_edges, forward_neighbours. cbn [fst snd].
  destruct (decide (x < N - 1)); destruct (decide (y < N - 1));
    destruct (decide (z < N - 1)); cbn [mbind result_bind];
    repeat (rewrite vd_get_grid by (apply elem_of_coords; lia);
            cbn [mbind result_bind]);
    reflexivity.
Qed.

Lemma od_get_app_mid {K V : Type} `{EqDecision K} (d1 d2 : odict K V) k v :
  k ∉ keys d1 → od_get k (d1 ++ (k, v) :: d2) = Some v.
Proof.
  unfold keys. induction d1 as [|[k1 v1] d1 IH]; simpl; intros Hk.
  - by rewrite decide_True.
  - apply not_elem_of_cons in Hk as [? ?]. rewrite decide_False by done. auto.
Qed.

Lemma od_set_app_mid {K V : Type} `{EqDecision K} (d1 d2 : odict K V) k v v' :
  k ∉ keys d1 → od_set k v' (d1 ++ (k, v) :: d2) = d1 ++ (k, v') :: d2.
Proof.
  unfold keys. induction d1 as [|[k1 v1] d1 IH]; simpl; intros Hk.
  - by rewrite decide_True.
  - apply not_elem_of_cons in Hk as [? ?]. rewrite decide_False by done.
    by rewrite IH.
Qed.

Lemma add_node_known n g nd sc :
  n ∈ keys nd → add_node n id (MkDiGraph g nd sc) = MkDiGraph g nd sc.
Proof.
  intros Hn. apply od_get_is_Some in Hn as [a Ha].
  unfold add_node; simpl. rewrite Ha. by rewrite od_set_same.
Qed.

Lemma add_edge_known u v g nd d1 nbrs d2 :
  u ∈ keys nd → v ∈ keys nd → u ∉ keys d1 → v ∉ keys nbrs →
  add_edge u v (MkDiGraph g nd (d1 ++ (u, nbrs) :: d2))
  = MkDiGraph g nd (d1 ++ (u, nbrs ++ [(v, no_edge_attrs)]) :: d2).
Proof.
  intros Hu Hv Hd1 Hnb. unfold add_edge.
  rewrite !add_node_known by done. cbn [graph node succ].
  rewrite od_get_app_mid by done. cbn [default].
  rewrite (proj2 (od_get_None nbrs v) Hnb). cbn [default].
  rewrite od_set_app_mid by done. by rewrite keys_od_set_notin.
Qed.

Lemma add_edges_from_known u (ts : list Z) g nd d1 nbrs d2 :
  u ∈ keys nd → (∀ t, t ∈ ts → t ∈ keys nd) → u ∉ keys d1 →
  NoDup ts → (∀ t, t ∈ ts → t ∉ keys nbrs) →
  add_edges_from (map (pair u) ts) (MkDiGraph g nd (d1 ++ (u, nbrs) :: d2))
  = MkDiGraph g nd
      (d1 ++ (u, nbrs ++ map (fun t => (t, no_edge_attrs)) ts) :: d2).
Proof.
  intros Hu Hts Hd1. unfold add_edges_from. revert nbrs.
  induction ts as [|t ts IH]; intros nbrs Hnd Hfresh; simpl.
  - by rewrite app_nil_r.
  - apply NoDup_cons in Hnd as [Ht Hnd].
    rewrite add_edge_known; [|done|apply Hts; left|done|apply Hfresh; left].
    rewrite IH.
    + by rewrite <- app_assoc.
    + intros t' Ht'. apply Hts. by right.
    + done.
    + intros t' Ht'. unfold keys. rewrite fmap_app, not_elem_of_app. split.
      * apply Hfresh. by right.
      * simpl. rewrite list_elem_of_singleton. congruence.
Qed.

Lemma NoDup_forward_neighbours N c : NoDup (forward_neighbours N c).
Proof.
  destruct c as [[x y] z]. unfold forward_neighbours. cbn [fst snd].
  repeat case_decide; simpl; repeat constructor;
    rewrite ?elem_of_cons, ?elem_of_nil;
    intros H'; destruct_or?; try done; injection H'; lia.
Qed.

Lemma NoDup_forward_ids N c :
  c ∈ coords N → NoDup (map (node_id N) (forward_neighbours N c)).
Proof.
  intros Hc. apply NoDup_fmap_2_strong; [|apply NoDup_forward_neighbours].
  intros c1 c2 H1 H2. apply node_id_inj; by eapply forward_neighbours_coords.
Qed.

Lemma add_grid_edges_fold N g nd (done_ cs : list grid_index) :
  NoDup (map (node_id N) (done_ ++ cs)) →
  (∀ c, c ∈ cs → c ∈ coords N) →
  (∀ c, c ∈ coords N → node_id N c ∈ keys nd) →
  fold_left
    (fun G c =>
       add_edges_from
         (map (pair (node_id N c)) (map (node_id N) (forward_neighbours N c))) G)
    cs
    (MkDiGraph g nd
       (map (grid_adjacency N) done_ ++ map (fun c => (node_id N c, [])) cs))
  = MkDiGraph g nd (map (grid_adjacency N) (done_ ++ cs)).
Proof.
  revert done_. induction cs as [|c cs IH]; intros done_ Hnd Hcs Hnodes; simpl.
  - by rewrite !app_nil_r.
  - assert (Hc : c ∈ coords N) by (apply Hcs; left).
    rewrite add_edges_from_known.
    + replace (done_ ++ c :: cs) with ((done_ ++ [c]) ++ cs)
        by (by rewrite <- app_assoc).
      rewrite <- IH.
      * rewrite map_app. simpl. rewrite <- app_assoc. simpl.
        unfold grid_adjacency at 3. by rewrite map_map.
      * by rewrite <- app_assoc.
      * intros c' Hc'. apply Hcs. by right.
      * done.
    + by apply Hnodes.
    + intros t (c' & -> & Hc')%list_elem_of_fmap.
      apply Hnodes. by eapply forward_neighbours_coords.
    + rewrite map_app in Hnd. apply NoDup_app in Hnd as (_ & Hdisj & _).
      unfold keys. intros Hin. apply (Hdisj (node_id N c)).
      * apply list_elem_of_fmap in Hin as ([k nb] & Hk & Hin).
        apply list_elem_of_fmap in Hin as (c' & [= -> ->] & Hc').
        simpl in Hk. rewrite Hk. apply list_elem_of_fmap. eauto.
      * simpl. left.
    + by apply NoDup_forward_ids.
    + intros t _. apply not_elem_of_nil.
Qed.

Lemma add_grid_edges_spec N delta :
  add_grid_edges N (grid_vd N) (bare_grid_graph N delta)
  = Ok (grid_graph N delta).
Proof.
  unfold add_grid_edges. rewrite for_grid_coords.
  rewrite (for_each_pure
             (fun G c =>
                add_edges_from
                  (map (pair (node_id N c))
                     (map (node_id N) (forward_neighbours N c))) G)).
  - f_equal. unfold bare_grid_graph, grid_graph.
    apply (add_grid_edges_fold N _ _ []).
    + apply NoDup_node_ids.
    + done.
    + intros c Hc. unfold keys. rewrite <- list_fmap_compose.
      apply list_elem_of_fmap. eauto.
  - intros c G Hc. by rewrite forward_edges_grid.
Qed.

(** The graph after lines 143 to 171. *)
Lemma build_grid_spec N delta :
  0 ≤ N → int_truediv 1 (N + 1) = Ok delta →
  build_grid N = Ok (grid_vd N, grid_graph N delta).
Proof.
  intros HN Hdelta. unfold build_grid. rewrite Hdelta. cbn [mbind result_bind].
  rewrite add_grid_nodes_spec by done. cbn [mbind result_bind].
  by rewrite add_grid_edges_spec.
Qed.

Lemma int_truediv_succ N :
  0 ≤ N → ∃ delta, int_truediv 1 (N + 1) = Ok delta.
Proof.
  intros HN. unfold int_truediv. rewrite decide_False by lia. eauto.
Qed.

(** ** The grid: marking the faces *)

Lemma od_get_map_key {A K V : Type} `{EqDecision K} (key : A → K)
  (val : A → V) (l : list A) a :
  NoDup (map key l) → a ∈ l →
  od_get (key a) (map (fun a => (key a, val a)) l) = Some (val a).
Proof.
  intros Hnd Ha. apply od_get_elem.
  - unfold keys. rewrite <- list_fmap_compose. exact Hnd.
  - apply list_elem_of_fmap. eauto.
Qed.

Lemma od_set_map_key {A K V : Type} `{EqDecision K} `{EqDecision A}
  (key : A → K) (val : A → V) (l : list A) a0 v :
  NoDup (map key l) → a0 ∈ l →
  od_set (key a0) v (map (fun a => (key a, val a)) l)
  = map (fun a => (key a, if decide (a = a0) then v else val a)) l.
Proof.
  induction l as [|a l IH]; intros Hnd Ha0; simpl.
  - by apply elem_of_nil in Ha0.
  - apply NoDup_cons in Hnd as [Ha Hnd].
    destruct (decide (a = a0)) as [->|Hne].
    + rewrite decide_True by done. f_equal.
      apply map_ext_in. intros a Hin. rewrite decide_False; [done|].
      intros ->. apply Ha, list_elem_of_fmap. exists a0.
      split; [done | by apply list_elem_of_In].
    + apply elem_of_cons in Ha0 as [?|Ha0]; [congruence|].
      rewrite decide_False.
      * f_equal. by apply IH.
      * intros Heq. apply Ha. rewrite <- Heq. apply list_elem_of_fmap. eauto.
Qed.

Lemma set_node_data_marked N (val : grid_index → node_attrs) g sc c0 r :
  c0 ∈ coords N →
  set_node_data (set_ntype r) (node_id N c0)
    (MkDiGraph g (map (fun c => (node_id N c, val c)) (coords N)) sc)
  = Ok (MkDiGraph g
          (map (fun c => (node_id N c,
                          if decide (c = c0) then set_ntype r (val c0) else val c))
               (coords N))
          sc).
Proof.
  intros Hc0. unfold set_node_data, getitem. cbn [node graph succ].
  rewrite (od_get_map_key (node_id N)) by (apply NoDup_node_ids || done).
  cbn [mbind result_bind]. do 2 f_equal.
  apply (od_set_map_key (node_id N)); [apply NoDup_node_ids | done].
Qed.

Lemma elem_of_face_indices N x y :
  (x, y) ∈ face_indices N ↔ (0 ≤ x < N) ∧ (0 ≤ y < N).
Proof.
  unfold face_indices, range. rewrite list_elem_of_In, in_flat_map. split.
  - intros (x' & Hx & Hin). apply in_map_iff in Hin as (y' & [= -> ->] & Hy).
    apply list_elem_of_In, elem_of_seqZ in Hx, Hy. lia.
  - intros [Hx Hy]. exists x. split.
    { apply list_elem_of_In, elem_of_seqZ. lia. }
    apply in_map_iff. exists y. split; [done|].
    apply list_elem_of_In, elem_of_seqZ. lia.
Qed.

Lemma mark_step N delta g sc (marked : list (Z * Z)) x y :
  (x, y) ∈ face_indices N →
  (if decide (y mod 2 ≠ x mod 2)
   then Ok (MkDiGraph g (marked_nodes N delta marked) sc)
   else
     n ← vd_get (grid_vd N) (x, y, 0);
     G1 ← set_node_data (set_ntype Source) n
             (MkDiGraph g (marked_nodes N delta marked) sc);
     n' ← vd_get (grid_vd N) (x, y, N - 1);
     set_node_data (set_ntype Sink) n' G1)
  = Ok (MkDiGraph g (marked_nodes N delta (marked ++ [(x, y)])) sc).
Proof.
  intros [Hx Hy]%elem_of_face_indices.
  assert (Hmem : ∀ c : grid_index,
             (c.1.1, c.1.2) ∈ marked ++ [(x, y)]
             ↔ (c.1.1, c.1.2) ∈ marked ∨ (c.1.1 = x ∧ c.1.2 = y)).
  { intros c. rewrite elem_of_app, list_elem_of_singleton. naive_solver. }
  destruct (decide (y mod 2 ≠ x mod 2)) as [Hodd|Heven].
  - do 2 f_equal. unfold marked_nodes. apply map_ext_in.
    intros [[x' y'] z'] _. f_equal. f_equal. cbn [fst snd].
    specialize (Hmem (x', y', z')). cbn [fst snd] in Hmem.
    destruct (decide ((x', y') ∈ marked)) as [Hin|Hnin].
    + rewrite decide_True by (apply Hmem; by left). done.
    + destruct (decide (x' = x ∧ y' = y)) as [[-> ->]|Hne].
      * rewrite decide_True by (apply Hmem; by right).
        unfold grid_role. cbn [fst snd]. by rewrite decide_False.
      * rewrite decide_False; [done|]. rewrite Hmem. tauto.
  - assert (H0 : (x, y, 0) ∈ coords N) by (apply elem_of_coords; lia).
    assert (H1 : (x, y, N - 1) ∈ coords N) by (apply elem_of_coords; lia).
    rewrite !vd_get_grid by done. cbn [mbind result_bind].
    unfold marked_nodes at 1.
    rewrite (set_node_data_marked N) by done. cbn [mbind result_bind].
    rewrite (set_node_data_marked N) by done.
    do 2 f_equal. unfold marked_nodes. apply map_ext_in.
    intros [[x' y'] z'] Hc'. f_equal. cbn [fst snd].
    apply list_elem_of_In, elem_of_coords in Hc'.
    specialize (Hmem (x', y', z')). cbn [fst snd] in Hmem.
    unfold grid_node_attrs, set_ntype, grid_role. cbn [pos ntype fst snd].
    destruct (decide ((x', y', z') = (x, y, N - 1))) as [[= -> -> ->]|Hne1].
    { rewrite (decide_True (P := (x, y) ∈ marked ++ [(x, y)]))
        by (apply Hmem; by right).
      rewrite (decide_True (P := y mod 2 = x mod 2)) by lia.
      rewrite (decide_True (P := N - 1 = N - 1)) by done.
      destruct (decide ((x, y, N - 1) = (x, y, 0))) as [[= HN]|?];
        cbn [pos]; [rewrite HN|]; reflexivity. }
    destruct (decide ((x', y', z') = (x, y, 0))) as [[= -> -> ->]|Hne0].
    { rewrite (decide_True (P := (x, y) ∈ marked ++ [(x, y)]))
        by (apply Hmem; by right).
      rewrite (decide_True (P := y mod 2 = x mod 2)) by lia.
      rewrite (decide_False (P := 0 = N - 1)) by congruence.
      rewrite (decide_True (P := 0 = 0)) by done. reflexivity. }
    destruct (decide ((x', y') ∈ marked)) as [Hin|Hnin].
    + rewrite (decide_True (P := (x', y') ∈ marked ++ [(x, y)]))
        by (apply Hmem; by left).
      done.
    + destruct (decide (x' = x ∧ y' = y)) as [[-> ->]|Hne].
      * rewrite (decide_True (P := (x, y) ∈ marked ++ [(x, y)]))
          by (apply Hmem; by right).
        rewrite (decide_True (P := y mod 2 = x mod 2)) by lia.
        rewrite (decide_False (P := z' = N - 1)) by congruence.
        rewrite (decide_False (P := z' = 0)) by congruence. done.
      * rewrite (decide_False (P := (x', y') ∈ marked ++ [(x, y)])); [done|].
        rewrite Hmem. tauto.
Qed.

Lemma fold_left_snoc_all {A : Type} (l acc : list A) :
  fold_left (fun t a => t ++ [a]) l acc = acc ++ l.
Proof.
  revert acc. induction l as [|a l IH]; intros acc; simpl.
  - by rewrite app_nil_r.
  - by rewrite IH, <- app_assoc.
Qed.

Lemma marked_nodes_nil N delta :
  marked_nodes N delta []
  = map (fun c => (node_id N c, grid_node_attrs N delta Internal c)) (coords N).
Proof.
  unfold marked_nodes. apply map_ext. intros c.
  rewrite decide_False; [done | apply not_elem_of_nil].
Qed.

Lemma mark_sources_and_sinks_spec N delta :
  mark_sources_and_sinks N (grid_vd N) (grid_graph N delta)
  = Ok (marked_grid_graph N delta).
Proof.
  unfold mark_sources_and_sinks.
  transitivity
    (for_each (face_indices N)
       (fun xy G =>
          if decide (xy.2 mod 2 ≠ xy.1 mod 2) then Ok G
          else
            n ← vd_get (grid_vd N) (xy.1, xy.2, 0);
            G1 ← set_node_data (set_ntype Source) n G;
            n' ← vd_get (grid_vd N) (xy.1, xy.2, N - 1);
            set_node_data (set_ntype Sink) n' G1)
       (grid_graph N delta)).
  { unfold face_indices. rewrite for_each_flat_map.
    apply for_each_ext. intros x G _. by rewrite for_each_map. }
  destruct (for_each_simulation
              (fun G marked =>
                 G = MkDiGraph (GraphAttrs (Some N) (Some delta) None None)
                       (marked_nodes N delta marked)
                       (map (grid_adjacency N) (coords N)))
              (face_indices N)
              (fun xy G =>
                 if decide (xy.2 mod 2 ≠ xy.1 mod 2) then Ok G
                 else
                   n ← vd_get (grid_vd N) (xy.1, xy.2, 0);
                   G1 ← set_node_data (set_ntype Source) n G;
                   n' ← vd_get (grid_vd N) (xy.1, xy.2, N - 1);
                   set_node_data (set_ntype Sink) n' G1)
              (fun t a => t ++ [a]) (grid_graph N delta) [])
    as (G' & Hrun & HG').
  - unfold grid_graph. by rewrite marked_nodes_nil.
  - intros [x y] G marked Hxy ->. eexists. split; [|reflexivity].
    by apply (mark_step N delta).
  - rewrite Hrun, HG'. by rewrite fold_left_snoc_all.
Qed.

(** ** Adding and removing edges *)

Lemma od_get_split {K V : Type} `{EqDecision K} (d : odict K V) k v :
  od_get k d = Some v → ∃ d1 d2, d = d1 ++ (k, v) :: d2 ∧ k ∉ keys d1.
Proof.
  unfold keys. induction d as [|[k1 v1] d IH]; simpl; [done|].
  destruct (decide (k = k1)) as [->|Hne].
  - intros [= ->]. exists [], d. split; [done | apply not_elem_of_nil].
  - intros Hget. destruct (IH Hget) as (d1 & d2 & -> & Hk).
    exists ((k1, v1) :: d1), d2. split; [done|].
    simpl. by apply not_elem_of_cons.
Qed.

Lemma elem_of_adj_edges d u v :
  (u, v) ∈ adj_edges d ↔ ∃ nbrs, (u, nbrs) ∈ d ∧ v ∈ keys nbrs.
Proof.
  unfold adj_edges. rewrite list_elem_of_In, in_flat_map. split.
  - intros ([u' nbrs] & Hun & Hv).
    apply list_elem_of_In, list_elem_of_fmap in Hv as (v' & [= -> ->] & Hv).
    exists nbrs. split; [by apply list_elem_of_In | done].
  - intros (nbrs & Hun & Hv). exists (u, nbrs).
    split; [by apply list_elem_of_In|].
    apply list_elem_of_In, list_elem_of_fmap. eauto.
Qed.

Lemma adj_edges_source d u v : (u, v) ∈ adj_edges d → u ∈ keys d.
Proof.
  intros (nbrs & Hun & _)%elem_of_adj_edges.
  apply list_elem_of_fmap. by exists (u, nbrs).
Qed.

Lemma adj_edges_app d1 d2 : adj_edges (d1 ++ d2) = adj_edges d1 ++ adj_edges d2.
Proof. unfold adj_edges. apply flat_map_app. Qed.

(** Replacing the adjacency entry of [u]. *)
Lemma replace_neighbours G u nbrs nbrs' :
  wf_graph G → od_get u (succ G) = Some nbrs →
  NoDup (keys nbrs') → (∀ v, v ∈ keys nbrs' → v ∈ nodes G) →
  wf_graph (MkDiGraph (graph G) (node G) (od_set u nbrs' (succ G))) ∧
  (∀ a b, (a, b) ∈ edges (MkDiGraph (graph G) (node G) (od_set u nbrs' (succ G)))
          ↔ if decide (a = u) then b ∈ keys nbrs' else (a, b) ∈ edges G) ∧
  (∀ b, (u, b) ∈ edges G ↔ b ∈ keys nbrs) ∧
  (length (edges (MkDiGraph (graph G) (node G) (od_set u nbrs' (succ G))))
   + length nbrs
   = length (edges G) + length nbrs')%nat.
Proof.
  intros (Hnd & Hin & Hkeys & Hclosed) Hget Hnd' Hnodes'.
  destruct (od_get_split _ _ _ Hget) as (d1 & d2 & Hsucc & Hu1).
  assert (Hu2 : u ∉ keys d2).
  { rewrite Hsucc in Hnd. unfold keys in *. rewrite fmap_app in Hnd.
    apply NoDup_app in Hnd as (_ & _ & Hnd). by apply NoDup_cons in Hnd as []. }
  assert (Hset : od_set u nbrs' (succ G) = d1 ++ (u, nbrs') :: d2).
  { rewrite Hsucc. by apply od_set_app_mid. }
  assert (Hmem : ∀ nb a b,
             (a, b) ∈ adj_edges (d1 ++ (u, nb) :: d2)
             ↔ if decide (a = u) then b ∈ keys nb
               else (a, b) ∈ adj_edges d1 ∨ (a, b) ∈ adj_edges d2).
  { intros nb a b.
    change (d1 ++ (u, nb) :: d2) with (d1 ++ [(u, nb)] ++ d2).
    rewrite !adj_edges_app, !elem_of_app. unfold adj_edges at 2. simpl.
    rewrite app_nil_r. destruct (decide (a = u)) as [->|Hne].
    - split; [|intros; right; left; apply list_elem_of_fmap; eauto].
      intros [H|[H|H]].
      + by apply adj_edges_source in H.
      + by apply list_elem_of_fmap in H as (b' & [= ->] & ?).
      + by apply adj_edges_source in H.
    - split; [|tauto]. intros [H|[H|H]]; [tauto| |tauto].
      by apply list_elem_of_fmap in H as (b' & [= -> ->] & ?). }
  unfold edges. cbn [succ]. fold (adj_edges (od_set u nbrs' (succ G))).
  fold (adj_edges (succ G)). rewrite Hset.
  assert (Hold : ∀ a b, (a, b) ∈ adj_edges (succ G)
                        ↔ if decide (a = u) then b ∈ keys nbrs
                          else (a, b) ∈ adj_edges d1 ∨ (a, b) ∈ adj_edges d2).
  { intros a b. rewrite Hsucc. apply Hmem. }
  split_and!.
  - unfold wf_graph. cbn [succ node graph]. rewrite <- Hset. split_and!.
    + apply NoDup_keys_od_set. done.
    + rewrite Hset. rewrite Hsucc in Hin.
      apply Forall_app in Hin as [Hin1 Hin2].
      apply Forall_cons in Hin2 as [_ Hin2].
      apply Forall_app. split; [done|]. by apply Forall_cons.
    + rewrite keys_od_set_in; [done|]. apply od_get_is_Some. eauto.
    + unfold edges. cbn [succ]. fold (adj_edges (od_set u nbrs' (succ G))).
      rewrite Hset. apply Forall_forall. intros [a b] Hab. simpl.
      apply Hmem in Hab. destruct (decide (a = u)) as [->|Hne].
      * by apply Hnodes'.
      * rewrite Forall_forall in Hclosed.
        apply (Hclosed (a, b)). unfold edges. fold (adj_edges (succ G)).
        apply Hold. by rewrite decide_False.
  - intros a b. rewrite Hmem. destruct (decide (a = u)) as [->|Hne]; [done|].
    rewrite Hold. by rewrite decide_False.
  - intros b. rewrite Hold. by rewrite decide_True.
  - rewrite Hsucc.
    change (d1 ++ (u, nbrs') :: d2) with (d1 ++ [(u, nbrs')] ++ d2).
    change (d1 ++ (u, nbrs) :: d2) with (d1 ++ [(u, nbrs)] ++ d2).
    rewrite !adj_edges_app, !length_app. unfold adj_edges at 2 5. simpl.
    rewrite !app_nil_r, !length_map. unfold keys. rewrite !length_fmap. lia.
Qed.

Lemma remove_edge_spec u v G :
  wf_graph G → (u, v) ∈ edges G →
  ∃ G', remove_edge u v G = Ok G' ∧ wf_graph G' ∧
        node G' = node G ∧ graph G' = graph G ∧
        (∀ e, e ∈ edges G' ↔ e ∈ edges G ∧ e ≠ (u, v)) ∧
        S (length (edges G')) = length (edges G).
Proof.
  intros Hwf He.
  destruct (elem_edges_lookup G (u, v) Hwf He) as [a Ha].
  unfold edge_lookup in Ha. simpl in Ha.
  destruct (od_get u (succ G)) as [nbrs|] eqn:Hu; simpl in Ha; [|done].
  assert (Hv : v ∈ keys nbrs) by (apply od_get_is_Some; eauto).
  assert (Hnd : NoDup (keys nbrs)).
  { destruct Hwf as (_ & Hin & _). rewrite Forall_forall in Hin.
    apply (Hin (u, nbrs)). by apply od_get_Some_elem. }
  destruct (replace_neighbours G u nbrs (od_del v nbrs) Hwf Hu)
    as (Hwf' & Hmem & Hold & Hlen).
  { by apply NoDup_keys_od_del. }
  { intros b Hb. apply elem_of_keys_od_del in Hb as [_ Hb]; [|done].
    apply (wf_edge_endpoints G u b Hwf). by eapply neighbour_is_edge. }
  unfold remove_edge. rewrite Hu, Ha.
  eexists. split; [done|]. split; [done|]. split; [done|]. split; [done|]. split.
  - intros [a' b']. rewrite Hmem. destruct (decide (a' = u)) as [->|Hne].
    + rewrite elem_of_keys_od_del by done. rewrite Hold.
      split; [intros []; split; [done | congruence] | intros [? ?]; split; [congruence | done]].
    + split; [intros; split; [done | congruence] | tauto].
  - pose proof (length_od_del nbrs v Hv). lia.
Qed.

Lemma add_edge_spec u v G :
  wf_graph G → u ∈ nodes G → v ∈ nodes G →
  wf_graph (add_edge u v G) ∧
  node (add_edge u v G) = node G ∧ graph (add_edge u v G) = graph G ∧
  (∀ e, e ∈ edges (add_edge u v G) ↔ e ∈ edges G ∨ e = (u, v)) ∧
  (length (edges (add_edge u v G)) ≤ S (length (edges G)))%nat.
Proof.
  intros Hwf Hu Hv. destruct G as [g nd sc]. unfold add_edge.
  rewrite !add_node_known by done. cbn [graph node succ].
  assert (is_Some (od_get u sc)) as [nbrs Hget].
  { apply od_get_is_Some. destruct Hwf as (_ & _ & Hkeys & _).
    simpl in Hkeys. by rewrite <- Hkeys. }
  rewrite Hget. change (default [] (Some nbrs)) with nbrs.
  assert (Hnd : NoDup (keys nbrs)).
  { destruct Hwf as (_ & Hin & _). rewrite Forall_forall in Hin.
    apply (Hin (u, nbrs)). by apply od_get_Some_elem. }
  set (nbrs' := od_set v (default no_edge_attrs (od_get v nbrs)) nbrs).
  destruct (replace_neighbours (MkDiGraph g nd sc) u nbrs nbrs' Hwf Hget)
    as (Hwf' & Hmem & Hold & Hlen).
  { by apply NoDup_keys_od_set. }
  { intros b [->|Hb]%elem_of_keys_od_set; [done|].
    apply (wf_edge_endpoints _ u b Hwf). by eapply neighbour_is_edge. }
  cbn [graph node succ] in *.
  split; [done|]. split; [done|]. split; [done|]. split.
  - intros [a' b']. rewrite Hmem. destruct (decide (a' = u)) as [->|Hne].
    + unfold nbrs'. rewrite elem_of_keys_od_set, Hold.
      split; [intros [->|?]; [by right | by left]
             | intros [?|[= ->]]; [by right | by left]].
    + split; [by left | intros [?|?]; [done | congruence]].
  - assert (length nbrs' ≤ S (length nbrs))%nat; [|lia].
    unfold nbrs'. destruct (decide (v ∈ keys nbrs)) as [Hin|Hnin].
    + pose proof (keys_od_set_in nbrs v
                    (default no_edge_attrs (od_get v nbrs)) Hin) as Hk.
      apply (f_equal length) in Hk. unfold keys in Hk.
      rewrite !length_fmap in Hk. lia.
    + rewrite keys_od_set_notin by done. rewrite length_app. simpl. lia.
Qed.

(** ** Directing the edges *)

Lemma node_ntype_role G n : node_ntype G n = attr (role_of G n).
Proof.
  unfold node_ntype, role_of, getitem.
  by destruct (od_get n (node G)).
Qed.

Lemma role_of_node G G' n : node G' = node G → role_of G' n = role_of G n.
Proof. intros H. unfold role_of. by rewrite H. Qed.

Lemma reverse_edge_spec u v G :
  wf_graph G → (u, v) ∈ edges G →
  ∃ G', reverse_edge u v G = Ok G' ∧ wf_graph G' ∧
        node G' = node G ∧ graph G' = graph G ∧
        (∀ e, e ∈ edges G' ↔ (e ∈ edges G ∧ e ≠ (u, v)) ∨ e = (v, u)) ∧
        (length (edges G') ≤ length (edges G))%nat.
Proof.
  intros Hwf He.
  destruct (wf_edge_endpoints G u v Hwf He) as [Hu Hv].
  destruct (remove_edge_spec u v G Hwf He)
    as (G1 & Hrun & Hwf1 & Hnode1 & Hgraph1 & Hmem1 & Hlen1).
  unfold reverse_edge. rewrite Hrun. cbn [mbind result_bind].
  destruct (add_edge_spec v u G1 Hwf1)
    as (Hwf2 & Hnode2 & Hgraph2 & Hmem2 & Hlen2).
  { unfold nodes. by rewrite Hnode1. }
  { unfold nodes. by rewrite Hnode1. }
  eexists. split; [done|]. split; [done|].
  split; [congruence|]. split; [congruence|]. split.
  - intros e. by rewrite Hmem2, Hmem1.
  - lia.
Qed.

Section directing.
Context (G0 : DiGraph) (l : list (Z * Z)).
Context (Hwf0 : wf_graph G0) (Hl : ∀ e, e ∈ l → e ∈ edges G0) (Hnd : NoDup l).
Context (Hroles : ∀ n, n ∈ nodes G0 → is_Some (role_of G0 n)).
Context (Halt : roles_alternate G0).

Lemma direct_edge_step u v done_ G :
  (u, v) ∈ l → (u, v) ∉ done_ → directing G0 l done_ G →
  ∃ G',
    (t ← node_ntype G v;
     if decide (t = Source) then reverse_edge u v G
     else
       t' ← node_ntype G u;
       if decide (t' = Sink) then reverse_edge u v G else Ok G) = Ok G' ∧
    directing G0 l (done_ ++ [(u, v)]) G'.
Proof using Hwf0 Hl Hroles Halt.
  intros He Hfresh (Hwf & Hnode & Hgraph & Hpending & Hedges & Hlen).
  destruct (wf_edge_endpoints G0 u v Hwf0 (Hl _ He)) as [Hu Hv].
  destruct (Hroles u Hu) as [ru Hru]. destruct (Hroles v Hv) as [rv Hrv].
  destruct (Halt (u, v) (Hl _ He)) as [Hss Hkk]. cbn [fst snd] in Hss, Hkk.
  rewrite !node_ntype_role, !(role_of_node G0 G) by done.
  rewrite Hru, Hrv. cbn [attr mbind result_bind].
  assert (Hrev : (rv = Source ∨ ru = Sink) →
            ∃ G', reverse_edge u v G = Ok G' ∧
                  directing G0 l (done_ ++ [(u, v)]) G').
  { intros Hflag.
    destruct (reverse_edge_spec u v G Hwf) as
      (G' & Hrun & Hwf' & Hnode' & Hgraph' & Hmem' & Hlen'); [by apply Hpending|].
    exists G'. split; [done|]. split_and!; try congruence.
    - intros e Hel Hne. apply not_elem_of_app in Hne as [Hne1 Hne2].
      apply Hmem'. left. split; [by apply Hpending|].
      by rewrite list_elem_of_singleton in Hne2.
    - intros e [[Hin Hne]| ->]%Hmem'.
      + destruct (Hedges e Hin) as [[Hel Hnd']|Hgood]; [left|by right].
        split; [done|]. rewrite not_elem_of_app, list_elem_of_singleton. done.
      + right. split; [|by right]. unfold well_directed. cbn [fst snd].
        rewrite Hru, Hrv. rewrite Hru, Hrv in Hss, Hkk. split.
        * intros [= ->]. destruct Hflag as [Hf|Hf]; [done|].
          subst ru. by apply Hkk.
        * intros [= ->]. destruct Hflag as [Hf|Hf]; [|done].
          subst rv. by apply Hss.
    - lia. }
  destruct (decide (rv = Source)) as [Hs|Hs]; [apply Hrev; by left|].
  destruct (decide (ru = Sink)) as [Hk|Hk]; [apply Hrev; by right|].
  exists G. split; [done|]. split_and!; try done.
  - intros e Hel Hne. apply not_elem_of_app in Hne as [Hne1 _]. by apply Hpending.
  - intros e Hin. destruct (Hedges e Hin) as [[Hel Hne]|Hgood]; [|by right].
    destruct (decide (e = (u, v))) as [->|Hdiff].
    + right. split; [|by left]. unfold well_directed. cbn [fst snd].
      rewrite Hru, Hrv. split; congruence.
    + left. split; [done|]. rewrite not_elem_of_app, list_elem_of_singleton. done.
Qed.

Lemma direct_edges_loop todo done_ G :
  l = done_ ++ todo → directing G0 l done_ G →
  ∃ G',
    for_each todo
      (fun '(src, sink) G =>
         t ← node_ntype G sink;
         if decide (t = Source) then reverse_edge src sink G
         else
           t' ← node_ntype G src;
           if decide (t' = Sink) then reverse_edge src sink G else Ok G)
      G = Ok G' ∧
    directing G0 l l G'.
Proof using Hwf0 Hl Hnd Hroles Halt.
  revert done_ G. induction todo as [|[u v] todo IH]; intros done_ G Hsplit Hdir.
  - rewrite app_nil_r in Hsplit. subst done_. simpl. eauto.
  - cbn [for_each].
    destruct (direct_edge_step u v done_ G) as (G1 & Hrun & Hdir1); [..|done|].
    + rewrite Hsplit, elem_of_app. right. left.
    + rewrite Hsplit in Hnd. apply NoDup_app in Hnd as (_ & Hdisj & _).
      intros Hin. apply (Hdisj _ Hin). left.
    + rewrite Hrun. cbn [mbind result_bind].
      apply (IH (done_ ++ [(u, v)])); [|done]. by rewrite <- app_assoc.
Qed.
End directing.

Lemma direct_edges_spec (G : DiGraph) :
  wf_graph G →
  (∀ n, n ∈ nodes G → is_Some (role_of G n)) →
  roles_alternate G →
  ∃ G', direct_edges G = Ok G' ∧ wf_graph G' ∧
        node G' = node G ∧ graph G' = graph G ∧
        (∀ e, e ∈ edges G' →
              well_directed G' e ∧ (e ∈ edges G ∨ (e.2, e.1) ∈ edges G)) ∧
        (length (edges G') ≤ length (edges G))%nat.
Proof.
  intros Hwf Hroles Halt. unfold direct_edges.
  destruct (direct_edges_loop G (edges G) Hwf (fun e H => H)
              (wf_NoDup_edges G Hwf) Hroles Halt (edges G) [] G)
    as (G' & Hrun & Hwf' & Hnode & Hgraph & _ & Hedges & Hlen); [done| |].
  { split_and!; try done. intros e He. left. split; [done|]. apply not_elem_of_nil. }
  exists G'. split; [done|]. split; [done|]. split; [done|]. split; [done|].
  split; [|done]. intros e He.
  destruct (Hedges e He) as [[Hin Hnot]|[[Hd1 Hd2] Hor]]; [done|].
  split; [|done]. unfold well_directed.
  by rewrite !(role_of_node G G') by done.
Qed.

(** ** The lattice graphs are well formed *)

Lemma keys_grid_adjacency N (cs : list grid_index) :
  keys (map (grid_adjacency N) cs) = map (node_id N) cs.
Proof.
  unfold keys. change (map (grid_adjacency N) cs) with (grid_adjacency N <$> cs).
  rewrite <- list_fmap_compose. done.
Qed.

Lemma keys_marked_nodes N delta marked :
  keys (marked_nodes N delta marked) = map (node_id N) (coords N).
Proof.
  unfold keys, marked_nodes.
  match goal with |- (map ?f ?l).*1 = _ => change (map f l) with (f <$> l) end.
  rewrite <- list_fmap_compose. done.
Qed.

Lemma elem_of_grid_edges N g nd u v :
  (u, v) ∈ edges (MkDiGraph g nd (map (grid_adjacency N) (coords N)))
  ↔ ∃ c c', c ∈ coords N ∧ c' ∈ forward_neighbours N c
            ∧ u = node_id N c ∧ v = node_id N c'.
Proof.
  unfold edges. cbn [succ]. fold (adj_edges (map (grid_adjacency N) (coords N))).
  rewrite elem_of_adj_edges. split.
  - intros (nbrs & Hun & Hv).
    apply list_elem_of_fmap in Hun as (c & [= -> ->] & Hc).
    unfold keys in Hv. apply list_elem_of_fmap in Hv as ([v' a] & -> & Hv).
    apply list_elem_of_fmap in Hv as (c' & [= -> ->] & Hc'). eauto 10.
  - intros (c & c' & Hc & Hc' & -> & ->).
    exists (grid_adjacency N c).2. split.
    + apply list_elem_of_fmap. exists c. done.
    + unfold grid_adjacency, keys. cbn [snd].
      apply list_elem_of_fmap. exists (node_id N c', no_edge_attrs).
      split; [done|]. apply list_elem_of_fmap. eauto.
Qed.

Lemma wf_grid N g nd :
  keys nd = map (node_id N) (coords N) →
  wf_graph (MkDiGraph g nd (map (grid_adjacency N) (coords N))).
Proof.
  intros Hnd. unfold wf_graph. cbn [succ node]. split_and!.
  - rewrite keys_grid_adjacency. apply NoDup_node_ids.
  - apply Forall_forall. intros [u nbrs] (c & [= -> ->] & Hc)%list_elem_of_fmap.
    cbn [snd]. unfold keys.
    match goal with |- NoDup ((map ?f ?l).*1) => change (map f l) with (f <$> l) end.
    rewrite <- list_fmap_compose. by apply NoDup_forward_ids.
  - by rewrite keys_grid_adjacency.
  - apply Forall_forall. intros [u v] He.
    apply elem_of_grid_edges in He as (c & c' & Hc & Hc' & -> & ->).
    cbn [snd]. unfold nodes. cbn [node]. rewrite Hnd.
    apply list_elem_of_fmap. exists c'. split; [done|].
    by eapply forward_neighbours_coords.
Qed.

Lemma wf_marked_grid_graph N delta : wf_graph (marked_grid_graph N delta).
Proof. apply wf_grid, keys_marked_nodes. Qed.

Lemma nodes_marked_grid_graph N delta :
  nodes (marked_grid_graph N delta) = map (node_id N) (coords N).
Proof. apply keys_marked_nodes. Qed.

Lemma node_marked_grid_graph N delta c :
  c ∈ coords N →
  od_get (node_id N c) (node (marked_grid_graph N delta))
  = Some (grid_node_attrs N delta (grid_role N c) c).
Proof.
  intros Hc. unfold marked_grid_graph, marked_nodes. cbn [node].
  rewrite (od_get_map_key (node_id N)) by (apply NoDup_node_ids || done).
  rewrite decide_True; [done|].
  destruct c as [[x y] z]. apply elem_of_coords in Hc.
  apply elem_of_face_indices. cbn [fst snd]. lia.
Qed.

Lemma role_of_marked_grid_graph N delta c :
  c ∈ coords N →
  role_of (marked_grid_graph N delta) (node_id N c) = Some (grid_role N c).
Proof.
  intros Hc. unfold role_of. by rewrite node_marked_grid_graph.
Qed.

Lemma grid_roles_alternate N c c' :
  c ∈ coords N → c' ∈ forward_neighbours N c →
  ¬ (grid_role N c = Source ∧ grid_role N c' = Source) ∧
  ¬ (grid_role N c = Sink ∧ grid_role N c' = Sink).
Proof.
  destruct c as [[x y] z]. intros (Hx & Hy & Hz)%elem_of_coords.
  unfold forward_neighbours. cbn [fst snd]. rewrite !elem_of_app.
  intros [H|[H|H]]; case_decide; try (by apply elem_of_nil in H);
    apply list_elem_of_singleton in H as ->;
    unfold grid_role; cbn [fst snd];
    repeat case_decide; split; intros [? ?]; try discriminate;
    try lia; Z.div_mod_to_equations; lia.
Qed.

Lemma marked_grid_roles_alternate N delta :
  roles_alternate (marked_grid_graph N delta).
Proof.
  intros [u v] He. apply elem_of_grid_edges in He as (c & c' & Hc & Hc' & -> & ->).
  cbn [fst snd].
  rewrite !role_of_marked_grid_graph
    by (done || by eapply forward_neighbours_coords).
  destruct (grid_roles_alternate N c c' Hc Hc') as [H1 H2].
  split; intros [[= ?] [= ?]]; tauto.
Qed.

Lemma marked_grid_all_roles N delta n :
  n ∈ nodes (marked_grid_graph N delta) →
  is_Some (role_of (marked_grid_graph N delta) n).
Proof.
  rewrite nodes_marked_grid_graph. intros (c & -> & Hc)%list_elem_of_fmap.
  rewrite role_of_marked_grid_graph by done. eauto.
Qed.

(** The lattice after lines 143 to 185. *)
Lemma build_lattice_spec N delta :
  0 ≤ N → int_truediv 1 (N + 1) = Ok delta →
  ∃ G, build_lattice N = Ok G ∧ wf_graph G ∧
       node G = node (marked_grid_graph N delta) ∧
       graph G = graph (marked_grid_graph N delta) ∧
       (∀ e, e ∈ edges G →
             well_directed G e ∧
             (e ∈ edges (grid_graph N delta)
              ∨ (e.2, e.1) ∈ edges (grid_graph N delta))) ∧
       (length (edges G) ≤ length (edges (grid_graph N delta)))%nat.
Proof.
  intros HN Hdelta. unfold build_lattice. rewrite Hdelta. cbn [mbind result_bind].
  rewrite add_grid_nodes_spec by done. cbn [mbind result_bind].
  rewrite add_grid_edges_spec. cbn [mbind result_bind].
  rewrite mark_sources_and_sinks_spec. cbn [mbind result_bind].
  change (edges (grid_graph N delta)) with (edges (marked_grid_graph N delta)).
  apply direct_edges_spec.
  - apply wf_marked_grid_graph.
  - apply marked_grid_all_roles.
  - apply marked_grid_roles_alternate.
Qed.

(** ** Counting the forward edges *)

Lemma sumZ_app {A : Type} (f : A → Z) (l1 l2 : list A) :
  sumZ f (l1 ++ l2) = sumZ f l1 + sumZ f l2.
Proof. unfold sumZ. induction l1 as [|a l1 IH]; simpl; lia. Qed.

Lemma sumZ_ext_in {A : Type} (f g : A → Z) (l : list A) :
  (∀ a, a ∈ l → f a = g a) → sumZ f l = sumZ g l.
Proof.
  unfold sumZ. induction l as [|a l IH]; intros H; simpl; [done|].
  rewrite (H a) by left. rewrite IH; [done|]. intros; apply H; by right.
Qed.

Lemma sumZ_const {A : Type} (k : Z) (l : list A) :
  sumZ (fun _ => k) l = k * Z.of_nat (length l).
Proof. unfold sumZ. induction l as [|a l IH]; simpl; lia. Qed.

Lemma sumZ_plus {A : Type} (f g : A → Z) (l : list A) :
  sumZ (fun a => f a + g a) l = sumZ f l + sumZ g l.
Proof. unfold sumZ. induction l as [|a l IH]; simpl; lia. Qed.

Lemma sumZ_scale {A : Type} (f : A → Z) (k : Z) (l : list A) :
  sumZ (fun a => f a * k) l = sumZ f l * k.
Proof. unfold sumZ. induction l as [|a l IH]; simpl; lia. Qed.

Lemma sumZ_flat_map {A B : Type} (f : B → Z) (g : A → list B) (l : list A) :
  sumZ f (flat_map g l) = sumZ (fun a => sumZ f (g a)) l.
Proof.
  induction l as [|a l IH]; simpl; [done|]. rewrite sumZ_app, IH. done.
Qed.

Lemma sumZ_map {A B : Type} (f : B → Z) (h : A → B) (l : list A) :
  sumZ f (map h l) = sumZ (fun a => f (h a)) l.
Proof. unfold sumZ. induction l as [|a l IH]; simpl; [done|]. by rewrite IH. Qed.

Lemma sumZ_below N :
  1 ≤ N → sumZ (fun t => if decide (t < N - 1) then 1 else 0) (range N) = N - 1.
Proof.
  intros HN. unfold range.
  pose proof (seqZ_snoc (N - 1) ltac:(lia)) as Hsplit.
  replace (Z.succ (N - 1)) with N in Hsplit by lia.
  rewrite Hsplit, sumZ_app.
  rewrite (sumZ_ext_in _ (fun _ => 1) (seqZ 0 (N - 1))).
  - rewrite sumZ_const, length_seqZ.
    unfold sumZ. simpl. rewrite decide_False by lia. lia.
  - intros t Ht%elem_of_seqZ. rewrite decide_True by lia. done.
Qed.

Lemma length_range N : 0 ≤ N → Z.of_nat (length (range N)) = N.
Proof. intros. unfold range. rewrite length_seqZ. lia. Qed.

Lemma length_forward_neighbours N c :
  Z.of_nat (length (forward_neighbours N c))
  = (if decide (c.1.1 < N - 1) then 1 else 0)
    + (if decide (c.1.2 < N - 1) then 1 else 0)
    + (if decide (c.2 < N - 1) then 1 else 0).
Proof.
  unfold forward_neighbours. rewrite !length_app.
  repeat case_decide; simpl; lia.
Qed.

Lemma sumZ_coords (f : grid_index → Z) N :
  sumZ f (coords N)
  = sumZ (fun x => sumZ (fun y => sumZ (fun z => f (x, y, z)) (range N)) (range N))
         (range N).
Proof.
  unfold coords. rewrite sumZ_flat_map.
  apply sumZ_ext_in. intros x _. rewrite sumZ_flat_map.
  apply sumZ_ext_in. intros y _. by rewrite sumZ_map.
Qed.

Lemma count_forward_edges N :
  1 ≤ N →
  sumZ (fun c => Z.of_nat (length (forward_neighbours N c))) (coords N)
  = 3 * N * N * (N - 1).
Proof.
  intros HN.
  rewrite (sumZ_ext_in _ _ _ (fun c _ => length_forward_neighbours N c)).
  assert (Hlen := length_range N ltac:(lia)).
  assert (Hx : sumZ (fun c : grid_index => if decide (c.1.1 < N - 1) then 1 else 0)
                 (coords N) = (N - 1) * (N * N)).
  { rewrite sumZ_coords. cbn [fst snd].
    rewrite (sumZ_ext_in _
               (fun x => (if decide (x < N - 1) then 1 else 0) * (N * N))).
    - by rewrite sumZ_scale, sumZ_below.
    - intros x _. rewrite (sumZ_ext_in _ (fun _ => (if decide (x < N - 1) then 1 else 0) * N)).
      + rewrite sumZ_const, Hlen. lia.
      + intros y _. rewrite sumZ_const, Hlen. lia. }
  assert (Hy : sumZ (fun c : grid_index => if decide (c.1.2 < N - 1) then 1 else 0)
                 (coords N) = (N - 1) * (N * N)).
  { rewrite sumZ_coords. cbn [fst snd].
    rewrite (sumZ_ext_in _ (fun _ => (N - 1) * N)).
    - rewrite sumZ_const, Hlen. lia.
    - intros x _.
      rewrite (sumZ_ext_in _ (fun y => (if decide (y < N - 1) then 1 else 0) * N)).
      + by rewrite sumZ_scale, sumZ_below.
      + intros y _. rewrite sumZ_const, Hlen. lia. }
  assert (Hz : sumZ (fun c : grid_index => if decide (c.2 < N - 1) then 1 else 0)
                 (coords N) = (N - 1) * (N * N)).
  { rewrite sumZ_coords. cbn [fst snd].
    rewrite (sumZ_ext_in _ (fun _ => (N - 1) * N)).
    - rewrite sumZ_const, Hlen. lia.
    - intros x _. rewrite (sumZ_ext_in _ (fun _ => N - 1)).
      + rewrite sumZ_const, Hlen. lia.
      + intros y _. by apply sumZ_below. }
  rewrite !sumZ_plus, Hx, Hy, Hz. lia.
Qed.

Lemma length_grid_edges N (cs : list grid_index) :
  Z.of_nat (length (adj_edges (map (grid_adjacency N) cs)))
  = sumZ (fun c => Z.of_nat (length (forward_neighbours N c))) cs.
Proof.
  unfold adj_edges, sumZ. induction cs as [|c cs IH]; simpl; [done|].
  rewrite length_app, Nat2Z.inj_add, IH. f_equal.
  unfold keys. by rewrite length_map, length_fmap, length_map.
Qed.

Lemma length_edges_grid_graph N delta :
  1 ≤ N → Z.of_nat (length (edges (grid_graph N delta))) = 3 * N * N * (N - 1).
Proof.
  intros HN. unfold edges, grid_graph. cbn [succ].
  fold (adj_edges (map (grid_adjacency N) (coords N))).
  by rewrite length_grid_edges, count_forward_edges.
Qed.

(** ** The constructor *)

Lemma forward_neighbours_iff N c c' :
  c ∈ coords N →
  c' ∈ forward_neighbours N c ↔ c' ∈ coords N ∧ axis_neighbours c c'.
Proof.
  intros Hc. split.
  - intros Hc'. split; [by eapply forward_neighbours_coords|].
    by eapply forward_neighbours_axis.
  - destruct c as [[x y] z], c' as [[x' y'] z'].
    rewrite elem_of_coords. unfold axis_neighbours, forward_neighbours.
    cbn [fst snd]. rewrite !elem_of_app.
    intros [(Hx & Hy & Hz) [[= -> -> ->]|[[= -> -> ->]|[= -> -> ->]]]].
    + left. rewrite decide_True by lia. left.
    + right; left. rewrite decide_True by lia. left.
    + right; right. rewrite decide_True by lia. left.
Qed.

Lemma grid_vd_Some N c n : grid_vd N !! c = Some n ↔ c ∈ coords N ∧ n = node_id N c.
Proof. rewrite grid_vd_lookup. case_decide; naive_solver. Qed.

Lemma symmetric_mode_run (calculate_lengths : DiGraph → result DiGraph)
  (random_gamma : nat → Z → float → float) (np_reciprocal : float → float)
  (N radii_iters : Z) :
  1 ≤ N →
  (∀ G, wf_graph G → ∃ G', calculate_lengths G = Ok G' ∧ skeleton G' = skeleton G) →
  ∃ G1 G, build_lattice N = Ok G1 ∧
          create_unprepared_network calculate_lengths random_gamma
            np_reciprocal N radii_iters true = Ok G ∧
          skeleton G = skeleton G1 ∧
          ∀ e, e ∈ edges G → radius_of G e = Some (symmetric_radius N).
Proof.
  intros HN Hlengths. destruct (int_truediv_succ N) as [delta Hdelta]; [lia|].
  destruct (build_lattice_spec N delta) as (G1 & Hrun1 & Hwf1 & _);
    [lia | done |].
  destruct (Hlengths G1 Hwf1) as (G2 & Hrun2 & Hsk2).
  destruct (assign_symmetric_radii_spec N G2) as (G3 & Hrun3 & Hsk3 & Hrad).
  { by apply (skeleton_wf G1). }
  exists G1, G3. split; [done|]. split; [|split; [congruence | exact Hrad]].
  unfold create_unprepared_network. rewrite Hrun1. cbn [mbind result_bind].
  rewrite Hrun2. cbn [mbind result_bind negb]. exact Hrun3.
Qed.

(** The symmetric branch writes the radius on every edge and nothing
    else. *)
Lemma assign_symmetric_radii_run N G :
  wf_graph G →
  ∃ G', assign_symmetric_radii N G = Ok G' ∧ skeleton G' = skeleton G ∧
        ∀ e, edge_lookup G' e
             = set_radius (symmetric_radius N) <$> edge_lookup G e.
Proof.
  intros Hwf. unfold assign_symmetric_radii.
  destruct (for_each_edge_update G (fun _ => set_radius (symmetric_radius N))
              (fun '(src, sink) G =>
                 set_edge_data (set_radius (symmetric_radius N)) src sink G)
              (edges G)) with (G := G)
    as (G' & Hrun & Hsk & Hlk); try done.
  - intros [u v] G1 a _ _ Ha.
    destruct (set_edge_data_spec (set_radius (symmetric_radius N)) u v G1 a Ha)
      as (G2 & ? & ? & ?). eauto.
  - by apply wf_NoDup_edges.
  - exists G'. split; [done|]. split; [done|]. intros e. rewrite Hlk.
    destruct (decide (e ∈ edges G)) as [|Hout]; [done|].
    destruct (edge_lookup G e) eqn:Hlook; [|done].
    destruct Hout. apply edge_lookup_elem. by rewrite Hlook.
Qed.

(** C7. In symmetric mode, for every resolution [N >= 1] and every
    geometry collaborator that leaves nodes and edges alone, the
    constructor takes the lattice, with the lengths set, and writes on
    every one of its edges the radius [1/((N+1) * sqrt(90*pi))], computed
    in binary64 as the source writes it.  The graph handed to
    [prep_net_for_sims] has the nodes and the edges of the lattice; each
    edge keeps the attributes it had and has that radius.  No random draw
    is involved: the result is the same whatever the draws and the number
    of repair passes. *)
Theorem symmetric_radii_spec (calculate_lengths : DiGraph → result DiGraph)
  (random_gamma : nat → Z → float → float) (np_reciprocal : float → float)
  (N radii_iters : Z) :
  1 ≤ N →
  (∀ G, wf_graph G → ∃ G', calculate_lengths G = Ok G' ∧ skeleton G' = skeleton G) →
  ∃ G1 G2 G,
    build_lattice N = Ok G1 ∧ calculate_lengths G1 = Ok G2 ∧
    create_unprepared_network calculate_lengths random_gamma np_reciprocal
      N radii_iters true = Ok G ∧
    skeleton G = skeleton G1 ∧ nodes G = nodes G1 ∧ edges G = edges G1 ∧
    (∀ e, e ∈ edges G1 →
          radius_of G e
          = Some (float_of_int 1
                  / (float_of_int (N + 1)
                     * PrimFloat.sqrt (float_of_int 90 * np_pi)))%float) ∧
    (∀ e, edge_lookup G e
          = set_radius (symmetric_radius N) <$> edge_lookup G2 e) ∧
    (∀ random_gamma' np_reciprocal' radii_iters',
       create_unprepared_network calculate_lengths random_gamma' np_reciprocal'
         N radii_iters' true = Ok G).
Proof.
  intros HN Hlengths. destruct (int_truediv_succ N) as [delta Hdelta]; [lia|].
  destruct (build_lattice_spec N delta) as (G1 & Hrun1 & Hwf1 & _);
    [lia | done |].
  destruct (Hlengths G1 Hwf1) as (G2 & Hrun2 & Hsk2).
  assert (Hwf2 : wf_graph G2) by (by apply (skeleton_wf G1)).
  destruct (assign_symmetric_radii_run N G2 Hwf2) as (G & Hrun3 & Hsk3 & Hlk).
  assert (Hsk : skeleton G = skeleton G1) by congruence.
  assert (Hrun : ∀ random_gamma' np_reciprocal' radii_iters',
            create_unprepared_network calculate_lengths random_gamma'
              np_reciprocal' N radii_iters' true = Ok G).
  { intros rg nr ri. unfold create_unprepared_network.
    rewrite Hrun1. cbn [mbind result_bind].
    rewrite Hrun2. cbn [mbind result_bind negb]. exact Hrun3. }
  exists G1, G2, G. split; [done|]. split; [done|]. split; [apply Hrun|].
  split; [done|]. split; [by apply skeleton_nodes|].
  split; [by apply skeleton_edges|]. split; [|split; [done|apply Hrun]].
  intros e He. unfold radius_of. rewrite Hlk.
  destruct (elem_edges_lookup G2 e Hwf2) as [a ->]; [|done].
  by rewrite (skeleton_edges G1 G2).
Qed.

Lemma symmetric_radii_witness :
  1 ≤ 2 ∧
  (∀ G, wf_graph G → ∃ G', Ok G = Ok G' ∧ skeleton G' = skeleton G) ∧
  ∃ G1 G2 G,
    build_lattice 2 = Ok G1 ∧ Ok G1 = Ok G2 ∧
    create_unprepared_network (fun G => Ok G) (draw_from twelve_draws)
      (fun x => (1 / x)%float) 2 2 true = Ok G ∧
    skeleton G = skeleton G1 ∧ nodes G = nodes G1 ∧ edges G = edges G1 ∧
    (∀ e, e ∈ edges G1 →
          radius_of G e
          = Some (float_of_int 1
                  / (float_of_int (2 + 1)
                     * PrimFloat.sqrt (float_of_int 90 * np_pi)))%float) ∧
    (∀ e, edge_lookup G e
          = set_radius (symmetric_radius 2) <$> edge_lookup G2 e) ∧
    (∀ random_gamma' np_reciprocal' radii_iters',
       create_unprepared_network (fun G => Ok G) random_gamma' np_reciprocal'
         2 radii_iters' true = Ok G).
Proof.
  assert (Hid : ∀ G, wf_graph G → ∃ G', Ok G = Ok G' ∧ skeleton G' = skeleton G)
    by (intros G _; by exists G).
  split; [lia|]. split; [exact Hid|].
  apply (symmetric_radii_spec (fun G => Ok G) (draw_from twelve_draws)
           (fun x => (1 / x)%float) 2 2); [lia | exact Hid].
Defined.

(** ** The random branch of the constructor *)

Lemma assign_random_radii_spec (random_gamma : nat → Z → float → float)
  (np_reciprocal : float → float) N G :
  wf_graph G →
  ∃ G', assign_random_radii random_gamma np_reciprocal N G = Ok G' ∧
        skeleton G' = skeleton G ∧
        (∀ e, center_dist_of G' e = center_dist_of G e) ∧
        (∀ e, e ∈ edges G → is_Some (radius_of G' e)).
Proof.
  intros Hwf. unfold assign_random_radii.
  destruct (for_each_simulation
              (fun (st : nat * DiGraph) (done_ : list (Z * Z)) =>
                 skeleton st.2 = skeleton G ∧
                 (∀ e, center_dist_of st.2 e = center_dist_of G e) ∧
                 (∀ e, e ∈ done_ → is_Some (radius_of st.2 e)))
              (edges G)
              (fun '(src, sink) '(k, G) =>
                 G' ← set_edge_data
                        (set_radius
                           (random_gamma k 5 (scale_parm np_reciprocal N)))
                        src sink G;
                 Ok (S k, G'))
              (fun t a => t ++ [a]) (O, G) [])
    as ([k' G'] & Hrun & Hsk & Hcd & Hrad).
  - split; [done|]. split; [done|]. by intros e ?%elem_of_nil.
  - intros [u v] [k G1] done_ He (Hsk1 & Hcd1 & Hrad1). cbn [snd] in *.
    assert (is_Some (edge_lookup G1 (u, v))) as [a Ha].
    { apply elem_edges_lookup; [by apply (skeleton_wf G)|].
      by rewrite (skeleton_edges G G1). }
    destruct (set_radius_spec (random_gamma k 5 (scale_parm np_reciprocal N))
                u v G1 a Ha) as (G2 & HrunG & Hsk2 & Hcd2 & Hr2 & _).
    exists (S k, G2). rewrite HrunG. split; [done|]. cbn [snd].
    split; [congruence|]. split.
    + intros e. by rewrite Hcd2.
    + intros e [Hin| ->%list_elem_of_singleton]%elem_of_app; rewrite Hr2.
      * destruct (decide (e = (u, v))); [eauto | by apply Hrad1].
      * rewrite decide_True by done. eauto.
  - rewrite Hrun. cbn [mbind result_bind]. exists G'. cbn [snd] in *.
    split; [done|]. split; [done|]. split; [done|].
    intros e He. apply Hrad. by rewrite fold_left_snoc_all.
Qed.

Lemma lattice_roles N delta G :
  node G = node (marked_grid_graph N delta) →
  Forall (fun n => is_Some (role_of G n)) (nodes G).
Proof.
  intros Hnode. apply Forall_forall. intros n Hn.
  rewrite (role_of_node (marked_grid_graph N delta) G) by done.
  apply marked_grid_all_roles. unfold nodes in *. by rewrite <- Hnode.
Qed.

Lemma random_mode_run (calculate_lengths : DiGraph → result DiGraph)
  (random_gamma : nat → Z → float → float) (np_reciprocal : float → float)
  (N radii_iters : Z) :
  1 ≤ N →
  (∀ G, wf_graph G → ∃ G', calculate_lengths G = Ok G' ∧ skeleton G' = skeleton G) →
  ∃ G1 G3 G4 G,
    build_lattice N = Ok G1 ∧
    (G ← build_lattice N; G ← calculate_lengths G;
     assign_distances_from_source_and_sink_nodes G) = Ok G3 ∧
    assign_random_radii random_gamma np_reciprocal N G3 = Ok G4 ∧
    repair_passes radii_iters G4 = Ok G ∧
    create_unprepared_network calculate_lengths random_gamma np_reciprocal
      N radii_iters false = Ok G ∧
    skeleton G4 = skeleton G1 ∧ skeleton G = skeleton G4 ∧
    (∀ e, center_dist_of G e = center_dist_of G4 e) ∧
    (∀ e, radius_of G e
          = repair_sweeps (center_dist_of G4) (edges G4) radii_iters
              (radius_of G4) e).
Proof.
  intros HN Hlengths. destruct (int_truediv_succ N) as [delta Hdelta]; [lia|].
  destruct (build_lattice_spec N delta) as (G1 & Hrun1 & Hwf1 & Hnode1 & _);
    [lia | done |].
  destruct (Hlengths G1 Hwf1) as (G2 & Hrun2 & Hsk2).
  assert (Hwf2 : wf_graph G2) by (by apply (skeleton_wf G1)).
  destruct (assign_distances_run G2 Hwf2) as (G3 & Hrun3 & Hsk3 & Hlk3).
  { apply (lattice_roles N delta). by rewrite (skeleton_node G1 G2). }
  assert (Hwf3 : wf_graph G3) by (by apply (skeleton_wf G2)).
  destruct (assign_random_radii_spec random_gamma np_reciprocal N G3 Hwf3)
    as (G4 & Hrun4 & Hsk4 & Hcd4 & Hrad4).
  assert (Hwf4 : wf_graph G4) by (by apply (skeleton_wf G3)).
  destruct (repair_passes_spec G4 radii_iters)
    as (G & Hrun & Hsk & Hcd & Hrad & _).
  { intros e He. rewrite (skeleton_edges G3 G4) in He by done. split.
    - rewrite Hcd4. unfold center_dist_of. rewrite Hlk3.
      rewrite (skeleton_edges G2 G3) in He by done.
      rewrite decide_True by done.
      destruct (elem_edges_lookup G2 e Hwf2 He) as [a ->]. simpl. eauto.
    - by apply Hrad4. }
  exists G1, G3, G4, G. split; [done|]. split.
  { rewrite Hrun1. cbn [mbind result_bind]. rewrite Hrun2. exact Hrun3. }
  split; [done|]. split; [done|]. split.
  { unfold create_unprepared_network. rewrite Hrun1. cbn [mbind result_bind].
    rewrite Hrun2. cbn [mbind result_bind negb]. rewrite Hrun3.
    cbn [mbind result_bind]. rewrite Hrun4. exact Hrun. }
  split; [congruence|]. by split_and!.
Qed.

(** Whatever the mode, the graph handed to [prep_net_for_sims] has the
    graph attributes, the nodes and the edges of the lattice. *)
Lemma unprepared_network_skeleton
  (calculate_lengths : DiGraph → result DiGraph)
  (random_gamma : nat → Z → float → float) (np_reciprocal : float → float)
  (N radii_iters : Z) (symmetric : bool) :
  1 ≤ N →
  (∀ G, wf_graph G → ∃ G', calculate_lengths G = Ok G' ∧ skeleton G' = skeleton G) →
  ∃ G1 G, build_lattice N = Ok G1 ∧
          create_unprepared_network calculate_lengths random_gamma
            np_reciprocal N radii_iters symmetric = Ok G ∧
          skeleton G = skeleton G1.
Proof.
  intros HN Hlengths. destruct symmetric.
  - destruct (symmetric_mode_run calculate_lengths random_gamma np_reciprocal
                N radii_iters HN Hlengths) as (G1 & G & H1 & Hrun & Hsk & _).
    by exists G1, G.
  - destruct (random_mode_run calculate_lengths random_gamma np_reciprocal
                N radii_iters HN Hlengths)
      as (G1 & _ & G4 & G & H1 & _ & _ & _ & Hrun & Hsk4 & Hsk & _).
    exists G1, G. split; [done|]. split; [done|]. congruence.
Qed.

(** C1 (as amended).  In random mode, for every resolution [N >= 1], once
    each edge has its draw the constructor makes exactly [radii_iters]
    repair sweeps (none when that number is not positive) and raises
    nothing.  A sweep visits every ordered pair of edges in edge order; a
    visit does nothing when the two edges leave the same node, and
    otherwise exchanges the two radii when the first edge has the strictly
    greater [center_dist] and the strictly smaller radius at that moment.
    Nothing but radii changes.  Edges that share an endpoint in any other
    way are compared like all others. *)
Theorem random_mode_repair_spec (calculate_lengths : DiGraph → result DiGraph)
  (random_gamma : nat → Z → float → float) (np_reciprocal : float → float)
  (N radii_iters : Z) :
  1 ≤ N →
  (∀ G, wf_graph G → ∃ G', calculate_lengths G = Ok G' ∧ skeleton G' = skeleton G) →
  ∃ G3 G4 G,
    (G ← build_lattice N; G ← calculate_lengths G;
     assign_distances_from_source_and_sink_nodes G) = Ok G3 ∧
    assign_random_radii random_gamma np_reciprocal N G3 = Ok G4 ∧
    repair_passes radii_iters G4 = Ok G ∧
    create_unprepared_network calculate_lengths random_gamma np_reciprocal
      N radii_iters false = Ok G ∧
    skeleton G = skeleton G4 ∧
    (∀ e, center_dist_of G e = center_dist_of G4 e) ∧
    (∀ e, radius_of G e
          = repair_sweeps (center_dist_of G4) (edges G4) radii_iters
              (radius_of G4) e) ∧
    (∀ rho e1 e2, e1.1 = e2.1 →
                  repair_visit (center_dist_of G4) rho (e1, e2) = rho).
Proof.
  intros HN Hlengths.
  destruct (random_mode_run calculate_lengths random_gamma np_reciprocal
              N radii_iters HN Hlengths)
    as (_ & G3 & G4 & G & _ & H3 & H4 & Hrep & Hrun & _ & Hsk & Hcd & Hrad).
  exists G3, G4, G. split_and!; try done.
  intros rho e1 e2 Hsame. unfold repair_visit. simpl.
  rewrite (bool_decide_eq_false_2 (e1.1 ≠ e2.1)) by tauto.
  by repeat case_match.
Qed.

Lemma random_mode_repair_witness :
  1 ≤ 2 ∧
  (∀ G, wf_graph G → ∃ G', Ok G = Ok G' ∧ skeleton G' = skeleton G) ∧
  ∃ G3 G4 G,
    (G ← build_lattice 2; G ← Ok G;
     assign_distances_from_source_and_sink_nodes G) = Ok G3 ∧
    assign_random_radii (draw_from twelve_draws) (fun x => (1 / x)%float) 2 G3
    = Ok G4 ∧
    repair_passes 2 G4 = Ok G ∧
    create_unprepared_network (fun G => Ok G) (draw_from twelve_draws)
      (fun x => (1 / x)%float) 2 2 false = Ok G ∧
    skeleton G = skeleton G4 ∧
    (∀ e, center_dist_of G e = center_dist_of G4 e) ∧
    (∀ e, radius_of G e
          = repair_sweeps (center_dist_of G4) (edges G4) 2 (radius_of G4) e) ∧
    (∀ rho e1 e2, e1.1 = e2.1 →
                  repair_visit (center_dist_of G4) rho (e1, e2) = rho).
Proof.
  assert (Hid : ∀ G, wf_graph G → ∃ G', Ok G = Ok G' ∧ skeleton G' = skeleton G)
    by (intros G _; by exists G).
  split; [lia|]. split; [exact Hid|].
  apply (random_mode_repair_spec (fun G => Ok G) (draw_from twelve_draws)
           (fun x => (1 / x)%float) 2 2); [lia | exact Hid].
Defined.

(** ** The lattice of the built graph *)

Lemma direction_rule_skeleton G G' :
  skeleton G' = skeleton G → direction_rule G → direction_rule G'.
Proof.
  intros Hsk Hrule u v He. rewrite (skeleton_edges G G') in He by done.
  rewrite !(role_of_node G G') by (by apply skeleton_node). by apply Hrule.
Qed.

(** C4. For every resolution [N >= 1] the lattice is built without error,
    and after the edge re-orientation every edge [(u, v)] leaves a node
    whose role is not sink and enters a node whose role is not source.
    The same holds of the graph handed to [prep_net_for_sims], in both
    modes, whenever the geometry collaborator leaves nodes and edges
    alone. *)
Theorem lattice_edges_well_directed (N : Z) :
  1 ≤ N →
  ∃ G, build_lattice N = Ok G ∧ direction_rule G ∧
       ∀ calculate_lengths random_gamma np_reciprocal radii_iters symmetric,
         (∀ G, wf_graph G →
               ∃ G', calculate_lengths G = Ok G' ∧ skeleton G' = skeleton G) →
         ∃ G', create_unprepared_network calculate_lengths random_gamma
                 np_reciprocal N radii_iters symmetric = Ok G' ∧
               direction_rule G'.
Proof.
  intros HN. destruct (int_truediv_succ N) as [delta Hdelta]; [lia|].
  destruct (build_lattice_spec N delta) as
    (G & Hrun & Hwf & Hnode & _ & Hedges & _); [lia | done |].
  assert (Hrule : direction_rule G).
  { intros u v He.
    destruct (wf_edge_endpoints G u v Hwf He) as [Hu Hv].
    pose proof (lattice_roles N delta G Hnode) as Hroles.
    rewrite Forall_forall in Hroles.
    destruct (Hroles u Hu) as [ru Hru]. destruct (Hroles v Hv) as [rv Hrv].
    destruct (Hedges (u, v) He) as [[Hd1 Hd2] _]. cbn [fst snd] in Hd1, Hd2.
    exists ru, rv. split; [done|]. split; [done|]. split; congruence. }
  exists G. split; [done|]. split; [done|].
  intros calculate_lengths random_gamma np_reciprocal radii_iters symmetric
    Hlengths.
  destruct (unprepared_network_skeleton calculate_lengths random_gamma
              np_reciprocal N radii_iters symmetric HN Hlengths)
    as (G1 & G' & Hrun1 & Hrun' & Hsk).
  assert (G1 = G) as -> by congruence.
  exists G'. split; [done|]. by apply (direction_rule_skeleton G).
Qed.

Lemma lattice_edges_well_directed_witness :
  1 ≤ 2 ∧
  ∃ G, build_lattice 2 = Ok G ∧ direction_rule G ∧
       ∀ calculate_lengths random_gamma np_reciprocal radii_iters symmetric,
         (∀ G, wf_graph G →
               ∃ G', calculate_lengths G = Ok G' ∧ skeleton G' = skeleton G) →
         ∃ G', create_unprepared_network calculate_lengths random_gamma
                 np_reciprocal 2 radii_iters symmetric = Ok G' ∧
               direction_rule G'.
Proof. split; [lia|]. apply (lattice_edges_well_directed 2). lia. Defined.

(** C6. For every resolution [N >= 1], with [delta = 1/(N+1)]: the graph
    has exactly [N^3] nodes, the node of grid indices [(i, j, k)] sits at
    [(delta*(i+1), delta*(j+1), delta*(k+1))], the edges added by the edge
    loop are exactly the pairs of a grid point and one of its
    positive-direction axis neighbours, there are [3*N^2*(N-1)] of them,
    and the re-orientation keeps the nodes, keeps every edge between the
    same two nodes and does not raise the number of edges.  The graph
    handed to [prep_net_for_sims] has the same nodes, with the same
    attributes, and the same edges, in both modes, whenever the geometry
    collaborator leaves nodes and edges alone. *)
Theorem lattice_construction_spec (N : Z) :
  1 ≤ N →
  ∃ delta vd G0 G,
    int_truediv 1 (N + 1) = Ok delta ∧
    build_grid N = Ok (vd, G0) ∧ build_lattice N = Ok G ∧
    nodes G = nodes G0 ∧ Z.of_nat (length (nodes G)) = N * N * N ∧
    (∀ i j k, 0 ≤ i < N → 0 ≤ j < N → 0 ≤ k < N →
       ∃ n a, vd !! (i, j, k) = Some n ∧ n ∈ nodes G ∧
              od_get n (node G) = Some a ∧
              pos a = Some [ (delta * float_of_int (i + 1))%float;
                             (delta * float_of_int (j + 1))%float;
                             (delta * float_of_int (k + 1))%float ]) ∧
    (∀ u v, (u, v) ∈ edges G0 ↔
            ∃ c c', c ∈ coords N ∧ c' ∈ coords N ∧ axis_neighbours c c' ∧
                    vd !! c = Some u ∧ vd !! c' = Some v) ∧
    Z.of_nat (length (edges G0)) = 3 * N * N * (N - 1) ∧
    (∀ u v, (u, v) ∈ edges G → (u, v) ∈ edges G0 ∨ (v, u) ∈ edges G0) ∧
    Z.of_nat (length (edges G)) ≤ 3 * N * N * (N - 1) ∧
    ∀ calculate_lengths random_gamma np_reciprocal radii_iters symmetric,
      (∀ G, wf_graph G →
            ∃ G', calculate_lengths G = Ok G' ∧ skeleton G' = skeleton G) →
      ∃ G', create_unprepared_network calculate_lengths random_gamma
              np_reciprocal N radii_iters symmetric = Ok G' ∧
            node G' = node G ∧ edges G' = edges G.
Proof.
  intros HN. destruct (int_truediv_succ N) as [delta Hdelta]; [lia|].
  destruct (build_lattice_spec N delta) as
    (G & Hrun & Hwf & Hnode & _ & Hedges & Hlen); [lia | done |].
  exists delta, (grid_vd N), (grid_graph N delta), G.
  split; [done|]. split; [by apply build_grid_spec; [lia|]|]. split; [done|].
  assert (Hnodes : nodes G = map (node_id N) (coords N)).
  { unfold nodes. rewrite Hnode. apply keys_marked_nodes. }
  split.
  { rewrite Hnodes. unfold nodes, grid_graph, keys. cbn [node].
    match goal with |- _ = (map ?f ?l).*1 => change (map f l) with (f <$> l) end.
    by rewrite <- list_fmap_compose. }
  split.
  { rewrite Hnodes, length_map. pose proof (length_coords N). lia. }
  split.
  { intros i j k Hi Hj Hk.
    assert (Hc : (i, j, k) ∈ coords N) by (by apply elem_of_coords).
    exists (node_id N (i, j, k)), (grid_node_attrs N delta (grid_role N (i, j, k)) (i, j, k)).
    split; [by apply grid_vd_Some|]. split.
    { rewrite Hnodes. apply list_elem_of_fmap. eauto. }
    split; [|done]. rewrite Hnode. by apply node_marked_grid_graph. }
  split.
  { intros u v. unfold grid_graph. rewrite elem_of_grid_edges. split.
    - intros (c & c' & Hc & Hc' & -> & ->).
      apply forward_neighbours_iff in Hc' as [Hc' Hax]; [|done].
      exists c, c'. split_and!; try done; by apply grid_vd_Some.
    - intros (c & c' & Hc & Hc' & Hax & [_ ->]%grid_vd_Some & [_ ->]%grid_vd_Some).
      exists c, c'. split_and!; try done. by apply forward_neighbours_iff. }
  split; [by apply length_edges_grid_graph|]. split.
  { intros u v He. by destruct (Hedges (u, v) He) as [_ ?]. }
  split.
  { rewrite <- (length_edges_grid_graph N delta) by done. lia. }
  intros calculate_lengths random_gamma np_reciprocal radii_iters symmetric
    Hlengths.
  destruct (unprepared_network_skeleton calculate_lengths random_gamma
              np_reciprocal N radii_iters symmetric HN Hlengths)
    as (G1 & G' & Hrun1 & Hrun' & Hsk).
  assert (G1 = G) as -> by congruence.
  exists G'. split; [done|].
  split; [by apply skeleton_node | by apply skeleton_edges].
Qed.

Lemma lattice_construction_witness :
  1 ≤ 2 ∧
  ∃ delta vd G0 G,
    int_truediv 1 (2 + 1) = Ok delta ∧
    build_grid 2 = Ok (vd, G0) ∧ build_lattice 2 = Ok G ∧
    nodes G = nodes G0 ∧ Z.of_nat (length (nodes G)) = 2 * 2 * 2 ∧
    (∀ i j k, 0 ≤ i < 2 → 0 ≤ j < 2 → 0 ≤ k < 2 →
       ∃ n a, vd !! (i, j, k) = Some n ∧ n ∈ nodes G ∧
              od_get n (node G) = Some a ∧
              pos a = Some [ (delta * float_of_int (i + 1))%float;
                             (delta * float_of_int (j + 1))%float;
                             (delta * float_of_int (k + 1))%float ]) ∧
    (∀ u v, (u, v) ∈ edges G0 ↔
            ∃ c c', c ∈ coords 2 ∧ c' ∈ coords 2 ∧ axis_neighbours c c' ∧
                    vd !! c = Some u ∧ vd !! c' = Some v) ∧
    Z.of_nat (length (edges G0)) = 3 * 2 * 2 * (2 - 1) ∧
    (∀ u v, (u, v) ∈ edges G → (u, v) ∈ edges G0 ∨ (v, u) ∈ edges G0) ∧
    Z.of_nat (length (edges G)) ≤ 3 * 2 * 2 * (2 - 1) ∧
    ∀ calculate_lengths random_gamma np_reciprocal radii_iters symmetric,
      (∀ G, wf_graph G →
            ∃ G', calculate_lengths G = Ok G' ∧ skeleton G' = skeleton G) →
      ∃ G', create_unprepared_network calculate_lengths random_gamma
              np_reciprocal 2 radii_iters symmetric = Ok G' ∧
            node G' = node G ∧ edges G' = edges G.
Proof. split; [lia|]. apply (lattice_construction_spec 2). lia. Defined.

(** ** Parameter handling *)

(** C10 (as amended).  The constructor checks no parameter.  For [N >= 1]
    the lattice is built without error, and so is the whole graph handed
    to [prep_net_for_sims], in both modes and for any [radii_iters].
    [N = 0] and [N <= -2] are not rejected either: the loops run over
    empty ranges and leave a graph without nodes and edges.  [N = -1]
    fails with [ZeroDivisionError] in the first statement,
    [delta = 1 / (N + 1)]. *)
Theorem constructor_parameter_handling (N : Z) :
  (1 ≤ N →
   (∃ G, build_lattice N = Ok G ∧ nodes G ≠ []) ∧
   ∀ calculate_lengths random_gamma np_reciprocal radii_iters symmetric,
     (∀ G, wf_graph G →
           ∃ G', calculate_lengths G = Ok G' ∧ skeleton G' = skeleton G) →
     ∃ G, create_unprepared_network calculate_lengths random_gamma
            np_reciprocal N radii_iters symmetric = Ok G) ∧
  (N ≤ 0 → N ≠ -1 →
   ∃ G, build_lattice N = Ok G ∧ nodes G = [] ∧ edges G = []) ∧
  (N = -1 →
   build_lattice N = Raise ZeroDivisionError ∧
   ∀ calculate_lengths prep_net_for_sims random_gamma np_reciprocal
     radii_iters symmetric,
     create_network_multiple_sources_and_sinks calculate_lengths
       prep_net_for_sims random_gamma np_reciprocal N radii_iters symmetric
     = Raise ZeroDivisionError).
Proof.
  split; [|split].
  - intros HN. split.
    + destruct (int_truediv_succ N) as [delta Hdelta]; [lia|].
      destruct (build_lattice_spec N delta) as (G & Hrun & _ & Hnode & _);
        [lia | done |].
      exists G. split; [done|]. unfold nodes. rewrite Hnode.
      change (keys (node (marked_grid_graph N delta)))
        with (nodes (marked_grid_graph N delta)).
      rewrite nodes_marked_grid_graph. intros Hnil.
      assert (Hc : (0, 0, 0) ∈ coords N) by (apply elem_of_coords; lia).
      apply (list_elem_of_fmap_2 (node_id N)) in Hc.
      change (node_id N <$> coords N) with (map (node_id N) (coords N)) in Hc.
      rewrite Hnil in Hc. by apply elem_of_nil in Hc.
    + intros calculate_lengths random_gamma np_reciprocal radii_iters
        [|] Hlengths.
      * destruct (unprepared_network_skeleton calculate_lengths random_gamma
                    np_reciprocal N radii_iters true HN Hlengths)
          as (_ & G & _ & Hrun & _).
        eauto.
      * destruct (unprepared_network_skeleton calculate_lengths random_gamma
                    np_reciprocal N radii_iters false HN Hlengths)
          as (_ & G & _ & Hrun & _).
        eauto.
  - intros HN Hne. unfold build_lattice, int_truediv.
    rewrite decide_False by lia. cbn [mbind result_bind].
    unfold add_grid_nodes, add_grid_edges, mark_sources_and_sinks, for_grid, range.
    rewrite !seqZ_nil by lia. cbn.
    eexists. split; [reflexivity|]. done.
  - intros ->. split; reflexivity.
Qed.

(** C10 (as stated) fails: resolution 0 is not rejected; the constructor
    runs through the whole lattice construction, and through the radius
    assignment, without raising and leaves an empty graph. *)
Lemma resolution_zero_is_not_rejected :
  build_lattice 0
  = Ok (MkDiGraph (GraphAttrs (Some 0) (Some 1%float) None None) [] []) ∧
  create_unprepared_network (fun G => Ok G) (draw_from twelve_draws)
    (fun x => (1 / x)%float) 0 2 false
  = Ok (MkDiGraph (GraphAttrs (Some 0) (Some 1%float) None None) [] []).
Proof. split; vm_compute; reflexivity. Qed.

(** * File lookup *)

Lemma dir_tree_ind (P : dir_tree → Prop) :
  P Unlisted →
  (∀ nondirs dirs, Forall (fun d => P d.2) dirs → P (DirTree nondirs dirs)) →
  ∀ t, P t.
Proof.
  intros Hun Hdir. fix IH 1. intros [nondirs dirs|]; [|exact Hun].
  apply Hdir. induction dirs as [|[n t'] ds IHds]; constructor;
    [apply IH | exact IHds].
Qed.

Lemma starts_with_spec name f :
  starts_with name f = true ↔ ∃ post, name = f +:+ post.
Proof.
  revert name. induction f as [|c f IH]; intros name; simpl.
  - split; [eauto|done].
  - destruct name as [|d name].
    + split; [done|]. by intros [post ?].
    + rewrite andb_true_iff, bool_decide_eq_true, IH. split.
      * intros [-> [post ->]]. by exists post.
      * intros [post [= -> ->]]. eauto.
Qed.

Lemma str_contains_spec f name :
  str_contains f name = true ↔ substring_of f name.
Proof.
  unfold substring_of. induction name as [|d name IH]; simpl.
  - rewrite orb_false_r, starts_with_spec. split.
    + intros [post Hpost]. by exists "", post.
    + intros (pre & post & Heq). destruct pre; [by exists post|done].
  - rewrite orb_true_iff, starts_with_spec, IH. split.
    + intros [[post Hpost]|(pre & post & ->)].
      * by exists "", post.
      * by exists (String d pre), post.
    + intros (pre & post & Heq). destruct pre as [|c pre].
      * left. by exists post.
      * right. injection Heq as -> ->. by exists pre, post.
Qed.

Section find_file_facts.
Context (path_join : string → string → string).

Lemma first_match_find f root names :
  first_match path_join (Some f) root names
  = (name ← List.find (str_contains f) names;
     Some (Return (Path (path_join root name)))).
Proof.
  induction names as [|name names IH]; simpl; [done|].
  by destruct (str_contains f name).
Qed.

Lemma scan_app filename l1 l2 :
  scan path_join filename (l1 ++ l2)
  = or_else (scan path_join filename l1) (scan path_join filename l2).
Proof.
  induction l1 as [|[[root dirs] files] l1 IH]; simpl; [done|].
  destruct (first_match path_join filename root files) as [r|] eqn:Hfiles.
  - destruct filename as [f|]; [|by destruct files; simplify_eq/=].
    rewrite first_match_find in Hfiles.
    by destruct (List.find _ files); simplify_eq/=.
  - destruct (first_match path_join filename root dirs) as [r|] eqn:Hdirs; [|done].
    destruct filename as [f|]; [|by destruct dirs; simplify_eq/=].
    rewrite first_match_find in Hdirs.
    by destruct (List.find _ dirs); simplify_eq/=.
Qed.

Lemma scan_own f top nondirs dirs :
  scan path_join (Some f) [(top, map fst dirs, nondirs)]
  = own_match path_join f top nondirs dirs.
Proof.
  unfold own_match. simpl. rewrite !first_match_find.
  destruct (List.find _ nondirs); simpl; [done|].
  by destruct (List.find _ (map fst dirs)).
Qed.

Lemma scan_walk_DirTree f top nondirs dirs :
  scan path_join (Some f) (os_walk path_join top (DirTree nondirs dirs))
  = fold_right
      (fun d rest =>
         or_else (find_filepath path_join (path_join top d.1) d.2 (Some f)) rest)
      (own_match path_join f top nondirs dirs) dirs.
Proof.
  cbn [os_walk]. rewrite scan_app, scan_own.
  generalize (own_match path_join f top nondirs dirs). intros own.
  induction dirs as [|[d sub] dirs IH]; simpl; [done|].
  rewrite scan_app, <- IH. unfold find_filepath.
  by destruct (scan path_join (Some f) (os_walk path_join (path_join top d) sub))
    as [[|]|].
Qed.

Lemma listed_DirTree top nondirs dirs root name :
  listed path_join top (DirTree nondirs dirs) root name
  ↔ (root = top ∧ (name ∈ nondirs ∨ name ∈ map fst dirs))
    ∨ ∃ d sub, (d, sub) ∈ dirs ∧ listed path_join (path_join top d) sub root name.
Proof.
  split.
  - inversion 1; subst.
    + left. eauto.
    + left. split; [done|]. right. apply list_elem_of_fmap. by eexists (_, _).
    + right. eauto.
  - intros [[-> [Hin|Hin]]|(d & sub & Hin & Hl)].
    + by apply listed_file.
    + apply list_elem_of_fmap in Hin as ([n sub] & -> & Hin).
      by eapply listed_dir.
    + by eapply listed_below.
Qed.

Lemma find_Some_substring f names name :
  List.find (str_contains f) names = Some name →
  name ∈ names ∧ substring_of f name.
Proof.
  intros [Hin Hc]%find_some. split; [by apply list_elem_of_In|].
  by apply str_contains_spec.
Qed.

Lemma find_None_substring f names name :
  List.find (str_contains f) names = None → name ∈ names → ¬ substring_of f name.
Proof.
  intros Hnone Hin%list_elem_of_In Hsub%str_contains_spec.
  by rewrite (find_none _ _ Hnone _ Hin) in Hsub.
Qed.

Lemma answers_own f top nondirs dirs :
  answers path_join f
    (fun root name => root = top ∧ (name ∈ nondirs ∨ name ∈ map fst dirs))
    (own_match path_join f top nondirs dirs).
Proof.
  unfold own_match.
  destruct (List.find _ nondirs) as [name|] eqn:Hfiles.
  { apply find_Some_substring in Hfiles as [Hin Hsub].
    left. exists top, name. eauto. }
  destruct (List.find _ (map fst dirs)) as [name|] eqn:Hdirs.
  { apply find_Some_substring in Hdirs as [Hin Hsub].
    left. exists top, name. eauto. }
  right. split; [done|]. intros root name [-> [Hin|Hin]].
  - exact (find_None_substring f _ name Hfiles Hin).
  - exact (find_None_substring f _ name Hdirs Hin).
Qed.

Lemma answers_or_else f (S1 S2 : string → string → Prop) r1 r2 :
  answers path_join f S1 r1 → answers path_join f S2 r2 →
  answers path_join f (fun root name => S1 root name ∨ S2 root name)
    (or_else r1 r2).
Proof.
  intros [(root & name & HS & Hsub & ->)|[-> Hnone1]].
  - intros _. left. exists root, name. eauto.
  - intros [(root & name & HS & Hsub & ->)|[-> Hnone2]].
    + left. exists root, name. eauto.
    + right. split; [done|]. intros root name [?|?]; eauto.
Qed.

Lemma answers_iff f (S1 S2 : string → string → Prop) r :
  (∀ root name, S1 root name ↔ S2 root name) →
  answers path_join f S1 r → answers path_join f S2 r.
Proof.
  intros Heq [(root & name & HS & Hsub & ->)|[-> Hnone]].
  - left. exists root, name. split; [by apply (proj1 (Heq root name)) | done].
  - right. split; [done|]. intros root name HS.
    apply (Hnone root name). by apply (proj2 (Heq root name)).
Qed.

Lemma fold_answers f top (Sown : string → string → Prop) own
  (ds : list (string * dir_tree)) :
  answers path_join f Sown own →
  Forall (fun d => ∀ top, answers path_join f (listed path_join top d.2)
                            (scan path_join (Some f) (os_walk path_join top d.2)))
         ds →
  answers path_join f
    (fun root name =>
       Sown root name
       ∨ ∃ d sub, (d, sub) ∈ ds ∧ listed path_join (path_join top d) sub root name)
    (fold_right
       (fun d rest =>
          or_else (find_filepath path_join (path_join top d.1) d.2 (Some f)) rest)
       own ds).
Proof.
  intros Hown. induction 1 as [|[d sub] ds IHd _ IHds]; simpl.
  - eapply answers_iff; [|exact Hown]. intros root name. split; [eauto|].
    by intros [?|(? & ? & ?%elem_of_nil & _)].
  - eapply answers_iff;
      [|apply answers_or_else; [apply (IHd (path_join top d))|apply IHds]].
    intros root name. simpl. split.
    + intros [Hl|[Ho|(d' & sub' & Hin & Hl)]]; [|by left|].
      * right. exists d, sub. split; [left|done].
      * right. exists d', sub'. split; [by right|done].
    + intros [Ho|(d' & sub' & [[= -> ->]|Hin]%elem_of_cons & Hl)].
      * right. by left.
      * by left.
      * right. right. eauto.
Qed.

Lemma scan_walk_answers f t top :
  answers path_join f (listed path_join top t)
    (scan path_join (Some f) (os_walk path_join top t)).
Proof.
  revert top. induction t as [|nondirs dirs IH] using dir_tree_ind; intros top.
  { right. split; [done|]. intros root name Hl. inversion Hl. }
  rewrite scan_walk_DirTree.
  eapply answers_iff; [intros root name; symmetry; apply listed_DirTree|].
  apply fold_answers; [apply answers_own | exact IH].
Qed.
End find_file_facts.

(** X1. For a string argument [find_filepath] never raises.  It returns
    the path [os.path.join(root, name)] of an entry [name] that [os.walk]
    lists in the directory [root] below the working directory and whose
    name holds [filename] as a substring; and it returns the class
    [FileNotFoundError] (returned, not raised) exactly when no listed file
    or directory name holds [filename]. *)
Theorem find_filepath_sound_and_complete
  (path_join : string → string → string) (cwd : string) (fs : dir_tree)
  (filename : string) :
  (∃ root name,
     listed path_join cwd fs root name ∧ substring_of filename name ∧
     find_filepath path_join cwd fs (Some filename)
     = Return (Path (path_join root name)))
  ∨ (find_filepath path_join cwd fs (Some filename)
     = Return FileNotFoundError_class ∧
     ∀ root name, listed path_join cwd fs root name →
                  ¬ substring_of filename name).
Proof. apply scan_walk_answers. Qed.

(** X2. [find_filepath] searches bottom-up: the directories below a
    directory are searched, in listing order, before the directory's own
    entries, and among these the files come before the directories.  So
    the answer for a directory is the first answer other than "not found"
    of its subdirectories, and only then the one of its own entries. *)
Theorem find_filepath_searches_below_first
  (path_join : string → string → string) (cwd : string)
  (nondirs : list string) (dirs : list (string * dir_tree)) (filename : string) :
  find_filepath path_join cwd (DirTree nondirs dirs) (Some filename)
  = fold_right
      (fun d rest =>
         or_else
           (find_filepath path_join (path_join cwd d.1) d.2 (Some filename))
           rest)
      (own_match path_join filename cwd nondirs dirs) dirs.
Proof. apply scan_walk_DirTree. Qed.

Lemma scan_None_cases (path_join : string → string → string) l :
  scan path_join None l = RaiseTypeError
  ∨ (scan path_join None l = Return FileNotFoundError_class
     ∧ Forall (fun tr => tr.1.2 = [] ∧ tr.2 = []) l).
Proof.
  induction l as [|[[root dirs] files] l IH]; simpl.
  - right. by split.
  - destruct files as [|name files]; simpl; [|by left].
    destruct dirs as [|d dirs]; simpl; [|by left].
    destruct IH as [?|[? ?]]; [by left|]. right. split; [done|].
    by constructor.
Qed.

(** X3. Called without an argument ([filename=None]) [find_filepath]
    raises [TypeError] as soon as the working directory has any entry,
    because [None in name] is not defined; only for an empty working
    directory, or one that cannot be listed, does it return the class
    [FileNotFoundError]. *)
Theorem find_filepath_without_argument
  (path_join : string → string → string) (cwd : string) (fs : dir_tree) :
  find_filepath path_join cwd fs None
  = match fs with
    | Unlisted | DirTree [] [] => Return FileNotFoundError_class
    | DirTree _ _ => RaiseTypeError
    end.
Proof.
  destruct fs as [nondirs dirs|]; [|done].
  unfold find_filepath.
  destruct (scan_None_cases path_join
              (os_walk path_join cwd (DirTree nondirs dirs))) as [H|[-> Hall]].
  - by destruct nondirs, dirs.
  - cbn [os_walk] in Hall. apply Forall_app in Hall as [_ Hall].
    apply Forall_singleton in Hall as [Hd Hf]. simpl in Hd, Hf. subst nondirs.
    by destruct dirs.
Qed.

(** * Sums over the edges *)

(** A loop over the edges whose body adds a term read off the edge's
    attributes, and raises [KeyError] when the term is not there. *)
Lemma for_each_items {S T : Type} (G : DiGraph)
  (term : Z * Z * edge_attrs → option T) (step : S → T → S)
  (body : Z * Z → S → result S) (l : list (Z * Z * edge_attrs)) (s : S) :
  Forall (fun i => edge_lookup G (i.1.1, i.1.2) = Some i.2) l →
  (∀ i s, edge_lookup G (i.1.1, i.1.2) = Some i.2 →
          body (i.1.1, i.1.2) s
          = match term i with
            | Some x => Ok (step s x)
            | None => Raise KeyError
            end) →
  (Forall (fun i => is_Some (term i)) l →
   for_each (map (fun i => (i.1.1, i.1.2)) l) body s
   = Ok (fold_left step (omap term l) s)) ∧
  (Exists (fun i => term i = None) l →
   for_each (map (fun i => (i.1.1, i.1.2)) l) body s = Raise KeyError).
Proof.
  intros Hl Hbody. revert s.
  induction Hl as [|i l Hi _ IH]; intros s.
  { split; [done|]. by intros ?%Exists_nil. }
  cbn [map for_each]. rewrite (Hbody i s Hi). split.
  - intros [[x Hx] Hall]%Forall_cons. simpl. rewrite Hx. simpl.
    by apply IH.
  - intros Hex. destruct (term i) as [x|] eqn:Hx; [|done]. simpl.
    apply IH. apply Exists_cons in Hex as [Hex|Hex]; [congruence|done].
Qed.

Lemma wf_edge_items_lookup G :
  wf_graph G →
  Forall (fun i => edge_lookup G (i.1.1, i.1.2) = Some i.2) (edge_items G).
Proof.
  intros Hwf. apply Forall_forall. intros [[u v] a] Hin.
  by apply edge_item_lookup.
Qed.

Lemma geometry_term {T : Type} (f : float → float → T) (l : list (Z * Z * edge_attrs)) :
  (Forall has_geometry l →
   Forall (fun i => is_Some (r ← radius i.2; l ← length_ i.2; Some (f r l))) l) ∧
  (Exists (fun i => radius i.2 = None ∨ length_ i.2 = None) l →
   Exists (fun i => (r ← radius i.2; l ← length_ i.2; Some (f r l)) = None) l).
Proof.
  split.
  - intros H. eapply Forall_impl; [exact H|].
    intros i [[r ->] [x ->]]. by eexists.
  - intros H. eapply Exists_impl; [exact H|].
    intros i [->|Hl]; [done|]. rewrite Hl. by destruct (radius i.2).
Qed.

(** X4. On a graph whose edges all carry a radius and a length,
    [surface_area] returns the sum of [radius * length] over the edges,
    added in edge order from [0.0] (an edgeless graph gives [0.0]); as
    soon as one edge lacks a radius or a length it raises [KeyError]. *)
Theorem surface_area_spec (G : DiGraph) :
  wf_graph G →
  (Forall has_geometry (edge_items G) →
   surface_area G
   = Ok (float_sum (omap (fun i => area_term i.2) (edge_items G)))) ∧
  (Exists (fun i => radius i.2 = None ∨ length_ i.2 = None) (edge_items G) →
   surface_area G = Raise KeyError).
Proof.
  intros Hwf. unfold surface_area, float_sum. rewrite edges_edge_items.
  destruct (for_each_items G (fun i => area_term i.2) PrimFloat.add
              (fun '(src, sink) sa =>
                 a ← edge_data G src sink;
                 r ← attr (radius a);
                 a' ← edge_data G src sink;
                 l ← attr (length_ a');
                 Ok (sa + r * l)%float)
              (edge_items G) 0%float (wf_edge_items_lookup G Hwf)) as [Hok Hraise].
  { intros [[u v] a] s Hlk. cbn [fst snd] in *.
    rewrite edge_data_lookup, Hlk. unfold area_term. simpl.
    destruct (radius a); simpl; [|done]. by destruct (length_ a). }
  split.
  - intros Hall. apply Hok. by apply (geometry_term (fun r l => (r * l)%float)).
  - intros Hex. apply Hraise.
    by apply (geometry_term (fun r l => (r * l)%float)).
Qed.

Lemma chain3_geometry : Forall has_geometry (edge_items chain3).
Proof. repeat constructor; by eexists. Qed.

Lemma surface_area_witness :
  wf_graph chain3 ∧ Forall has_geometry (edge_items chain3) ∧
  surface_area chain3
  = Ok (float_sum (omap (fun i => area_term i.2) (edge_items chain3))).
Proof.
  split; [apply chain3_wf|]. split; [apply chain3_geometry|].
  apply (proj1 (surface_area_spec chain3 chain3_wf)), chain3_geometry.
Defined.

(** A loop over the edges whose body adds a term that is computed from
    the edge's attributes and may raise: the loop raises what the first
    raising term does. *)
Lemma for_each_result_items {S T : Type} (G : DiGraph)
  (term : Z * Z * edge_attrs → result T) (step : S → T → S)
  (body : Z * Z → S → result S) (l : list (Z * Z * edge_attrs)) (s : S) :
  Forall (fun i => edge_lookup G (i.1.1, i.1.2) = Some i.2) l →
  (∀ i s, edge_lookup G (i.1.1, i.1.2) = Some i.2 →
          body (i.1.1, i.1.2) s = (x ← term i; Ok (step s x))) →
  (Forall (fun i => is_Some (returned (term i))) l →
   for_each (map (fun i => (i.1.1, i.1.2)) l) body s
   = Ok (fold_left step (omap (fun i => returned (term i)) l) s)) ∧
  (∀ before i after e,
     l = before ++ i :: after →
     Forall (fun i => is_Some (returned (term i))) before →
     term i = Raise e →
     for_each (map (fun i => (i.1.1, i.1.2)) l) body s = Raise e).
Proof.
  intros Hl Hbody. revert s.
  induction Hl as [|i l Hi _ IH]; intros s.
  { split; [done|]. intros [|] ? ? ? [=]. }
  cbn [map for_each]. rewrite (Hbody i s Hi). split.
  - intros [[x Hx] Hall]%Forall_cons. simpl.
    destruct (term i) as [y|]; [|done]. simpl. by apply IH.
  - intros [|j before] i' after e Hsplit Hbefore Hraise.
    + injection Hsplit as -> ->. by rewrite Hraise.
    + injection Hsplit as -> ->.
      apply Forall_cons in Hbefore as [[x Hx] Hbefore].
      destruct (term j) as [y|]; [|done]. simpl.
      by apply (proj2 (IH _) before i' after e).
Qed.

(** X5. With [x ** 2] left to the library, as an operation that returns
    or raises, [get_total_volume] returns the sum of
    [radius ** 2 * length * pi] over the edges, added in edge order from
    [0.0], when the term of every edge can be computed.  Otherwise it
    raises what the first edge whose term cannot be computed raises:
    [KeyError] for a missing radius, what [** 2] raises ([OverflowError]
    for a Python float whose square overflows), or [KeyError] for a
    missing length. *)
Theorem get_total_volume_spec (float_pow2 : float → result float)
  (G : DiGraph) :
  wf_graph G →
  (Forall (fun i => is_Some (returned (volume_term float_pow2 i.2)))
          (edge_items G) →
   get_total_volume float_pow2 G
   = Ok (float_sum (omap (fun i => returned (volume_term float_pow2 i.2))
                      (edge_items G)))) ∧
  (∀ before i after e,
     edge_items G = before ++ i :: after →
     Forall (fun i => is_Some (returned (volume_term float_pow2 i.2))) before →
     volume_term float_pow2 i.2 = Raise e →
     get_total_volume float_pow2 G = Raise e).
Proof.
  intros Hwf. unfold get_total_volume, float_sum. rewrite edges_edge_items.
  apply (for_each_result_items G (fun i => volume_term float_pow2 i.2)
           PrimFloat.add); [by apply wf_edge_items_lookup|].
  intros [[u v] a] s Hlk. cbn [fst snd] in *.
  rewrite edge_data_lookup, Hlk. unfold volume_term. simpl.
  destruct (radius a); simpl; [|done].
  destruct (float_pow2 _); simpl; [|done]. by destruct (length_ a).
Qed.

Lemma wide_chain_wf : wf_graph wide_chain.
Proof. unfold wf_graph. split_and!; by apply (bool_decide_unpack _). Qed.

Lemma get_total_volume_witness :
  wf_graph wide_chain ∧
  volume_term python_pow2 (chain_edge 0x1p+600 2 3 0) = Raise OverflowError ∧
  get_total_volume python_pow2 wide_chain = Raise OverflowError.
Proof.
  split; [apply wide_chain_wf|]. split; [vm_compute; reflexivity|].
  apply (proj2 (get_total_volume_spec python_pow2 wide_chain wide_chain_wf)
           [] (0, 1, chain_edge 0x1p+600 2 3 0)
           [(1, 2, chain_edge 2 2 3 1)] OverflowError);
    [reflexivity | constructor | vm_compute; reflexivity].
Defined.

Lemma fold_flow_terms s (l : list (Z * Z * edge_attrs)) q :
  Forall (fun i => i.1.1 = s → is_Some (flow_term i.2)) l →
  fold_left
    (fun q (o : option scalar) =>
       match o with Some x => py_add q (of_scalar x) | None => q end)
    (omap (fun i => if decide (i.1.1 = s) then Some <$> flow_term i.2
                    else Some None) l) q
  = fold_left (fun q x => py_add q (of_scalar x))
      (omap (fun i => if decide (i.1.1 = s) then flow_term i.2 else None) l) q.
Proof.
  intros Hl. revert q. induction Hl as [|i l Hi _ IH]; intros q; [done|].
  simpl. destruct (decide (i.1.1 = s)) as [Heq|Hne]; [|apply IH].
  destruct (Hi Heq) as [x ->]. simpl. apply IH.
Qed.

(** X6. [total_flow] reads the attributes of the edges that leave the
    designated source, and of no other edge: it returns their summed
    [inverse_transit_time * volume] when each of them has both attributes,
    whatever the other edges carry, and raises [KeyError] when one of them
    lacks one.  When no edge leaves the designated source the flow is the
    integer 0 and [total_resistance] raises [ZeroDivisionError]. *)
Theorem total_flow_reads_source_edges_only (G : DiGraph) (s : Z) :
  wf_graph G →
  g_source (graph G) = Some s →
  (Forall (fun i => i.1.1 = s →
                    is_Some (inverse_transit_time i.2) ∧ is_Some (volume i.2))
          (edge_items G) →
   total_flow G = Ok (py_sum (source_flow_terms s G))) ∧
  (Exists (fun i => i.1.1 = s ∧
                    (inverse_transit_time i.2 = None ∨ volume i.2 = None))
          (edge_items G) →
   total_flow G = Raise KeyError) ∧
  ((∀ e, e ∈ edges G → e.1 ≠ s) →
   total_flow G = Ok (PyInt 0) ∧ total_resistance G = Raise ZeroDivisionError).
Proof.
  intros Hwf Hs.
  destruct (for_each_items G
              (fun i => if decide (i.1.1 = s) then Some <$> flow_term i.2
                        else Some None)
              (fun q (o : option scalar) =>
                 match o with Some x => py_add q (of_scalar x) | None => q end)
              (fun '(src, sink) q =>
                 s ← attr (g_source (graph G));
                 if decide (src = s) then
                   a ← edge_data G src sink;
                   t ← attr (inverse_transit_time a);
                   v ← attr (volume a);
                   Ok (py_add q (of_scalar (scalar_mul t v)))
                 else Ok q)
              (edge_items G) (PyInt 0) (wf_edge_items_lookup G Hwf))
    as [Hok Hraise].
  { intros [[u v] a] q Hlk. cbn [fst snd] in *. rewrite Hs. simpl.
    destruct (decide (u = s)); [|done].
    rewrite edge_data_lookup, Hlk. unfold flow_term. simpl.
    destruct (inverse_transit_time a); simpl; [|done].
    by destruct (volume a). }
  assert (Hflow : Forall (fun i => i.1.1 = s → is_Some (flow_term i.2))
                         (edge_items G) →
                  total_flow G = Ok (py_sum (source_flow_terms s G))).
  { intros Hall. unfold total_flow. rewrite edges_edge_items, Hok.
    - unfold py_sum, source_flow_terms. by rewrite fold_flow_terms.
    - eapply Forall_impl; [exact Hall|]. intros i Hi. simpl in *.
      destruct (decide (i.1.1 = s)) as [Heq|]; [|by eexists].
      destruct (Hi Heq) as [x ->]. by eexists. }
  split; [|split].
  - intros Hall. apply Hflow. eapply Forall_impl; [exact Hall|].
    intros i Hi Heq. destruct (Hi Heq) as [[t Ht] [v Hv]].
    unfold flow_term. rewrite Ht, Hv. by eexists.
  - intros Hex. unfold total_flow. rewrite edges_edge_items. apply Hraise.
    eapply Exists_impl; [exact Hex|]. intros i [Heq Hnone]. simpl.
    rewrite decide_True by done. unfold flow_term.
    destruct Hnone as [->|Hv]; [done|]. rewrite Hv.
    by destruct (inverse_transit_time i.2).
  - intros Hnone.
    assert (Hno : Forall (fun i => i.1.1 ≠ s) (edge_items G)).
    { apply Forall_forall. intros i Hi. apply (Hnone (i.1.1, i.1.2)).
      rewrite edges_edge_items. apply list_elem_of_fmap. by exists i. }
    assert (Hterms : source_flow_terms s G = []).
    { unfold source_flow_terms. clear -Hno.
      induction Hno as [|i l Hi _ IH]; [done|].
      simpl. by rewrite decide_False. }
    assert (Hzero : total_flow G = Ok (PyInt 0)).
    { rewrite Hflow, Hterms; [done|].
      eapply Forall_impl; [exact Hno|]. by intros i Hi Heq. }
    split; [done|]. unfold total_resistance. by rewrite Hzero.
Qed.

Lemma total_flow_reads_source_edges_only_witness :
  wf_graph chain3 ∧ g_source (graph chain3) = Some 0 ∧
  total_flow chain3 = Ok (py_sum (source_flow_terms 0 chain3)).
Proof.
  split; [apply chain3_wf|]. split; [done|].
  apply (proj1 (total_flow_reads_source_edges_only chain3 0 chain3_wf eq_refl)).
  repeat constructor; by eexists.
Defined.

(** * The radius-ordering passes only move radii around *)

Lemma swap_radii_transpose (rho : radii) e1 e2 e :
  swap_radii rho e1 e2 e = rho (transpose e1 e2 e).
Proof.
  unfold swap_radii, set_radius_at, transpose.
  destruct (decide (e = e2)); [done|]. by destruct (decide (e = e1)) as [->|].
Qed.

Lemma transpose_involutive e1 e2 e : transpose e1 e2 (transpose e1 e2 e) = e.
Proof. unfold transpose. repeat case_decide; congruence. Qed.

Lemma transpose_Permutation e1 e2 (es : list (Z * Z)) :
  NoDup es → e1 ∈ es → e2 ∈ es → map (transpose e1 e2) es ≡ₚ es.
Proof.
  intros Hnd H1 H2. apply NoDup_Permutation; [|done|].
  - assert (Inj (=) (=) (transpose e1 e2)).
    { intros x y Hxy.
      by rewrite <- (transpose_involutive e1 e2 x), Hxy, transpose_involutive. }
    change (NoDup (transpose e1 e2 <$> es)). by apply NoDup_fmap_2.
  - intros e. assert (Hin : ∀ x, x ∈ es → transpose e1 e2 x ∈ es).
    { intros x Hx. unfold transpose. by repeat case_decide. }
    split.
    + intros (x & -> & Hx)%list_elem_of_fmap. by apply Hin.
    + intros He. apply list_elem_of_fmap. exists (transpose e1 e2 e).
      split; [by rewrite transpose_involutive | by apply Hin].
Qed.

Lemma swap_radii_Permutation (rho : radii) e1 e2 (es : list (Z * Z)) :
  NoDup es → e1 ∈ es → e2 ∈ es →
  map (swap_radii rho e1 e2) es ≡ₚ map rho es.
Proof.
  intros Hnd H1 H2.
  rewrite (map_ext _ _ (swap_radii_transpose rho e1 e2)).
  rewrite <- (map_map (transpose e1 e2) rho).
  apply Permutation_map. by apply transpose_Permutation.
Qed.

Lemma fold_visits_Permutation {A : Type} (visit : radii → A → radii)
  (es : list (Z * Z)) (l : list A) (rho : radii) :
  (∀ rho a, a ∈ l → map (visit rho a) es ≡ₚ map rho es) →
  map (fold_left visit l rho) es ≡ₚ map rho es.
Proof.
  revert rho. induction l as [|a l IH]; intros rho Hvisit; simpl; [done|].
  rewrite IH.
  - apply Hvisit. left.
  - intros rho' a' Ha'. apply Hvisit. by right.
Qed.


Lemma switch_pass_Permutation cd (es : list (Z * Z)) (rho : radii) :
  NoDup es → map (switch_pass cd es rho) es ≡ₚ map rho es.
Proof.
  intros Hnd. unfold switch_pass.
  apply fold_visits_Permutation. intros rho' e1 H1. unfold switch_visit.
  destruct (cd e1) as [c1|]; [|done]. destruct (rho' e1) as [r1|]; [|done].
  destruct (List.find _ es) as [e2|] eqn:Hfind; [|done].
  apply find_some in Hfind as [H2%list_elem_of_In _].
  by apply swap_radii_Permutation.
Qed.

(** X7. [make_switches] only exchanges radii: on a graph whose edges all
    have a radius and a central difference it raises nothing, leaves
    nodes, edges and graph attributes alone, and the radii of the edges
    after the call are the radii before it in another order. *)
Theorem make_switches_permutes_radii (G : DiGraph) :
  wf_graph G →
  (∀ e, e ∈ edges G →
        is_Some (central_difference_of G e) ∧ is_Some (radius_of G e)) →
  ∃ G', make_switches G = Ok G' ∧
        skeleton G' = skeleton G ∧
        map (radius_of G') (edges G') ≡ₚ map (radius_of G) (edges G).
Proof.
  intros Hwf Hattrs.
  destruct (make_switches_sim G (fun e He => proj1 (Hattrs e He)))
    as (G' & Hrun & Hsk & _ & Hr & _).
  { intros e He. by apply Hattrs. }
  exists G'. split; [done|]. split; [done|].
  rewrite (skeleton_edges G G' Hsk), (map_ext _ _ Hr).
  apply switch_pass_Permutation. by apply wf_NoDup_edges.
Qed.

Lemma make_switches_permutes_radii_witness :
  wf_graph chain3 ∧
  (∀ e, e ∈ edges chain3 →
        is_Some (central_difference_of chain3 e) ∧ is_Some (radius_of chain3 e)) ∧
  ∃ G', make_switches chain3 = Ok G' ∧
        skeleton G' = skeleton chain3 ∧
        map (radius_of G') (edges G') ≡ₚ map (radius_of chain3) (edges chain3).
Proof.
  split; [apply chain3_wf|]. split; [apply chain3_attrs|].
  apply (make_switches_permutes_radii chain3 chain3_wf chain3_attrs).
Defined.

Lemma for_each_fixed {A S : Type} (l : list A) (body : A → S → result S) (s : S) :
  (∀ a, a ∈ l → body a s = Ok s) → for_each l body s = Ok s.
Proof.
  induction l as [|a l IH]; intros Hbody; simpl; [done|].
  rewrite Hbody by left. simpl. apply IH. intros a' Ha'. apply Hbody. by right.
Qed.

Lemma radius_of_edge_data G e r :
  radius_of G e = Some r →
  (a ← edge_data G e.1 e.2; attr (radius a)) = Ok r.
Proof.
  intros (a & Ha & Hr)%radius_of_Some. destruct e as [u v]. cbn [fst snd].
  rewrite edge_data_lookup, Ha. simpl. by rewrite Hr.
Qed.

Lemma central_difference_of_Ok G e c :
  central_difference_of G e = Some c → central_difference G e = Ok c.
Proof.
  unfold central_difference_of. by destruct (central_difference G e); intros [= ->].
Qed.

Lemma scan_partners_fixed G e1 c1 r1 partners :
  (∀ e2, e2 ∈ partners →
         e1.1 = e2.1 ∨ e1.2 = e2.2
         ∨ ∃ c2 r2, central_difference_of G e2 = Some c2 ∧
                    radius_of G e2 = Some r2 ∧
                    (c1 <? c2) && (r2 <? r1)%float = false) →
  scan_partners G e1.1 e1.2 c1 r1 partners = Ok G.
Proof.
  induction partners as [|[src2 sink2] partners IH]; intros Hall; [done|].
  assert (IH' : scan_partners G e1.1 e1.2 c1 r1 partners = Ok G).
  { apply IH. intros e2 He2. apply Hall. by right. }
  cbn [scan_partners].
  destruct (Hall (src2, sink2)) as [Heq|[Heq|(c2 & r2 & Hc2 & Hr2 & Hno)]];
    [left| | |].
  - cbn [fst] in Heq. by rewrite (bool_decide_eq_true_2 _ Heq).
  - cbn [snd] in Heq. by rewrite (bool_decide_eq_true_2 (e1.2 = sink2) Heq), orb_true_r.
  - destruct (bool_decide (e1.1 = src2) || bool_decide (e1.2 = sink2)); [done|].
    rewrite (central_difference_of_Ok _ _ _ Hc2). cbn [mbind result_bind].
    pose proof (radius_of_edge_data G (src2, sink2) r2 Hr2) as Hdata.
    cbn [fst snd] in Hdata.
    destruct (edge_data G src2 sink2) as [a2|]; [|done].
    cbn [mbind result_bind] in *. rewrite Hdata. cbn [mbind result_bind].
    by rewrite Hno.
Qed.

(** X8. [make_switches] leaves an ordered graph exactly as it is: when no
    two edges with different source endpoints and different sink endpoints
    are out of order (the one with the strictly smaller central difference
    having the strictly larger radius), the call returns the graph
    unchanged. *)
Theorem make_switches_keeps_ordered_graph (G : DiGraph) :
  (∀ e, e ∈ edges G →
        is_Some (central_difference_of G e) ∧ is_Some (radius_of G e)) →
  (∀ e1 e2 c1 c2 r1 r2,
     e1 ∈ edges G → e2 ∈ edges G → e1.1 ≠ e2.1 → e1.2 ≠ e2.2 →
     central_difference_of G e1 = Some c1 →
     central_difference_of G e2 = Some c2 →
     radius_of G e1 = Some r1 → radius_of G e2 = Some r2 →
     c1 < c2 → (r2 <? r1)%float = false) →
  make_switches G = Ok G.
Proof.
  intros Hattrs Hordered. unfold make_switches.
  apply for_each_fixed. intros [src1 sink1] He1.
  destruct (Hattrs _ He1) as [[c1 Hc1] [r1 Hr1]].
  rewrite (central_difference_of_Ok _ _ _ Hc1). cbn [mbind result_bind].
  pose proof (radius_of_edge_data G (src1, sink1) r1 Hr1) as Hdata.
  cbn [fst snd] in Hdata.
  destruct (edge_data G src1 sink1) as [a1|]; [|done].
  cbn [mbind result_bind] in *. rewrite Hdata. cbn [mbind result_bind].
  apply (scan_partners_fixed G (src1, sink1)). intros e2 He2. cbn [fst snd].
  destruct (decide (src1 = e2.1)) as [|Hsrc]; [by left|].
  destruct (decide (sink1 = e2.2)) as [|Hsink]; [by right; left|].
  right; right. destruct (Hattrs _ He2) as [[c2 Hc2] [r2 Hr2]].
  exists c2, r2. split; [done|]. split; [done|].
  destruct (c1 <? c2) eqn:Hlt; [|done]. apply Z.ltb_lt in Hlt. simpl.
  by apply (Hordered (src1, sink1) e2 c1 c2 r1 r2).
Qed.

Lemma chain3_switched_attrs e :
  e ∈ edges chain3_switched →
  is_Some (central_difference_of chain3_switched e)
  ∧ is_Some (radius_of chain3_switched e).
Proof.
  intros He. change (edges chain3_switched) with [(0, 1); (1, 2)] in He.
  apply elem_of_cons in He as [->|He]; [split; by eexists|].
  apply elem_of_cons in He as [->|He]; [split; by eexists|].
  by apply elem_of_nil in He.
Qed.

Lemma chain3_switched_ordered e1 e2 c1 c2 r1 r2 :
  e1 ∈ edges chain3_switched → e2 ∈ edges chain3_switched →
  e1.1 ≠ e2.1 → e1.2 ≠ e2.2 →
  central_difference_of chain3_switched e1 = Some c1 →
  central_difference_of chain3_switched e2 = Some c2 →
  radius_of chain3_switched e1 = Some r1 →
  radius_of chain3_switched e2 = Some r2 →
  c1 < c2 → (r2 <? r1)%float = false.
Proof.
  intros He1 He2. change (edges chain3_switched) with [(0, 1); (1, 2)] in He1, He2.
  repeat (apply elem_of_cons in He1 as [->|He1]);
    [| |by apply elem_of_nil in He1];
    (repeat (apply elem_of_cons in He2 as [->|He2]);
       [| |by apply elem_of_nil in He2]);
    intros _ _; vm_compute; intros [= <-] [= <-] [= <-] [= <-]; try done.
Qed.

Lemma make_switches_keeps_ordered_graph_witness :
  (∀ e, e ∈ edges chain3_switched →
        is_Some (central_difference_of chain3_switched e)
        ∧ is_Some (radius_of chain3_switched e)) ∧
  make_switches chain3_switched = Ok chain3_switched.
Proof.
  split; [apply chain3_switched_attrs|].
  apply (make_switches_keeps_ordered_graph chain3_switched
           chain3_switched_attrs chain3_switched_ordered).
Defined.

(** * The radii of the random branch *)








(** * The central difference in terms of walks *)

Lemma dist_edge_node_walks G u v n :
  wf_graph G → u ∈ nodes G → v ∈ nodes G → n ∈ nodes G →
  (∀ d, dist_edge_node G (u, v) n = Ok d ↔ anchor_distance G (u, v) n d) ∧
  (dist_edge_node G (u, v) n = Raise NetworkXNoPath ↔ cut_off G (u, v) n) ∧
  ((∃ d, dist_edge_node G (u, v) n = Ok d)
   ∨ dist_edge_node G (u, v) n = Raise NetworkXNoPath).
Proof.
  intros Hwf Hu Hv Hn.
  destruct (shortest_path_length_distance G Hwf u Hu n Hn) as [Hok1 Hno1].
  destruct (shortest_path_length_distance G Hwf n Hn v Hv) as [Hok2 Hno2].
  unfold dist_edge_node, anchor_distance, cut_off. cbn [fst snd].
  destruct (shortest_path_length_cases G u n Hu Hn) as [[d0 Hd0]|Hnone];
    [|destruct (shortest_path_length_cases G n v Hn Hv) as [[d0 Hd0]|Hnone2]].
  - rewrite Hd0. pose proof (proj1 (Hok1 d0) Hd0) as [H0 [Hw Hmin]].
    split; [|split; [|eauto]].
    + intros d. split.
      * intros [= <-]. split; [done|]. by left.
      * intros [Hd [Hdist|[Hno _]]]; [|by destruct (Hno _ Hw)].
        rewrite <- Hd0. by apply Hok1.
    + split; [done|]. intros [Hno _]. by destruct (Hno _ Hw).
  - rewrite Hnone, Hd0. pose proof (proj1 Hno1 Hnone) as Hno.
    pose proof (proj1 (Hok2 d0) Hd0) as [H0 [Hw Hmin]].
    split; [|split; [|eauto]].
    + intros d. split.
      * intros [= <-]. split; [done|]. right. by split.
      * intros [Hd [[Hw' _]|[_ Hdist]]]; [by destruct (Hno _ Hw')|].
        rewrite <- Hd0. by apply Hok2.
    + split; [done|]. intros [_ Hno']. by destruct (Hno' _ Hw).
  - rewrite Hnone, Hnone2. pose proof (proj1 Hno1 Hnone) as Hno.
    pose proof (proj1 Hno2 Hnone2) as Hno'.
    split; [|split; [|by right]].
    + intros d. split; [done|].
      intros [_ [[Hw _]|[_ [Hw _]]]]; [by destruct (Hno _ Hw)|by destruct (Hno' _ Hw)].
    + by split.
Qed.

(** X11. What [central_difference] computes, in terms of directed walks.
    For an edge [(u, v)] and each of the two anchors (the designated
    source, the designated sink) the distance taken is that of a shortest
    walk from [u] to the anchor when there is one, and otherwise that of a
    shortest walk from the anchor to [v]; the result is the absolute
    difference of the two.  The call raises [NetworkXNoPath] exactly when
    for one of the anchors there is neither a walk from [u] to it nor a
    walk from it to [v]: the fallback query is not guarded. *)
Theorem central_difference_by_walks (G : DiGraph) (u v s t : Z) :
  wf_graph G → u ∈ nodes G → v ∈ nodes G →
  g_source (graph G) = Some s → g_sink (graph G) = Some t →
  s ∈ nodes G → t ∈ nodes G →
  (∀ c, central_difference G (u, v) = Ok c
        ↔ ∃ d1 d2, anchor_distance G (u, v) s d1 ∧
                   anchor_distance G (u, v) t d2 ∧ c = Z.abs (d1 - d2)) ∧
  (central_difference G (u, v) = Raise NetworkXNoPath
   ↔ cut_off G (u, v) s ∨ cut_off G (u, v) t).
Proof.
  intros Hwf Hu Hv Hsrc Hsnk Hs Ht.
  destruct (dist_edge_node_walks G u v s Hwf Hu Hv Hs) as (Hok1 & Hno1 & Hc1).
  destruct (dist_edge_node_walks G u v t Hwf Hu Hv Ht) as (Hok2 & Hno2 & Hc2).
  unfold central_difference. rewrite Hsrc, Hsnk. cbn [attr mbind result_bind].
  destruct Hc1 as [[d1 Hd1]|Hn1]; [destruct Hc2 as [[d2 Hd2]|Hn2]|].
  - rewrite Hd1. cbn [mbind result_bind]. rewrite Hd2. cbn [mbind result_bind].
    split.
    + intros c. split.
      * intros [= <-]. exists d1, d2. split; [by apply Hok1|].
        split; [by apply Hok2 | done].
      * intros (d1' & d2' & H1%Hok1 & H2%Hok2 & ->). congruence.
    + split; [done|].
      intros [H%Hno1|H%Hno2]; congruence.
  - rewrite Hd1. cbn [mbind result_bind]. rewrite Hn2. cbn [mbind result_bind].
    split.
    + intros c. split; [done|].
      intros (d1' & d2' & _ & H2%Hok2 & _). congruence.
    + split; [|done]. intros _. right. by apply Hno2.
  - rewrite Hn1. cbn [mbind result_bind]. split.
    + intros c. split; [done|].
      intros (d1' & d2' & H1%Hok1 & _). congruence.
    + split; [|done]. intros _. left. by apply Hno1.
Qed.

Lemma central_difference_by_walks_witness :
  wf_graph chain3 ∧ 0 ∈ nodes chain3 ∧ 1 ∈ nodes chain3 ∧
  g_source (graph chain3) = Some 0 ∧ g_sink (graph chain3) = Some 2 ∧
  0 ∈ nodes chain3 ∧ 2 ∈ nodes chain3 ∧
  (∀ c, central_difference chain3 (0, 1) = Ok c
        ↔ ∃ d1 d2, anchor_distance chain3 (0, 1) 0 d1 ∧
                   anchor_distance chain3 (0, 1) 2 d2 ∧ c = Z.abs (d1 - d2)) ∧
  (central_difference chain3 (0, 1) = Raise NetworkXNoPath
   ↔ cut_off chain3 (0, 1) 0 ∨ cut_off chain3 (0, 1) 2).
Proof.
  assert (H0 : 0 ∈ nodes chain3) by (by apply (bool_decide_unpack _)).
  assert (H1 : 1 ∈ nodes chain3) by (by apply (bool_decide_unpack _)).
  assert (H2 : 2 ∈ nodes chain3) by (by apply (bool_decide_unpack _)).
  split; [apply chain3_wf|]. split; [done|]. split; [done|].
  split; [done|]. split; [done|]. split; [done|]. split; [done|].
  by apply (central_difference_by_walks chain3 0 1 0 2 chain3_wf).
Defined.

(** * More on the distance ranking *)

(** A loop raises as soon as its body does on one element, provided the
    body does nothing else than return or raise that exception; [Inv] is
    what the body keeps true of the state. *)
Lemma for_each_raises {A S : Type} (e : exn) (bad : A → Prop) (Inv : S → Prop)
  (l : list A) (body : A → S → result S) (s : S) :
  (∀ a s, a ∈ l → Inv s → bad a → body a s = Raise e) →
  (∀ a s, a ∈ l → Inv s →
          (∃ s', body a s = Ok s' ∧ Inv s') ∨ body a s = Raise e) →
  Inv s → Exists bad l → for_each l body s = Raise e.
Proof.
  intros Hbad Hbody Hinv Hex. revert s Hinv.
  induction l as [|a l IH]; intros s Hinv; [by apply Exists_nil in Hex|].
  simpl. destruct (Hbody a s) as [(s' & Hs' & Hinv')|Hr];
    [left | done | | by rewrite Hr].
  rewrite Hs'. simpl.
  apply Exists_cons in Hex as [Ha|Hex].
  - rewrite (Hbad a s) in Hs'; [done | left | done | done].
  - apply IH; [| |done|done].
    + intros a' s0 Ha'. apply Hbad. by right.
    + intros a' s0 Ha'. apply Hbody. by right.
Qed.

(** A loop returns when its body does on every element. *)
Lemma for_each_returns {A S : Type} (Inv : S → Prop)
  (l : list A) (body : A → S → result S) (s : S) :
  (∀ a s, a ∈ l → Inv s → ∃ s', body a s = Ok s' ∧ Inv s') →
  Inv s → ∃ s', for_each l body s = Ok s' ∧ Inv s'.
Proof.
  intros Hbody. revert s. induction l as [|a l IH]; intros s Hinv; [by exists s|].
  simpl. destruct (Hbody a s) as (s' & Hs' & Hinv'); [left | done |].
  rewrite Hs'. simpl. apply IH; [|done].
  intros a' s0 Ha'. apply Hbody. by right.
Qed.

(** X12. [assign_distances_from_source_and_sink_nodes] reads the [ntype]
    of every node, source, sink or neither, isolated or not: if one node
    of the graph has no [ntype] attribute the call raises [KeyError]. *)
Theorem assign_distances_needs_every_role (G : DiGraph) (n : Z) :
  n ∈ nodes G → role_of G n = None →
  assign_distances_from_source_and_sink_nodes G = Raise KeyError.
Proof.
  intros Hn Hrole. unfold assign_distances_from_source_and_sink_nodes.
  assert (Hraise : role_nodes G = Raise KeyError); [|by rewrite Hraise].
  unfold role_nodes.
  apply (for_each_raises KeyError (fun n => role_of G n = None) (fun _ => True)).
  - intros m [srcs snks] Hm _ Hnone. unfold role_of in Hnone.
    unfold getitem. apply od_get_is_Some in Hm as [a Ha]. rewrite Ha in *.
    simpl in *. by rewrite Hnone.
  - intros m [srcs snks] Hm _. unfold getitem.
    apply od_get_is_Some in Hm as [a Ha]. rewrite Ha. simpl.
    destruct (ntype a) as [r|]; simpl; [left|by right].
    destruct (decide (r = Source)); [by eexists|].
    destruct (decide (r = Sink)); by eexists.
  - done.
  - apply Exists_exists. by exists n.
Qed.

Lemma assign_distances_needs_every_role_witness :
  0 ∈ nodes bare_edge_graph ∧ role_of bare_edge_graph 0 = None ∧
  assign_distances_from_source_and_sink_nodes bare_edge_graph = Raise KeyError.
Proof.
  assert (H0 : 0 ∈ nodes bare_edge_graph) by (by apply (bool_decide_unpack _)).
  split; [done|]. split; [done|].
  by apply (assign_distances_needs_every_role bare_edge_graph 0).
Defined.

Lemma odict_ext {V : Type} (d d' : odict Z V) :
  keys d = keys d' → NoDup (keys d) →
  (∀ k, k ∈ keys d → od_get k d = od_get k d') → d = d'.
Proof.
  revert d'. induction d as [|[k v] d IH]; intros [|[k' v'] d']; try done.
  unfold keys. simpl. intros [= <- Hkeys] [Hfresh Hnd]%NoDup_cons Hget.
  pose proof (Hget k ltac:(left)) as Hk. simpl in Hk.
  rewrite !decide_True in Hk by done. injection Hk as <-. f_equal.
  apply IH; [done..|]. intros k' Hk'. specialize (Hget k' ltac:(by right)).
  simpl in Hget. rewrite !decide_False in Hget; [done|..]; by intros ->.
Qed.

(** Two graphs with the same nodes and edges whose edges carry the same
    attributes are the same graph. *)
Lemma graph_ext G G' :
  wf_graph G → skeleton G' = skeleton G →
  (∀ e, edge_lookup G' e = edge_lookup G e) → G' = G.
Proof.
  intros (Hnd & Hinner & _) Hsk Hlk.
  destruct G as [g nd sc], G' as [g' nd' sc'].
  injection Hsk as -> -> Htop. f_equal. unfold topology in Htop.
  cbn [succ] in *. unfold edge_lookup in Hlk. cbn [succ] in Hlk.
  assert (Hkeys : keys sc' = keys sc).
  { assert (Hfst : ∀ d : odict Z (odict Z edge_attrs),
              keys d = map fst (map (fun un => (un.1, keys un.2)) d)).
    { intros d. rewrite map_map. by apply map_ext. }
    by rewrite (Hfst sc'), Htop, <- Hfst. }
  apply odict_ext; [done | by rewrite Hkeys|].
  intros u Hu. rewrite Hkeys in Hu.
  destruct (od_get u sc) as [nbrs|] eqn:Hnbrs;
    [|by apply od_get_None in Hnbrs].
  assert (is_Some (od_get u sc')) as [nbrs' Hnbrs'].
  { apply od_get_is_Some. by rewrite Hkeys. }
  rewrite Hnbrs'. f_equal.
  assert (Hk : keys nbrs' = keys nbrs).
  { clear -Htop Hnbrs Hnbrs' Hnd.
    revert sc' Htop Hnbrs'. induction sc as [|[u1 n1] sc IH];
      intros [|[u1' n1'] sc']; try done.
    simpl. intros [= -> Hn Htop]. simpl in Hnbrs.
    destruct (decide (u = u1)) as [->|Hne].
    - by intros [= <-]; injection Hnbrs as <-.
    - apply IH; [|done..]. unfold keys in Hnd. simpl in Hnd.
      by apply NoDup_cons in Hnd as [_ ?]. }
  apply odict_ext; [done| |].
  - rewrite Hk. rewrite Forall_forall in Hinner.
    apply (Hinner (u, nbrs)). by apply od_get_Some_elem.
  - intros v _. specialize (Hlk (u, v)). cbn [fst snd] in Hlk.
    by rewrite Hnbrs, Hnbrs' in Hlk.
Qed.

Lemma ranked_skeleton G G' e a :
  skeleton G' = skeleton G → ranked G' e a = ranked G e a.
Proof.
  intros Hsk. unfold ranked, nodes_with_role, role_of.
  by rewrite !(path_lengths_skeleton G G'), (skeleton_nodes G G'),
    (skeleton_node G G').
Qed.

(** X13. The distance ranking is idempotent: it depends on the nodes, the
    roles and the edges only, so running
    [assign_distances_from_source_and_sink_nodes] again on its own result
    returns that result unchanged. *)
Theorem assign_distances_idempotent (G : DiGraph) :
  wf_graph G →
  Forall (fun n => is_Some (role_of G n)) (nodes G) →
  ∃ G', assign_distances_from_source_and_sink_nodes G = Ok G' ∧
        assign_distances_from_source_and_sink_nodes G' = Ok G'.
Proof.
  intros Hwf Hroles.
  destruct (assign_distances_run G Hwf Hroles) as (G' & Hrun & Hsk & Hlk).
  exists G'. split; [done|].
  assert (Hwf' : wf_graph G') by (by apply (skeleton_wf G)).
  destruct (assign_distances_run G' Hwf') as (G'' & Hrun' & Hsk' & Hlk').
  { unfold role_of. by rewrite (skeleton_nodes G G'), (skeleton_node G G'). }
  rewrite Hrun'. f_equal. apply graph_ext; [done..|].
  intros e. rewrite Hlk', Hlk, (skeleton_edges G G' Hsk).
  destruct (decide (e ∈ edges G)); [|done].
  destruct (edge_lookup G e) as [a|]; [|done]. simpl.
  by rewrite (ranked_skeleton G G').
Qed.

Lemma assign_distances_idempotent_witness :
  wf_graph chain3 ∧
  Forall (fun n => is_Some (role_of chain3 n)) (nodes chain3) ∧
  ∃ G', assign_distances_from_source_and_sink_nodes chain3 = Ok G' ∧
        assign_distances_from_source_and_sink_nodes G' = Ok G'.
Proof.
  split; [apply chain3_wf|]. split; [apply chain3_roles|].
  apply (assign_distances_idempotent chain3 chain3_wf chain3_roles).
Defined.

(** * Column bounds of the tracer curve *)

Lemma column_valid soln j :
  valid_column soln j →
  ∃ c, column soln j = Ok c ∧ length c = length (rows soln).
Proof.
  intros Hj. unfold column, valid_column in *.
  destruct (decide (0 ≤ j < ncols soln)).
  - eexists. split; [done|]. by rewrite length_map.
  - rewrite decide_True by lia. eexists. split; [done|]. by rewrite length_map.
Qed.

Lemma column_invalid soln j :
  ¬ valid_column soln j → column soln j = Raise IndexError.
Proof.
  intros Hj. unfold column, valid_column in *.
  rewrite !decide_False; [done|lia..].
Qed.

Lemma ready_edge G e :
  simulation_ready G → e ∈ edges G →
  ∃ a v k, edge_lookup G e = Some a ∧ volume a = Some v ∧ idx a = Some k
           ∧ (scalar_value v, k) ∈ Wt_terms G.
Proof.
  intros (Hwf & _ & Hall) He. rewrite edges_edge_items in He.
  apply list_elem_of_fmap in He as ([[u w] a] & -> & Hi).
  rewrite Forall_forall in Hall.
  destruct (Hall _ Hi) as ([v Hv] & _ & [k Hk]). simpl in *.
  exists a, v, k. split; [by apply edge_item_lookup|]. split; [done|].
  split; [done|]. apply list_elem_of_omap. exists (u, w, a).
  split; [done|]. simpl. by rewrite Hv, Hk.
Qed.

(** X14. On a prepared graph and a solution array with one row per time
    step, [get_Wt] returns an array of the length of [times] when the
    column index [offset + idx] of every edge is one [numpy] accepts, that
    is, lies in [-ncols, ncols); it raises [IndexError] as soon as the
    index of one edge does not.  So the solution array needs [2E] columns,
    and [3E] with [liposomes] set, for indices 0 to [E - 1]. *)
Theorem get_Wt_column_bounds (G : DiGraph) (times : list float)
  (soln : ndarray2) (liposomes : bool) :
  simulation_ready G →
  length (rows soln) = length times →
  (Forall (fun vk => valid_column soln (Wt_offset G liposomes + vk.2))
          (Wt_terms G) →
   ∃ Wt, get_Wt G times soln liposomes = Ok Wt ∧ length Wt = length times) ∧
  (Exists (fun vk => ¬ valid_column soln (Wt_offset G liposomes + vk.2))
          (Wt_terms G) →
   get_Wt G times soln liposomes = Raise IndexError).
Proof.
  intros Hready Hlen.
  assert (Hbody : get_Wt G times soln liposomes
                  = for_each (edges G)
                      (fun '(src, sink) Wt =>
                         a ← edge_data G src sink;
                         v ← attr (volume a);
                         a' ← edge_data G src sink;
                         i ← attr (idx a');
                         c ← column soln (Wt_offset G liposomes + i);
                         iadd Wt (map (fun s => (float_of_int 65 * scalar_value v * s)%float) c))
                      (map (fun _ => 0%float) times)).
  { unfold get_Wt. apply for_each_ext. intros [src snk] Wt _. unfold Wt_offset.
    by destruct liposomes. }
  rewrite Hbody. clear Hbody.
  set (Inv := fun Wt : list float => length Wt = length times).
  assert (Hinit : Inv (map (fun _ => 0%float) times)) by apply length_map.
  assert (Hgood : ∀ e Wt a v k,
            edge_lookup G e = Some a → volume a = Some v → idx a = Some k →
            valid_column soln (Wt_offset G liposomes + k) → Inv Wt →
            ∃ Wt', (let '(src, sink) := e in
                    a ← edge_data G src sink;
                    v ← attr (volume a);
                    a' ← edge_data G src sink;
                    i ← attr (idx a');
                    c ← column soln (Wt_offset G liposomes + i);
                    iadd Wt (map (fun s => (float_of_int 65 * scalar_value v * s)%float) c))
                   = Ok Wt' ∧ Inv Wt').
  { intros [u w] Wt a v k Ha Hv Hk Hvalid HWt.
    rewrite edge_data_lookup, Ha. simpl. rewrite Hv, Hk. simpl.
    destruct (column_valid soln _ Hvalid) as (c & -> & Hc). simpl.
    rewrite iadd_same_length by (rewrite length_map; unfold Inv in HWt; lia).
    eexists. split; [done|]. unfold Inv in *.
    rewrite length_zip_with, length_map. lia. }
  assert (Hbad : ∀ e Wt a v k,
            edge_lookup G e = Some a → volume a = Some v → idx a = Some k →
            ¬ valid_column soln (Wt_offset G liposomes + k) →
            (let '(src, sink) := e in
             a ← edge_data G src sink;
             v ← attr (volume a);
             a' ← edge_data G src sink;
             i ← attr (idx a');
             c ← column soln (Wt_offset G liposomes + i);
             iadd Wt (map (fun s => (float_of_int 65 * scalar_value v * s)%float) c))
            = Raise IndexError).
  { intros [u w] Wt a v k Ha Hv Hk Hinvalid.
    rewrite edge_data_lookup, Ha. simpl. rewrite Hv, Hk. simpl.
    by rewrite (column_invalid soln _ Hinvalid). }
  split.
  - intros Hall. rewrite Forall_forall in Hall.
    apply (for_each_returns Inv); [|done].
    intros [u w] Wt He HWt.
    destruct (ready_edge G (u, w) Hready He) as (a & v & k & Ha & Hv & Hk & Hin).
    apply (Hgood (u, w) Wt a v k); try done.
    by apply (Hall (scalar_value v, k)).
  - intros Hex. apply Exists_exists in Hex as ([v k] & Hin & Hinvalid).
    apply list_elem_of_omap in Hin as ([[u w] a] & Hi & Hvk).
    destruct Hready as (Hwf & Hsrc & Hattrs).
    apply (for_each_raises IndexError
             (fun e => ∃ a v k, edge_lookup G e = Some a ∧ volume a = Some v ∧
                                idx a = Some k ∧
                                ¬ valid_column soln (Wt_offset G liposomes + k))
             Inv); [| |done|].
    + intros [u' w'] Wt _ _ (a' & v' & k' & Ha' & Hv' & Hk' & Hinv').
      by apply (Hbad (u', w') Wt a' v' k').
    + intros [u' w'] Wt He HWt.
      destruct (ready_edge G (u', w') (conj Hwf (conj Hsrc Hattrs)) He)
        as (a' & v' & k' & Ha' & Hv' & Hk' & _).
      destruct (decide (valid_column soln (Wt_offset G liposomes + k')))
        as [Hvalid|Hinvalid'].
      * left. by apply (Hgood (u', w') Wt a' v' k').
      * right. by apply (Hbad (u', w') Wt a' v' k').
    + apply Exists_exists. exists (u, w). split.
      * rewrite edges_edge_items. apply list_elem_of_fmap. by exists (u, w, a).
      * simpl in Hvk. destruct (volume a) as [v'|] eqn:Hv'; [|done].
        destruct (idx a) as [k'|] eqn:Hk'; [|done]. simpl in Hvk.
        injection Hvk as _ <-. exists a, v', k'.
        split; [by apply edge_item_lookup|]. done.
Qed.

Lemma get_Wt_column_bounds_witness :
  simulation_ready chain3 ∧ length (rows soln2) = length times2 ∧
  (∃ Wt, get_Wt chain3 times2 soln2 false = Ok Wt ∧ length Wt = length times2) ∧
  get_Wt chain3 times2 soln2 true = Raise IndexError.
Proof.
  split; [apply chain3_simulation_ready|]. split; [reflexivity|]. split.
  - apply (proj1 (get_Wt_column_bounds chain3 times2 soln2 false
                    chain3_simulation_ready eq_refl)).
    repeat constructor; vm_compute; intros [=].
  - apply (proj2 (get_Wt_column_bounds chain3 times2 soln2 true
                    chain3_simulation_ready eq_refl)).
    left. vm_compute. by intros [_ [=]].
Defined.



(** * The lattice, node by node and edge by edge *)

Section orienting.
Context (G0 : DiGraph).
Context (Hwf0 : wf_graph G0).
Context (Hroles : ∀ n, n ∈ nodes G0 → is_Some (role_of G0 n)).
Context (Hanti : ∀ e, e ∈ edges G0 → (e.2, e.1) ∉ edges G0).

Lemma orient_step u v done_ G :
  (u, v) ∈ edges G0 → (u, v) ∉ done_ → (∀ e, e ∈ done_ → e ∈ edges G0) →
  orienting G0 done_ G →
  ∃ G',
    (t ← node_ntype G v;
     if decide (t = Source) then reverse_edge u v G
     else
       t' ← node_ntype G u;
       if decide (t' = Sink) then reverse_edge u v G else Ok G) = Ok G' ∧
    orienting G0 (done_ ++ [(u, v)]) G'.
Proof using Hwf0 Hroles Hanti.
  intros He Hfresh Hdone (Hwf & Hnode & Hmem).
  destruct (wf_edge_endpoints G0 u v Hwf0 He) as [Hu Hv].
  destruct (Hroles u Hu) as [ru Hru]. destruct (Hroles v Hv) as [rv Hrv].
  rewrite !node_ntype_role, !(role_of_node G0 G) by done.
  rewrite Hru, Hrv. cbn [attr mbind result_bind].
  assert (HinG : (u, v) ∈ edges G) by (apply Hmem; by left).
  assert (Hold : ∀ e0, e0 ∈ done_ → orient G0 e0 ≠ (u, v)).
  { intros e0 H0 Heq. unfold orient in Heq. case_decide.
    - apply (Hanti (u, v) He). cbn [fst snd]. apply Hdone in H0.
      destruct e0 as [a b]. by injection Heq as -> ->.
    - by subst e0. }
  assert (Hflip : rv = Source ∨ ru = Sink →
            ∃ G', reverse_edge u v G = Ok G' ∧
                  orienting G0 (done_ ++ [(u, v)]) G').
  { intros Hflag.
    destruct (reverse_edge_spec u v G Hwf HinG)
      as (G' & Hrun & Hwf' & Hnode' & _ & Hmem' & _).
    exists G'. split; [done|]. split; [done|]. split; [congruence|].
    assert (Hor : orient G0 (u, v) = (v, u)).
    { unfold orient. cbn [fst snd]. rewrite Hru, Hrv.
      rewrite decide_True; [done|]. destruct Hflag; [left|right]; congruence. }
    intros e. rewrite Hmem', Hmem. split.
    - intros [[[[Hin Hnd]|(e0 & H0 & ->)] Hne]| ->].
      + left. split; [done|]. by rewrite not_elem_of_app, list_elem_of_singleton.
      + right. exists e0. split; [|done]. apply elem_of_app. by left.
      + right. exists (u, v). split; [|done]. apply elem_of_app. right. left.
    - intros [[Hin Hnd]|(e0 & H0 & ->)].
      + apply not_elem_of_app in Hnd as [Hnd1 Hnd2].
        rewrite list_elem_of_singleton in Hnd2. left. split; [by left|done].
      + apply elem_of_app in H0 as [H0|H0%list_elem_of_singleton].
        * left. split; [right; eauto | by apply Hold].
        * subst e0. by right. }
  destruct (decide (rv = Source)) as [Hs|Hs]; [apply Hflip; by left|].
  destruct (decide (ru = Sink)) as [Hk|Hk]; [apply Hflip; by right|].
  exists G. split; [done|]. split; [done|]. split; [done|].
  assert (Hor : orient G0 (u, v) = (u, v)).
  { unfold orient. cbn [fst snd]. rewrite Hru, Hrv.
    rewrite decide_False; [done|]. intros [[= ?]|[= ?]]; done. }
  intros e. rewrite Hmem. split.
  - intros [[Hin Hnd]|(e0 & H0 & ->)].
    + destruct (decide (e = (u, v))) as [->|Hne].
      * right. exists (u, v). split; [|done]. apply elem_of_app. right. left.
      * left. split; [done|]. by rewrite not_elem_of_app, list_elem_of_singleton.
    + right. exists e0. split; [|done]. apply elem_of_app. by left.
  - intros [[Hin Hnd]|(e0 & H0 & ->)].
    + apply not_elem_of_app in Hnd as [Hnd1 _]. by left.
    + apply elem_of_app in H0 as [H0|H0%list_elem_of_singleton].
      * right. eauto.
      * subst e0. rewrite Hor. by left.
Qed.

Lemma orient_loop todo done_ G :
  edges G0 = done_ ++ todo → orienting G0 done_ G →
  ∃ G',
    for_each todo
      (fun '(src, sink) G =>
         t ← node_ntype G sink;
         if decide (t = Source) then reverse_edge src sink G
         else
           t' ← node_ntype G src;
           if decide (t' = Sink) then reverse_edge src sink G else Ok G)
      G = Ok G' ∧
    orienting G0 (edges G0) G'.
Proof using Hwf0 Hroles Hanti.
  revert done_ G. induction todo as [|[u v] todo IH]; intros done_ G Hsplit Hor.
  - rewrite app_nil_r in Hsplit. subst done_. simpl. eauto.
  - cbn [for_each]. pose proof (wf_NoDup_edges G0 Hwf0) as Hnd.
    rewrite Hsplit in Hnd. apply NoDup_app in Hnd as (_ & Hdisj & _).
    destruct (orient_step u v done_ G) as (G1 & Hrun & Hor1); [..|done|].
    + rewrite Hsplit, elem_of_app. right. left.
    + intros Hin. apply (Hdisj _ Hin). left.
    + intros e Hin. rewrite Hsplit, elem_of_app. by left.
    + rewrite Hrun. cbn [mbind result_bind].
      apply (IH (done_ ++ [(u, v)])); [|done]. by rewrite <- app_assoc.
Qed.

Lemma orient_inj e1 e2 :
  e1 ∈ edges G0 → e2 ∈ edges G0 → orient G0 e1 = orient G0 e2 → e1 = e2.
Proof using Hanti.
  intros H1 H2. unfold orient. destruct e1 as [a b], e2 as [c d].
  cbn [fst snd]. repeat case_decide; intros [= -> ->]; try done.
  - by destruct (Hanti _ H1).
  - by destruct (Hanti _ H2).
Qed.

(** The direction loop turns every edge the way [orient] says, and loses
    none. *)
Lemma direct_edges_oriented :
  ∃ G', direct_edges G0 = Ok G' ∧ wf_graph G' ∧ node G' = node G0 ∧
        edges G' ≡ₚ map (orient G0) (edges G0).
Proof using Hwf0 Hroles Hanti.
  destruct (orient_loop (edges G0) [] G0) as (G' & Hrun & Hwf' & Hnode' & Hmem);
    [done| |].
  { split; [done|]. split; [done|]. intros e. split.
    - intros He. left. split; [done|]. apply not_elem_of_nil.
    - by intros [[He _]|(e0 & []%elem_of_nil & _)]. }
  exists G'. split; [done|]. split; [done|]. split; [done|].
  apply NoDup_Permutation.
  - by apply wf_NoDup_edges.
  - change (NoDup (orient G0 <$> edges G0)).
    apply NoDup_fmap_2_strong; [|by apply wf_NoDup_edges].
    intros e1 e2 H1 H2. by apply orient_inj.
  - intros e. rewrite Hmem. split.
    + intros [[He Hne]|(e0 & H0 & ->)]; [by destruct Hne|].
      apply list_elem_of_fmap. eauto.
    + intros (e0 & -> & H0)%list_elem_of_fmap. right. eauto.
Qed.
End orienting.

Lemma grid_edges_increase N delta u v :
  (u, v) ∈ edges (marked_grid_graph N delta) → u < v.
Proof.
  intros (c & c' & Hc & Hc' & -> & ->)%elem_of_grid_edges.
  destruct c as [[x y] z]. apply elem_of_coords in Hc as (Hx & Hy & Hz).
  unfold forward_neighbours in Hc'. cbn [fst snd] in Hc'.
  rewrite !elem_of_app in Hc'. unfold node_id.
  destruct Hc' as [H|[H|H]]; case_decide; try (by apply elem_of_nil in H);
    apply list_elem_of_singleton in H as ->; cbn [fst snd]; nia.
Qed.

Lemma orient_node G G' e : node G' = node G → orient G' e = orient G e.
Proof. intros Hnode. unfold orient. by rewrite !(role_of_node G G'). Qed.

(** X15. The direction loop loses no edge and joins no two: for every
    resolution [N >= 1] the edges of the lattice are the forward edges of
    the grid, each turned around when it enters a source-role node or
    leaves a sink-role node and kept as it is otherwise, so that there are
    exactly [3*N^2*(N-1)] of them. *)
Theorem lattice_edges_are_the_oriented_grid_edges (N : Z) :
  1 ≤ N →
  ∃ vd G0 G,
    build_grid N = Ok (vd, G0) ∧ build_lattice N = Ok G ∧
    edges G ≡ₚ map (orient G) (edges G0) ∧
    Z.of_nat (length (edges G)) = 3 * N * N * (N - 1).
Proof.
  intros HN. destruct (int_truediv_succ N) as [delta Hdelta]; [lia|].
  destruct (direct_edges_oriented (marked_grid_graph N delta))
    as (G & Hrun & Hwf & Hnode & Hperm).
  - apply wf_marked_grid_graph.
  - apply marked_grid_all_roles.
  - intros [u v] He Hrev. cbn [fst snd] in Hrev.
    apply grid_edges_increase in He, Hrev. lia.
  - exists (grid_vd N), (grid_graph N delta), G.
    split; [by apply build_grid_spec; [lia|]|].
    assert (Hbuild : build_lattice N = Ok G).
    { unfold build_lattice. rewrite Hdelta. cbn [mbind result_bind].
      rewrite add_grid_nodes_spec by lia. cbn [mbind result_bind].
      rewrite add_grid_edges_spec. cbn [mbind result_bind].
      by rewrite mark_sources_and_sinks_spec. }
    split; [done|].
    assert (Hedges : edges G ≡ₚ map (orient G) (edges (grid_graph N delta))).
    { rewrite (map_ext _ _ (fun e => orient_node (marked_grid_graph N delta) G e Hnode)).
      exact Hperm. }
    split; [done|].
    rewrite Hedges, length_map. by apply length_edges_grid_graph.
Qed.

Lemma lattice_edges_are_the_oriented_grid_edges_witness :
  1 ≤ 2 ∧
  ∃ vd G0 G,
    build_grid 2 = Ok (vd, G0) ∧ build_lattice 2 = Ok G ∧
    edges G ≡ₚ map (orient G) (edges G0) ∧
    Z.of_nat (length (edges G)) = 3 * 2 * 2 * (2 - 1).
Proof.
  split; [lia|]. apply (lattice_edges_are_the_oriented_grid_edges 2). lia.
Defined.



(** * The lattice has no directed cycle *)

Lemma successor_is_edge G w t : t ∈ successors G w → (w, t) ∈ edges G.
Proof.
  unfold successors. destruct (od_get w (succ G)) as [nbrs|] eqn:Hw.
  - by apply neighbour_is_edge.
  - by intros ?%elem_of_nil.
Qed.

Lemma walk_first_step G s t k :
  walk G s t (S k) → ∃ w, w ∈ successors G s.
Proof.
  remember (S k) as n eqn:Hn. intros Hw. revert k Hn.
  induction Hw as [|w t n Hw IH Ht]; intros k Hn; [done|].
  destruct n as [|n]; [|by eapply IH].
  inversion Hw; subst. eauto.
Qed.

(** A walk that starts at a node that is not a source and ends at a node
    that is not a sink climbs in the node numbering, in a graph whose
    edges obey the direction rule and climb unless they leave a source or
    enter a sink. *)
Lemma walk_climbs G s t k :
  direction_rule G →
  (∀ u v, (u, v) ∈ edges G →
          role_of G u ≠ Some Source → role_of G v ≠ Some Sink → u < v) →
  walk G s t (S k) →
  role_of G s ≠ Some Source → role_of G t ≠ Some Sink → s < t.
Proof.
  intros Hrule Hclimb. remember (S k) as n eqn:Hn. intros Hw. revert k Hn.
  induction Hw as [|w t n Hw IH Ht]; intros k Hn Hs Hsink; [done|].
  apply successor_is_edge in Ht.
  destruct n as [|n].
  - inversion Hw; subst. by apply Hclimb.
  - assert (Hwsink : role_of G w ≠ Some Sink).
    { destruct (Hrule w t Ht) as (rw & rt & -> & _ & Hne & _). congruence. }
    assert (Hwsrc : role_of G w ≠ Some Source).
    { inversion Hw as [|w' ? ? _ Hstep]; subst.
      apply successor_is_edge in Hstep.
      destruct (Hrule w' w Hstep) as (rw' & rw & _ & -> & _ & Hne). congruence. }
    pose proof (IH n eq_refl Hs Hwsink). pose proof (Hclimb w t Ht Hwsrc Hsink).
    lia.
Qed.

(** X18. The lattice is acyclic: for every resolution [N >= 1] the graph
    after the direction loop has no directed walk of one edge or more from
    a node back to itself. *)
Theorem lattice_is_acyclic (N : Z) :
  1 ≤ N →
  ∃ G, build_lattice N = Ok G ∧ ∀ n k, walk G n n k → k = 0%nat.
Proof.
  intros HN. destruct (int_truediv_succ N) as [delta Hdelta]; [lia|].
  destruct (build_lattice_spec N delta) as
    (G & Hrun & Hwf & Hnode & _ & Hedges & _); [lia | done |].
  destruct (direct_edges_oriented (marked_grid_graph N delta))
    as (G' & Hrun' & _ & _ & Hperm).
  { apply wf_marked_grid_graph. }
  { apply marked_grid_all_roles. }
  { intros [u v] He Hrev. cbn [fst snd] in Hrev.
    apply grid_edges_increase in He, Hrev. lia. }
  assert (G' = G) as ->.
  { unfold build_lattice in Hrun. rewrite Hdelta in Hrun.
    cbn [mbind result_bind] in Hrun.
    rewrite add_grid_nodes_spec in Hrun by lia. cbn [mbind result_bind] in Hrun.
    rewrite add_grid_edges_spec in Hrun. cbn [mbind result_bind] in Hrun.
    rewrite mark_sources_and_sinks_spec in Hrun. cbn [mbind result_bind] in Hrun.
    congruence. }
  exists G. split; [done|].
  assert (Hrule : direction_rule G).
  { intros u v He. destruct (wf_edge_endpoints G u v Hwf He) as [Hu Hv].
    pose proof (lattice_roles N delta G Hnode) as Hroles.
    rewrite Forall_forall in Hroles.
    destruct (Hroles u Hu) as [ru Hru]. destruct (Hroles v Hv) as [rv Hrv].
    destruct (Hedges (u, v) He) as [[Hd1 Hd2] _]. cbn [fst snd] in Hd1, Hd2.
    exists ru, rv. split; [done|]. split; [done|]. split; congruence. }
  assert (Hclimb : ∀ u v, (u, v) ∈ edges G →
            role_of G u ≠ Some Source → role_of G v ≠ Some Sink → u < v).
  { intros u v He Hu Hv. rewrite Hperm in He.
    apply list_elem_of_fmap in He as ([a b] & Heq & He0).
    unfold orient in Heq. cbn [fst snd] in Heq.
    rewrite <- !(role_of_node (marked_grid_graph N delta) G) in Heq by done.
    case_decide as Hflip; injection Heq as -> ->.
    - by destruct Hflip.
    - by apply (grid_edges_increase N delta). }
  intros n [|k] Hw; [done|]. exfalso.
  destruct (walk_first_step G n n k Hw) as [w Hfirst%successor_is_edge].
  assert (Hsink : role_of G n ≠ Some Sink).
  { destruct (Hrule n w Hfirst) as (rn & rw & -> & _ & Hne & _). congruence. }
  assert (Hsrc : role_of G n ≠ Some Source).
  { inversion Hw as [|w' ? ? _ Hstep]; subst.
    apply successor_is_edge in Hstep.
    destruct (Hrule w' n Hstep) as (rw' & rn & _ & -> & _ & Hne). congruence. }
  pose proof (walk_climbs G n n k Hrule Hclimb Hw Hsrc Hsink). lia.
Qed.

Lemma lattice_is_acyclic_witness :
  1 ≤ 2 ∧ ∃ G, build_lattice 2 = Ok G ∧ ∀ n k, walk G n n k → k = 0%nat.
Proof. split; [lia|]. apply (lattice_is_acyclic 2). lia. Defined.
